(** * Cloud-Design-Patterns: Gatekeeper, Trusted Host and Proxy

    A shallow embedding of the three request-routing services
    (gatekeeper.py, trusted_host.py, proxy.py) and of the primitives they
    share: the circuit breaker, the sliding-window rate limiter and the
    lexical query validator.

    Conventions of the embedding.
    - [time.time()] is an input: every function that reads the clock takes
      the reading as an argument [now : Z] (a clock reading in seconds).
    - Python [int] is [Z]; Python [str] is [string], read as a list of
      characters where the code scans it.  The text model covers ASCII
      queries.
    - Mutable attributes and module globals are threaded explicitly: a
      method returns its result together with the new state.
    - Calls that leave the process (HTTP requests, MySQL connections) take
      their outcome from an explicit environment and are logged in a
      trace, so that "what was sent, and in which order" can be stated. *)

From stdpp Require Import gmap strings list.
From Stdlib Require Import ZArith Ascii Lia.

Local Open Scope Z_scope.

(* ===================================================================== *)
(** * Part I: the embedding *)
(* ===================================================================== *)

(** ** CircuitBreaker (gatekeeper.py 31-59, trusted_host.py 29-57)

    The two files carry the same class, character for character apart
    from comments; one definition serves both. *)

Module CircuitBreaker.

(** [self.state] only ever holds one of three string literals. *)
Inductive cb_state : Type :=
| closed      (* "closed" *)
| open        (* "open" *)
| half_open.  (* "half-open" *)

#[global] Instance cb_state_eq_dec : EqDecision cb_state.
Proof. solve_decision. Defined.

Record t : Type := mk {
  failures : Z;
  last_failure_time : Z;
  state : cb_state
}.

(** [self.threshold] and [self.timeout] are assigned in [__init__] and
    never written again. *)
Definition threshold : Z := 5.
Definition timeout : Z := 60.

(** [__init__] *)
Definition init : t :=
  {| failures := 0; last_failure_time := 0; state := closed |}.

Definition record_failure (now : Z) (cb : t) : t :=
  let f := failures cb + 1 in
  {| failures := f;
     last_failure_time := now;
     state := if threshold <=? f then open else state cb |}.

Definition record_success (cb : t) : t :=
  {| failures := 0;
     last_failure_time := last_failure_time cb;
     state := closed |}.

Definition can_execute (now : Z) (cb : t) : bool * t :=
  match state cb with
  | open =>
      if timeout <? now - last_failure_time cb
      then (true, {| failures := failures cb;
                     last_failure_time := last_failure_time cb;
                     state := half_open |})
      else (false, cb)
  | _ => (true, cb)
  end.

(** Sequences of calls on one breaker. *)
Inductive op : Type :=
| RecordFailure (now : Z)
| RecordSuccess
| CanExecute (now : Z).

Definition step (o : op) (cb : t) : t :=
  match o with
  | RecordFailure now => record_failure now cb
  | RecordSuccess => record_success cb
  | CanExecute now => snd (can_execute now cb)
  end.

(** [states ops cb] lists the breaker before the first call and after
    each call: entry [k] is the state in which call [k] runs. *)
Fixpoint states (ops : list op) (cb : t) : list t :=
  cb :: match ops with
        | [] => []
        | o :: ops' => states ops' (step o cb)
        end.

Definition run (ops : list op) (cb : t) : t :=
  fold_left (fun s o => step o s) ops cb.

(** A run used as an example: five failures, then a success. *)
Definition five_failures_then_success : list op :=
  [ RecordFailure 1; RecordFailure 2; RecordFailure 3; RecordFailure 4;
    RecordFailure 5; RecordSuccess ].

(** The invariant of claim C10. *)
Definition Inv (cb : t) : Prop :=
  0 <= failures cb /\ (failures cb = 0 -> state cb = closed).

(** The breaker is closed exactly while fewer than [threshold] failures
    are on the count. *)
Definition Tripped (cb : t) : Prop :=
  0 <= failures cb /\ (state cb = closed <-> failures cb < threshold).

(** Telling the calls of a run apart. *)
Definition is_failure (o : op) : bool :=
  match o with RecordFailure _ => true | _ => false end.

Definition is_success (o : op) : bool :=
  match o with RecordSuccess => true | _ => false end.

End CircuitBreaker.

(** ** Python text primitives

    The string methods and operators that [validate_query] uses, on the
    character list of the string. *)

Module PyStr.

Definition chars (s : string) : list ascii := String.list_ascii_of_string s.

Definition code (c : ascii) : N := N_of_ascii c.

(** [str.upper] on one ASCII character. *)
Definition upper_char (c : ascii) : ascii :=
  if ((97 <=? code c) && (code c <=? 122))%N
  then ascii_of_N (code c - 32)
  else c.

(** [str.lower] on one ASCII character (case-insensitive matching). *)
Definition lower_char (c : ascii) : ascii :=
  if ((65 <=? code c) && (code c <=? 90))%N
  then ascii_of_N (code c + 32)
  else c.

(** [str.isspace] on ASCII: TAB, LF, VT, FF, CR, FS, GS, RS, US, SPACE.
    The same set is what [\s] matches and what [strip] removes. *)
Definition is_space (c : ascii) : bool :=
  (((9 <=? code c) && (code c <=? 13))
   || ((28 <=? code c) && (code c <=? 32)))%N.

(** [\w] on ASCII: letters, digits and the underscore. *)
Definition is_word (c : ascii) : bool :=
  (((48 <=? code c) && (code c <=? 57))
   || ((65 <=? code c) && (code c <=? 90))
   || ((97 <=? code c) && (code c <=? 122))
   || (code c =? 95))%N.

Definition upper (s : list ascii) : list ascii := map upper_char s.

(** [s.replace("\n", " ")]: the pattern is one character long. *)
Definition replace_nl (s : list ascii) : list ascii :=
  map (fun c => if Ascii.eqb c "010" then " "%char else c) s.

Fixpoint lstrip (s : list ascii) : list ascii :=
  match s with
  | c :: s' => if is_space c then lstrip s' else s
  | [] => []
  end.

Definition rstrip (s : list ascii) : list ascii := rev (lstrip (rev s)).

Definition strip (s : list ascii) : list ascii := rstrip (lstrip s).

(** What [upper] followed by [replace("\n", " ")] does to one
    character. *)
Definition norm (c : ascii) : ascii :=
  let u := upper_char c in if Ascii.eqb u "010" then " "%char else u.

(** [s.startswith(p)] *)
Fixpoint startswith (p s : list ascii) : bool :=
  match p, s with
  | [], _ => true
  | a :: p', b :: s' => Ascii.eqb a b && startswith p' s'
  | _ :: _, [] => false
  end.

(** [p in s] for strings: [p] occurs as a contiguous substring. *)
Fixpoint contains (p s : list ascii) : bool :=
  startswith p s ||
  match s with
  | [] => false
  | _ :: s' => contains p s'
  end.

(** [s[:-1]] *)
Definition all_but_last (s : list ascii) : list ascii := removelast s.

(** Specification side: what "is a substring of" means. *)
Definition infix_of (p s : list ascii) : Prop :=
  exists a b, s = a ++ p ++ b.

End PyStr.

(** ** Regular expressions (the fragment of [re] the validator uses)

    A configuration is the character just before the scan position (if
    any) and the text still to read; [\b] needs both sides. *)

Module Re.
Import PyStr.

Inductive regex : Type :=
| Eps
| Chr (c : ascii)                 (* a literal character *)
| ChrI (c : ascii)                (* a literal character under (?i) *)
| Cls (f : ascii -> bool)         (* a class: \s, \w, [..] *)
| AnyChar                         (* .  (anything but a newline) *)
| WordB                           (* \b *)
| Seq (r1 r2 : regex)
| Alt (r1 r2 : regex)
| Star (r : regex).

Definition Plus (r : regex) : regex := Seq r (Star r).

Fixpoint Lit (s : list ascii) : regex :=
  match s with
  | [] => Eps
  | c :: s' => Seq (Chr c) (Lit s')
  end.

Fixpoint LitI (s : list ascii) : regex :=
  match s with
  | [] => Eps
  | c :: s' => Seq (ChrI c) (LitI s')
  end.

Definition word_opt (c : option ascii) : bool :=
  match c with Some x => is_word x | None => false end.

(** [\b] holds where exactly one side is a word character. *)
Definition boundary (prev : option ascii) (rest : list ascii) : bool :=
  xorb (word_opt prev) (word_opt (head rest)).

(** Which single characters an atom accepts. *)
Definition accepts (r : regex) (x : ascii) : bool :=
  match r with
  | Chr c => Ascii.eqb x c
  | ChrI c => Ascii.eqb (lower_char x) (lower_char c)
  | Cls f => f x
  | AnyChar => negb (Ascii.eqb x "010")
  | _ => false
  end.

(** Iterating a matcher [m], with fuel [n]: stop here, or run [m] once
    and iterate from where it stopped.  An iteration that reads nothing
    is cut, as a backtracking engine does, so the length of the text is
    fuel enough. *)
Fixpoint star_loop
         (m : option ascii -> list ascii ->
              (option ascii -> list ascii -> bool) -> bool)
         (k : option ascii -> list ascii -> bool)
         (n : nat) (p : option ascii) (s : list ascii) : bool :=
  k p s ||
  match n with
  | O => false
  | S n' =>
      m p s (fun p' s' => (length s' <? length s)%nat
                          && star_loop m k n' p' s')
  end.

(** A backtracking matcher in continuation-passing style: [matcher r p s k]
    tries every way [r] can match at the configuration [(p, s)] and
    hands the configuration reached to [k]. *)
Fixpoint matcher (r : regex) (p : option ascii) (s : list ascii)
         (k : option ascii -> list ascii -> bool) {struct r} : bool :=
  match r with
  | Eps => k p s
  | Chr _ | ChrI _ | Cls _ | AnyChar =>
      match s with
      | x :: s' => accepts r x && k (Some x) s'
      | [] => false
      end
  | WordB => boundary p s && k p s
  | Seq r1 r2 => matcher r1 p s (fun p' s' => matcher r2 p' s' k)
  | Alt r1 r2 => matcher r1 p s k || matcher r2 p s k
  | Star r1 => star_loop (matcher r1) k (length s) p s
  end.

(** [re.search(r, s)]: a match starting at some position of [s]. *)
Fixpoint search_from (r : regex) (p : option ascii) (s : list ascii) : bool :=
  matcher r p s (fun _ _ => true) ||
  match s with
  | [] => false
  | c :: s' => search_from r (Some c) s'
  end.

Definition search (r : regex) (s : list ascii) : bool :=
  search_from r None s.

(** Specification side: the matching relation. *)
Definition cfg : Type := option ascii * list ascii.

Inductive Matches : regex -> cfg -> cfg -> Prop :=
| M_Eps c : Matches Eps c c
| M_Chr a x p s : accepts (Chr a) x = true ->
    Matches (Chr a) (p, x :: s) (Some x, s)
| M_ChrI a x p s : accepts (ChrI a) x = true ->
    Matches (ChrI a) (p, x :: s) (Some x, s)
| M_Cls f x p s : f x = true ->
    Matches (Cls f) (p, x :: s) (Some x, s)
| M_Any x p s : accepts AnyChar x = true ->
    Matches AnyChar (p, x :: s) (Some x, s)
| M_WordB p s : boundary p s = true -> Matches WordB (p, s) (p, s)
| M_Seq r1 r2 c1 c2 c3 :
    Matches r1 c1 c2 -> Matches r2 c2 c3 -> Matches (Seq r1 r2) c1 c3
| M_AltL r1 r2 c1 c2 : Matches r1 c1 c2 -> Matches (Alt r1 r2) c1 c2
| M_AltR r1 r2 c1 c2 : Matches r2 c1 c2 -> Matches (Alt r1 r2) c1 c2
| M_StarNil r c : Matches (Star r) c c
| M_StarCons r c1 c2 c3 :
    Matches r c1 c2 -> Matches (Star r) c2 c3 -> Matches (Star r) c1 c3.

(** The character before position [length a] of [a ++ b]. *)
Definition before (a : list ascii) : option ascii := last a.

(** The character before the scan position once [w] has been read,
    [p] being the character before [w]. *)
Definition prev_after (p : option ascii) (w : list ascii) : option ascii :=
  match last w with
  | Some x => Some x
  | None => p
  end.

(** [r] matches somewhere in [s]. *)
Definition Found (r : regex) (s : list ascii) : Prop :=
  exists a b c, s = a ++ b /\ Matches r (before a, b) c.

End Re.

(** ** QueryValidator (gatekeeper.py 61-135) *)

Module QueryValidator.
Import PyStr Re.

Definition dangerous_keywords : list string :=
  [ "DROP"; "DELETE"; "TRUNCATE"; "ALTER";
    "RENAME"; "MODIFY"; "SHUTDOWN"; "GRANT";
    "REVOKE"; "ROLE"; "BACKUP"; "RESTORE";
    "CREATE TABLE" ]%string.

Definition valid_commands : list string :=
  [ "SELECT"; "INSERT"; "UPDATE"; "CREATE";
    "SHOW"; "DESCRIBE"; "EXPLAIN"; "USE" ]%string.

Definition injection_patterns : list string :=
  [ "--"; ";"; "/*"; "*/"; "@@"; "@";
    "UNION"; "SLEEP"; "WAITFOR"; "DELAY";
    "IF("; "WHEN" ]%string.

Definition Space : regex := Cls is_space.          (* \s *)
Definition Word : regex := Cls is_word.            (* \w *)
(** The class of the two quote characters, ' (039) and the double
    quote (034). *)
Definition is_quote (c : ascii) : bool :=
  Ascii.eqb c "039" || Ascii.eqb c "034".
Definition Quote : regex := Cls is_quote.

Definition seq (rs : list regex) : regex := foldr Seq Eps rs.

(** r'\bOR\s+1\s*=\s*1\b' *)
Definition attack_tautology : regex :=
  seq [ WordB; Lit (chars "OR"); Plus Space; Chr "1"; Star Space;
        Chr "="; Star Space; Chr "1"; WordB ].

(** r'\bOR\s+[\'"].*[\'"]=[\'"].*[\'"]\b' *)
Definition attack_string_tautology : regex :=
  seq [ WordB; Lit (chars "OR"); Plus Space; Quote; Star AnyChar; Quote;
        Chr "="; Quote; Star AnyChar; Quote; WordB ].

(** r'(?i)(?:INFORMATION_SCHEMA|SYS)\.' *)
Definition attack_schema : regex :=
  Seq (Alt (LitI (chars "INFORMATION_SCHEMA")) (LitI (chars "SYS")))
      (ChrI ".").

(** r'\bEXEC\b|\bXP_\w+\b' *)
Definition attack_exec : regex :=
  Alt (seq [ WordB; Lit (chars "EXEC"); WordB ])
      (seq [ WordB; Lit (chars "XP_"); Plus Word; WordB ]).

Definition common_attacks : list regex :=
  [ attack_tautology; attack_string_tautology; attack_schema; attack_exec ].

(** rf'\b{keyword}\b': the keywords hold letters and a space only, so
    the interpolated text is a literal. *)
Definition keyword_re (keyword : string) : regex :=
  seq [ WordB; Lit (chars keyword); WordB ].

(** [query.upper().replace("\n", " ").strip()] *)
Definition query_upper (query : string) : list ascii :=
  strip (replace_nl (upper (chars query))).

Definition validate_query (query : string) : bool * option string :=
  let q := chars query in
  match q with
  | [] => (false, Some "Empty query"%string)
  | _ :: _ =>
  let qu := query_upper query in
  if 5000 <? Z.of_nat (length q)
  then (false, Some "Query exceeds maximum length"%string)
  else if contains (chars ";") (all_but_last q)
  then (false, Some "Multiple statements are not allowed"%string)
  else if contains (chars "--") q || contains (chars "/*") q
  then (false, Some "Comments are not allowed in queries"%string)
  else
  match List.find (fun keyword => search (keyword_re keyword) qu)
                  dangerous_keywords with
  | Some keyword =>
      (false, Some ("Query contains forbidden keyword: " +:+ keyword))
  | None =>
  if negb (existsb (fun cmd => startswith (chars cmd) qu) valid_commands)
  then (false, Some "Query must start with a valid SQL command"%string)
  else
  match List.find (fun pattern => contains (chars pattern) qu)
                  injection_patterns with
  | Some pattern =>
      (false, Some ("Query contains suspicious pattern: " +:+ pattern))
  | None =>
  if existsb (fun pattern => search pattern qu) common_attacks
  then (false, Some "Query contains suspicious pattern"%string)
  else (true, None)
  end
  end
  end.

(** Specification side: [kw] occurs in [s] as a whole word, that is with
    a word boundary on each side. *)
Definition whole_word (kw s : list ascii) : Prop :=
  exists a b, s = a ++ kw ++ b
    /\ boundary (before a) (kw ++ b) = true
    /\ boundary (before (a ++ kw)) b = true.

End QueryValidator.

(** ** The sliding-window rate limiter
    (gatekeeper.py 147-153, trusted_host.py 73-79)

    The two [_check_rate_limit] methods differ in the module constant
    [RATE_LIMIT] only.  [request_counts] is a [defaultdict(list)]: a
    client never seen reads as the empty list. *)

Module RateLimiter.

(** [request_counts[client_ip]] *)
Definition stored (client_ip : string) (request_counts : gmap string (list Z))
  : list Z :=
  request_counts !!! client_ip.

Definition check (RATE_LIMIT RATE_WINDOW : Z) (current_time : Z)
           (client_ip : string) (request_counts : gmap string (list Z))
  : bool * gmap string (list Z) :=
  let kept :=
    filter (λ t, current_time - t < RATE_WINDOW)
           (stored client_ip request_counts) in
  let updated := kept ++ [current_time] in
  (bool_decide (Z.of_nat (length updated) <= RATE_LIMIT),
   <[client_ip := updated]> request_counts).

(** One client calling [check] at the given times, oldest call first:
    the answers, and the map afterwards. *)
Fixpoint checks (RATE_LIMIT RATE_WINDOW : Z) (times : list Z)
         (client_ip : string) (request_counts : gmap string (list Z))
  : list bool * gmap string (list Z) :=
  match times with
  | [] => ([], request_counts)
  | now :: times' =>
      let '(ok, rc) :=
        check RATE_LIMIT RATE_WINDOW now client_ip request_counts in
      let '(oks, rc') := checks RATE_LIMIT RATE_WINDOW times' client_ip rc in
      (ok :: oks, rc')
  end.

End RateLimiter.

(** ** JSON values, Python exceptions, HTTP outcomes *)

Module Json.

#[warnings="-register-all"]
Inductive json : Type :=
| JNull
| JBool (b : bool)
| JNum (n : Z)
| JStr (s : string)
| JArr (l : list json)
| JObj (d : gmap string json).

(** Python truthiness of a decoded JSON value. *)
Definition truthy (v : json) : bool :=
  match v with
  | JNull => false
  | JBool b => b
  | JNum n => negb (n =? 0)
  | JStr s => negb (String.eqb s "")
  | JArr l => match l with [] => false | _ => true end
  | JObj d => negb (bool_decide (d = ∅))
  end.

Definition is_str (v : json) (s : string) : bool :=
  match v with JStr s' => String.eqb s' s | _ => false end.

(** The error envelope every handler returns. *)
Definition error (message : string) : json :=
  JObj (<["status" := JStr "error"]> (<["message" := JStr message]> ∅)).

End Json.

Module Py.
Import Json.

(** The exceptions the handlers tell apart. *)
Inductive exn : Type :=
| Timeout (msg : string)            (* requests.exceptions.Timeout *)
| ConnectionError (msg : string)    (* requests.exceptions.ConnectionError *)
| RequestException (msg : string)   (* any other RequestException *)
| TypeError
| AttributeError
| KeyError
| IndexError
| OtherException (msg : string).

Inductive py (A : Type) : Type :=
| Ret (a : A)
| Raise (e : exn).
Arguments Ret {A} a.
Arguments Raise {A} e.

Definition bind {A B} (m : py A) (f : A -> py B) : py B :=
  match m with
  | Ret a => f a
  | Raise e => Raise e
  end.

(** [not request_data or 'query' not in request_data]: [Ret true] when
    the request is refused as badly formed.  [in] on a number or on
    [True] raises; on a list it compares elements; on a string it looks
    for a substring. *)
Definition lacks_query (request_data : json) : py bool :=
  if negb (truthy request_data) then Ret true
  else match request_data with
       | JObj d => Ret (negb (bool_decide (is_Some (d !! "query"))))
       | JArr l => Ret (negb (existsb (fun v => is_str v "query") l))
       | JStr s =>
           Ret (negb (PyStr.contains (PyStr.chars "query") (PyStr.chars s)))
       | _ => Raise TypeError
       end.

(** [query[:100]] is evaluated for the log line: it needs a sequence. *)
Definition sliceable (v : json) : bool :=
  match v with
  | JStr _ | JArr _ => true
  | _ => false
  end.

End Py.

Module Http.
Import Json Py.

(** What one attempt of the loop comes to.  [requests.post] (or
    [requests.get]) and [raise_for_status()] raise, or they return and
    [record_success()] is called; only then is [response.json()]
    evaluated, which returns the decoded body or raises in its turn (a
    2xx answer whose body is not JSON). *)
Inductive outcome : Type :=
| Response (body : json)   (* 2xx, body decoded *)
| Undecodable (e : exn)    (* 2xx, [response.json()] raised [e] *)
| Fails (e : exn).         (* the request or [raise_for_status()] raised [e] *)

(** [except requests.exceptions.RequestException] catches these. *)
Definition is_request_exception (e : exn) : bool :=
  match e with
  | Timeout _ | ConnectionError _ | RequestException _ => true
  | _ => false
  end.

(** The retry loop of [process_request] and [forward_request]:
<<
    for attempt in range(n):
        try:
            response = requests.post(...); response.raise_for_status()
            self.circuit_breaker.record_success()
            return response.json()
        except requests.exceptions.RequestException as e:
            if attempt == n - 1:
                self.circuit_breaker.record_failure()
                raise
    return {"status": "error", "message": ...}
>>
    [attempts] is the part of [range(n)] still to run, [last] is [n - 1].
    [Ret (Some body)] is the [return] inside the loop, [Ret None] is
    leaving the loop at its end.  An exception of [response.json()] is
    raised inside the [try], after [record_success()]: it is handled by
    the same [except] clause as a failed request, on a breaker that was
    reset.  The third component counts the requests sent. *)
Fixpoint retry (outcomes : nat -> outcome) (last : nat) (attempts : list nat)
         (t_failure : Z) (cb : CircuitBreaker.t)
  : py (option json) * CircuitBreaker.t * nat :=
  match attempts with
  | [] => (Ret None, cb, O)
  | attempt :: rest =>
      match outcomes attempt with
      | Response body =>
          (Ret (Some body), CircuitBreaker.record_success cb, 1%nat)
      | Undecodable e =>
          let cb1 := CircuitBreaker.record_success cb in
          if negb (is_request_exception e) then (Raise e, cb1, 1%nat)
          else if (attempt =? last)%nat
          then (Raise e, CircuitBreaker.record_failure t_failure cb1, 1%nat)
          else let '(r, cb', n) :=
                 retry outcomes last rest t_failure cb1 in
               (r, cb', S n)
      | Fails e =>
          if negb (is_request_exception e) then (Raise e, cb, 1%nat)
          else if (attempt =? last)%nat
          then (Raise e, CircuitBreaker.record_failure t_failure cb, 1%nat)
          else let '(r, cb', n) :=
                 retry outcomes last rest t_failure cb in
               (r, cb', S n)
      end
  end.

End Http.

(** ** Gatekeeper (gatekeeper.py 137-240) *)

Module Gatekeeper.
Import Json Py Http.

Definition RATE_LIMIT : Z := 1000.
Definition RATE_WINDOW : Z := 60.

Definition STRATEGY_PORTS : gmap string Z :=
  <["direct" := 3306]> (<["random" := 3307]> (<["customized" := 3308]> ∅)).

(** The service object together with the module global
    [request_counts]. *)
Record t : Type := mk {
  circuit_breaker : CircuitBreaker.t;
  current_strategy : string;
  request_counts : gmap string (list Z)
}.

(** [GatekeeperService.__init__], with the empty [defaultdict]. *)
Definition init : t :=
  {| circuit_breaker := CircuitBreaker.init;
     current_strategy := "direct";
     request_counts := ∅ |}.

(** What one call of [process_request] takes from outside: the clock
    readings of [can_execute], [_check_rate_limit] and [record_failure]
    (each read only if the call is reached), Flask's
    [request.content_length], and what the Trusted Host answers to each
    attempt. *)
Record env : Type := mk_env {
  t_breaker : Z;
  t_rate : Z;
  t_failure : Z;
  content_length : option Z;
  attempts : nat -> outcome
}.

Definition _check_rate_limit (current_time : Z) (client_ip : string)
           (rc : gmap string (list Z)) : bool * gmap string (list Z) :=
  RateLimiter.check RATE_LIMIT RATE_WINDOW current_time client_ip rc.

(** [request.content_length and request.content_length > 1024 * 1024] *)
Definition too_large (cl : option Z) : bool :=
  match cl with
  | Some n => negb (n =? 0) && (1024 * 1024 <? n)
  | None => false
  end.

(** [request_data['query']] *)
Definition subscript_query (request_data : json) : py json :=
  match request_data with
  | JObj d => match d !! "query" with
              | Some v => Ret v
              | None => Raise KeyError
              end
  | _ => Raise TypeError
  end.

(** [self.validator.validate_query(query)] on whatever JSON value the
    field holds: a falsy value is an empty query; a truthy value that
    is not a string has no [upper]. *)
Definition validate (query : json) : py (bool * option string) :=
  match query with
  | JStr s => Ret (QueryValidator.validate_query s)
  | _ => if truthy query then Raise AttributeError
         else Ret (false, Some "Empty query"%string)
  end.

(** The clauses of the outer [try]. *)
Definition handle (r : py json) : json :=
  match r with
  | Ret v => v
  | Raise (Timeout _) => error "Request timed out"
  | Raise (ConnectionError _) => error "Connection to internal service failed"
  | Raise _ => error "Internal server error"
  end.

(** [process_request]; the result is the response, the service
    afterwards, and the payloads posted to the Trusted Host, in
    order. *)
Definition process_request (request_data : json) (client_ip : string)
           (e : env) (gk : t) : json * t * list json :=
  (* Circuit breaker check *)
  let '(can, cb) :=
    CircuitBreaker.can_execute (t_breaker e) (circuit_breaker gk) in
  let gk1 := {| circuit_breaker := cb;
                current_strategy := current_strategy gk;
                request_counts := request_counts gk |} in
  if negb can then (error "Service temporarily unavailable", gk1, [])
  else
  (* Rate limit check *)
  let '(within, rc) :=
    _check_rate_limit (t_rate e) client_ip (request_counts gk) in
  let gk2 := {| circuit_breaker := cb;
                current_strategy := current_strategy gk;
                request_counts := rc |} in
  if negb within then (error "Rate limit exceeded", gk2, [])
  else
  (* Request validation *)
  match lacks_query request_data with
  | Raise ex => (handle (Raise ex), gk2, [])
  | Ret true =>
      (error "Invalid request format. Must include 'query' field.", gk2, [])
  | Ret false =>
  (* Size check *)
  if too_large (content_length e) then (error "Request too large", gk2, [])
  else
  match subscript_query request_data with
  | Raise ex => (handle (Raise ex), gk2, [])
  | Ret query =>
  if negb (sliceable query) then (handle (Raise TypeError), gk2, [])
  else
  (* Query validation *)
  match validate query with
  | Raise ex => (handle (Raise ex), gk2, [])
  | Ret (false, error_message) =>
      (* [jsonify] renders a [None] message as null *)
      (JObj (<["status" := JStr "error"]>
               (<["message" := from_option JStr JNull error_message]> ∅)),
       gk2, [])
  | Ret (true, _) =>
  (* Add strategy information to request *)
  match STRATEGY_PORTS !! current_strategy gk, request_data with
  | Some port, JObj d =>
      let payload :=
        JObj (<["port" := JNum port]>
                (<["strategy" := JStr (current_strategy gk)]> d)) in
      (* Forward to Trusted Host *)
      let '(r, cb', n) := retry (attempts e) 2 (seq 0 3) (t_failure e) cb in
      (handle
         (bind r (fun body => Ret (default
            (error "Failed to forward request to Trusted Host after retries")
            body))),
       {| circuit_breaker := cb';
          current_strategy := current_strategy gk;
          request_counts := rc |},
       replicate n payload)
  | _, _ => (handle (Raise KeyError), gk2, [])
  end
  end
  end
  end.

(** An example run: a client posts [SELECT 1] while the Trusted Host
    refuses every connection. *)
Definition select_1 : json := JObj (<["query" := JStr "SELECT 1"]> ∅).

Definition outage (now : Z) : env :=
  {| t_breaker := now; t_rate := now; t_failure := now;
     content_length := None;
     attempts := fun _ => Fails (ConnectionError "refused") |}.

Definition request_at (now : Z) (gk : t) : t :=
  snd (fst (process_request select_1 "10.0.0.7" (outage now) gk)).

Definition after_outage : t :=
  request_at 5 (request_at 4 (request_at 3 (request_at 2 (request_at 1 init)))).

(** What the GET of [set_strategy] comes to.  [raise_for_status()] is
    passed before the strategy is cached and [response.json()] is called
    after, so an answer whose body does not decode is told apart from a
    request that failed. *)
Inductive reply : Type :=
| Answered (body : json)          (* 2xx, body decoded *)
| Garbled (msg : string)          (* 2xx, [response.json()] raised *)
| Failed (ex : exn).              (* the GET or [raise_for_status] raised *)

(** [str(e)] *)
Definition str (ex : exn) : string :=
  match ex with
  | Timeout m | ConnectionError m | RequestException m
  | OtherException m => m
  | TypeError => "TypeError"
  | AttributeError => "AttributeError"
  | KeyError => "KeyError"
  | IndexError => "IndexError"
  end.

(** [set_strategy] (lines 242-265): one GET, no retry, no breaker.  The
    third component counts the requests sent. *)
Definition set_strategy (strategy : string) (answer : reply) (gk : t)
  : json * t * nat :=
  match STRATEGY_PORTS !! strategy with
  | None =>
      (error "Invalid strategy. Must be one of: direct, random, customized",
       gk, O)
  | Some _ =>
      let cached := {| circuit_breaker := circuit_breaker gk;
                       current_strategy := strategy;
                       request_counts := request_counts gk |} in
      match answer with
      | Answered body => (body, cached, 1%nat)
      | Garbled msg => (error ("Failed to set strategy: " +:+ msg), cached, 1%nat)
      | Failed ex => (error ("Failed to set strategy: " +:+ str ex), gk, 1%nat)
      end
  end.

(** What every reachable state of the service satisfies: the cached
    strategy is a mapped name and the breaker is closed exactly while
    fewer than 5 failures are counted. *)
Definition Ok (gk : t) : Prop :=
  is_Some (STRATEGY_PORTS !! current_strategy gk)
  /\ CircuitBreaker.Tripped (circuit_breaker gk).

(** The calls the service receives, and a run of them. *)
Inductive call : Type :=
| Query (request_data : json) (client_ip : string) (e : env)
| SetStrategy (strategy : string) (answer : reply).

Definition serve (c : call) (gk : t) : t :=
  match c with
  | Query request_data client_ip e =>
      snd (fst (process_request request_data client_ip e gk))
  | SetStrategy strategy answer => snd (fst (set_strategy strategy answer gk))
  end.

Definition serve_all (calls : list call) (gk : t) : t :=
  fold_left (fun s c => serve c s) calls gk.

End Gatekeeper.

(** ** Trusted Host (trusted_host.py 59-268) *)

Module TrustedHost.
Import Json Py Http.

Definition RATE_LIMIT : Z := 2000.
Definition RATE_WINDOW : Z := 60.

Definition STRATEGY_PORTS : gmap string Z :=
  <["direct" := 3306]> (<["random" := 3307]> (<["customized" := 3308]> ∅)).

(** [main] builds the service with the default [retry_attempts=3];
    [health_check_interval] is set to 60 in [__init__]. *)
Definition retry_attempts : nat := 3.
Definition health_check_interval : Z := 60.

Record t : Type := mk {
  circuit_breaker : CircuitBreaker.t;
  last_proxy_health_check : Z;
  current_strategy : string;
  request_counts : gmap string (list Z)
}.

Definition init : t :=
  {| circuit_breaker := CircuitBreaker.init;
     last_proxy_health_check := 0;
     current_strategy := "direct";
     request_counts := ∅ |}.

(** What one request takes from outside: clock readings (rate limiter,
    [can_execute], health check, [record_failure]), the status code of
    the Proxy's /health answer ([None]: the probe raised), and the
    Proxy's answer to each forwarding attempt. *)
Record env : Type := mk_env {
  t_rate : Z;
  t_breaker : Z;
  t_health : Z;
  t_failure : Z;
  health_status : option Z;
  attempts : nat -> outcome
}.

Definition _check_rate_limit (current_time : Z) (client_ip : string)
           (rc : gmap string (list Z)) : bool * gmap string (list Z) :=
  RateLimiter.check RATE_LIMIT RATE_WINDOW current_time client_ip rc.

Definition _check_proxy_health (current_time : Z) (status : option Z)
           (last_check : Z) : bool * Z :=
  if bool_decide (current_time - last_check < health_check_interval)
  then (true, last_check)
  else match status with
       | Some code => (code =? 200, current_time)
       | None => (false, last_check)
       end.

(** [request_data.get('strategy', self.current_strategy)]: only a dict
    has [get]. *)
Definition get_strategy (request_data : json) (current : string) : py json :=
  match request_data with
  | JObj d => Ret (default (JStr current) (d !! "strategy"))
  | _ => Raise AttributeError
  end.

(** [STRATEGY_PORTS.get(strategy, STRATEGY_PORTS['direct'])]: a list or
    a dict cannot be hashed; any other value that is not a key gives the
    default. *)
Definition port_of (strategy : json) : py Z :=
  match strategy with
  | JStr s => Ret (default 3306 (STRATEGY_PORTS !! s))
  | JArr _ | JObj _ => Raise TypeError
  | _ => Ret 3306
  end.

Definition handle (r : py json) : json :=
  match r with
  | Ret v => v
  | Raise (Timeout _) => error "Request timed out"
  | Raise (ConnectionError _) => error "Connection to Proxy failed"
  | Raise _ => error "Internal server error"
  end.

(** [forward_request]: the response, the service afterwards, and the
    payloads posted to the Proxy, in order. *)
Definition forward_request (request_data : json) (e : env) (th : t)
  : json * t * list json :=
  (* Check circuit breaker *)
  let '(can, cb) :=
    CircuitBreaker.can_execute (t_breaker e) (circuit_breaker th) in
  let th1 := {| circuit_breaker := cb;
                last_proxy_health_check := last_proxy_health_check th;
                current_strategy := current_strategy th;
                request_counts := request_counts th |} in
  if negb can then (error "Service temporarily unavailable", th1, [])
  else
  (* Validate request format *)
  match lacks_query request_data with
  | Raise ex => (handle (Raise ex), th1, [])
  | Ret true =>
      (error "Invalid request format. Must include 'query' field.", th1, [])
  | Ret false =>
  (* Extract strategy and port information *)
  match bind (get_strategy request_data (current_strategy th)) port_of,
        request_data with
  | Ret port, JObj d =>
      (* Enhance request data with port information *)
      let payload := JObj (<["port" := JNum port]> d) in
      if negb (sliceable (default JNull (d !! "query")))
      then (handle (Raise TypeError), th1, [])
      else
      (* Check proxy health *)
      let '(healthy, last) :=
        _check_proxy_health (t_health e) (health_status e)
                            (last_proxy_health_check th) in
      let th2 := {| circuit_breaker := cb;
                    last_proxy_health_check := last;
                    current_strategy := current_strategy th;
                    request_counts := request_counts th |} in
      if negb healthy then (error "Proxy service unavailable", th2, [])
      else
      (* Forward request with retry logic *)
      let '(r, cb', n) :=
        retry (attempts e) (retry_attempts - 1) (seq 0 retry_attempts)
              (t_failure e) cb in
      (handle
         (bind r (fun body => Ret (default
            (error "Failed to forward request after retries") body))),
       {| circuit_breaker := cb';
          last_proxy_health_check := last;
          current_strategy := current_strategy th;
          request_counts := request_counts th |},
       replicate n payload)
  | Raise ex, _ => (handle (Raise ex), th1, [])
  | Ret _, _ => (handle (Raise AttributeError), th1, [])
  end
  end.

(** The /query route: rate limit first, then [forward_request]. *)
Definition handle_query (request_json : json) (client_ip : string)
           (e : env) (th : t) : json * t * list json :=
  let '(within, rc) :=
    _check_rate_limit (t_rate e) client_ip (request_counts th) in
  let th1 := {| circuit_breaker := circuit_breaker th;
                last_proxy_health_check := last_proxy_health_check th;
                current_strategy := current_strategy th;
                request_counts := rc |} in
  if negb within then (error "Rate limit exceeded", th1, [])
  else forward_request request_json e th1.

Definition exn_str (ex : exn) : string :=
  match ex with
  | Timeout m | ConnectionError m | RequestException m
  | OtherException m => m
  | TypeError => "TypeError"
  | AttributeError => "AttributeError"
  | KeyError => "KeyError"
  | IndexError => "IndexError"
  end.

(** The loop of [set_strategy] (lines 189-203): as the loop of
    [forward_request], with [self.current_strategy = strategy] between
    [record_success()] and [response.json()]; so a 2xx answer assigns
    the strategy whether or not its body decodes. *)
Definition assigned (strategy : string) (th : t) : t :=
  {| circuit_breaker := CircuitBreaker.record_success (circuit_breaker th);
     last_proxy_health_check := last_proxy_health_check th;
     current_strategy := strategy;
     request_counts := request_counts th |}.

Definition failed (t_failure : Z) (th : t) : t :=
  {| circuit_breaker :=
       CircuitBreaker.record_failure t_failure (circuit_breaker th);
     last_proxy_health_check := last_proxy_health_check th;
     current_strategy := current_strategy th;
     request_counts := request_counts th |}.

Fixpoint set_strategy_loop (strategy : string) (outcomes : nat -> outcome)
         (last : nat) (attempts : list nat) (t_failure : Z) (th : t)
  : py (option json) * t :=
  match attempts with
  | [] => (Ret None, th)
  | attempt :: rest =>
      match outcomes attempt with
      | Response body => (Ret (Some body), assigned strategy th)
      | Undecodable e =>
          let th1 := assigned strategy th in
          if negb (is_request_exception e) then (Raise e, th1)
          else if (attempt =? last)%nat then (Raise e, failed t_failure th1)
          else set_strategy_loop strategy outcomes last rest t_failure th1
      | Fails e =>
          if negb (is_request_exception e) then (Raise e, th)
          else if (attempt =? last)%nat then (Raise e, failed t_failure th)
          else set_strategy_loop strategy outcomes last rest t_failure th
      end
  end.

(** [set_strategy]; [attempts e] are now the Proxy's answers to
    GET /set_strategy/<strategy>. *)
Definition set_strategy (strategy : string) (e : env) (th : t) : json * t :=
  match STRATEGY_PORTS !! strategy with
  | None =>
      (error "Invalid strategy. Must be one of: direct, random, customized",
       th)
  | Some _ =>
      let '(can, cb) :=
        CircuitBreaker.can_execute (t_breaker e) (circuit_breaker th) in
      let th1 := {| circuit_breaker := cb;
                    last_proxy_health_check := last_proxy_health_check th;
                    current_strategy := current_strategy th;
                    request_counts := request_counts th |} in
      if negb can then (error "Service temporarily unavailable", th1)
      else
      let '(r, th2) :=
        set_strategy_loop strategy (attempts e) (retry_attempts - 1)
                          (seq 0 retry_attempts) (t_failure e) th1 in
      match r with
      | Ret (Some body) => (body, th2)
      | Ret None => (error "Failed to set strategy after retries", th2)
      | Raise ex => (error ("Failed to set strategy: " +:+ exn_str ex), th2)
      end
  end.

(** An example run: the Proxy is healthy and answers every request
    with [{"status": "success"}]. *)
Definition proxy_up (now : Z) : env :=
  {| t_rate := now; t_breaker := now; t_health := now; t_failure := now;
     health_status := Some 200;
     attempts := fun _ => Response (JObj (<["status" := JStr "success"]> ∅)) |}.

Definition after_set_random : t := snd (set_strategy "random" (proxy_up 100) init).

Definition select_1 : json := JObj (<["query" := JStr "SELECT 1"]> ∅).

(** What every reachable state of the service satisfies. *)
Definition Ok (th : t) : Prop :=
  is_Some (STRATEGY_PORTS !! current_strategy th)
  /\ CircuitBreaker.Tripped (circuit_breaker th).

(** The calls the service receives, and a run of them. *)
Inductive call : Type :=
| Query (request_json : json) (client_ip : string) (e : env)
| SetStrategy (strategy : string) (e : env).

Definition serve (c : call) (th : t) : t :=
  match c with
  | Query request_json client_ip e =>
      snd (fst (handle_query request_json client_ip e th))
  | SetStrategy strategy e => snd (set_strategy strategy e th)
  end.

Definition serve_all (calls : list call) (th : t) : t :=
  fold_left (fun s c => serve c s) calls th.

End TrustedHost.

(** ** Proxy (proxy.py 13-204) *)

Module Proxy.
Import Py.

(** A row is a column-keyed mapping; the values are kept as text. *)
Definition row : Type := list (string * string).

(** The dict [_execute_query] returns:
    [{"status": "success", "result": results}] or
    [{"status": "error", "message": message}]. *)
Inductive result : Type :=
| Success (results : option (list row))
| Error (message : string).

Definition is_success (r : result) : bool :=
  match r with Success _ => true | Error _ => false end.

Record t : Type := mk {
  manager_host : string;
  worker_hosts : list string;
  current_strategy : string
}.

Definition strategy_ports : gmap string Z :=
  <["direct" := 3306]> (<["random" := 3307]> (<["customized" := 3308]> ∅)).

(** [_get_connection]:
    [port = self.strategy_ports.get(strategy, 3306) if strategy else 3306] *)
Definition port_for (strategy : option string) : Z :=
  match strategy with
  | Some s => if String.eqb s "" then 3306
              else default 3306 (strategy_ports !! s)
  | None => 3306
  end.

(** One call of [mysql.connector.connect]: where to, and the statement
    the connection is opened for ([None] for a latency probe). *)
Record conn : Type := mk_conn {
  host : string;
  port : Z;
  statement : option string
}.

(** What happens on a connection opened for a statement. *)
Inductive ran : Type :=
| Rows (results : option (list row))  (* executed and committed *)
| MySQLError (msg : string)           (* mysql.connector.Error *)
| Failure (msg : string).             (* any other Exception in the try *)

(** [Refused]: [_get_connection] returned [None].  [closes] tells
    whether the [finally] block's [close] calls return; when they raise,
    the exception leaves [_execute_query]. *)
Inductive answer : Type :=
| Refused
| Ran (r : ran) (closes : bool).

(** What happens on a probe connection of [_get_fastest_worker]:
    [_get_connection] returned [None], or the connection was opened
    after [d] time units and is closed at once; that [conn.close()]
    (line 157) is outside any [try], and [closes] tells whether it
    returns. *)
Inductive probe_answer : Type :=
| Unreachable
| Reached (d : Z) (closes : bool).

(** The data tier and the random generator.  An answer may depend on
    every connection made before.  [pick] is the draw behind
    [random.choice]. *)
Record world : Type := mk_world {
  exec : list conn -> conn -> answer;
  probe : list conn -> conn -> probe_answer;
  pick : nat
}.

(** The connection opened for [query] on [host] when no strategy is
    passed, and the connection of a latency probe. *)
Definition statement_conn (query : string) (host : string) : conn :=
  {| host := host; port := port_for None; statement := Some query |}.

Definition probe_conn (host : string) : conn :=
  {| host := host; port := port_for (Some "customized"%string);
     statement := None |}.

Definition _execute_query (w : world) (host : string) (query : string)
           (strategy : option string) (tr : list conn)
  : py result * list conn :=
  let c := {| host := host; port := port_for strategy;
              statement := Some query |} in
  let tr' := tr ++ [c] in
  match exec w tr c with
  | Refused => (Ret (Error ("Failed to connect to MySQL on " +:+ host)), tr')
  | Ran r closes =>
      if closes then
        (Ret match r with
             | Rows results => Success results
             | MySQLError msg => Error ("MySQL Error: " +:+ msg)
             | Failure msg => Error msg
             end, tr')
      else (Raise (OtherException "close"), tr')
  end.

(** The loop of [_replicate_to_workers]: the result of each worker is
    logged and dropped, and so is an exception. *)
Fixpoint _replicate_to_workers (w : world) (query : string)
         (workers : list string) (tr : list conn) : list conn :=
  match workers with
  | [] => tr
  | worker :: rest =>
      let '(_, tr') := _execute_query w worker query None tr in
      _replicate_to_workers w query rest tr'
  end.

(** [time.time() - start_time], or [float('inf')]. *)
Inductive latency : Type :=
| Finite (d : Z)
| Inf.

Definition lat_ltb (a b : latency) : bool :=
  match a, b with
  | Finite x, Finite y => x <? y
  | Finite _, Inf => true
  | Inf, _ => false
  end.

Definition is_inf (a : latency) : bool :=
  match a with Inf => true | Finite _ => false end.

(** [response_times[worker] = v] on an insertion-ordered dict: a key
    already present keeps its place. *)
Fixpoint dict_set (k : string) (v : latency) (d : list (string * latency))
  : list (string * latency) :=
  match d with
  | [] => [(k, v)]
  | (k', v') :: d' =>
      if String.eqb k k' then (k, v) :: d' else (k', v') :: dict_set k v d'
  end.

Fixpoint dict_get (k : string) (d : list (string * latency))
  : option latency :=
  match d with
  | [] => None
  | (k', v') :: d' => if String.eqb k k' then Some v' else dict_get k d'
  end.

(** What the probe of [host] records in [response_times] when [tr]
    lists the connections made before it. *)
Definition probed (w : world) (tr : list conn) (host : string) : latency :=
  match probe w tr (probe_conn host) with
  | Reached d _ => Finite d
  | Unreachable => Inf
  end.

(** The probing loop of [_get_fastest_worker]: it is left by the
    exception of a [conn.close()] that raises. *)
Fixpoint probe_workers (w : world) (workers : list string)
         (response_times : list (string * latency)) (tr : list conn)
  : py (list (string * latency)) * list conn :=
  match workers with
  | [] => (Ret response_times, tr)
  | worker :: rest =>
      let tr' := tr ++ [probe_conn worker] in
      match probe w tr (probe_conn worker) with
      | Unreachable =>
          probe_workers w rest (dict_set worker Inf response_times) tr'
      | Reached d closes =>
          if closes
          then probe_workers w rest
                             (dict_set worker (Finite d) response_times) tr'
          else (Raise (OtherException "close"), tr')
      end
  end.

(** [min(response_times, key=response_times.get)]: the first key, in
    dict order, whose value is least. *)
Fixpoint min_from (best : string * latency) (d : list (string * latency))
  : string :=
  match d with
  | [] => fst best
  | (k, v) :: d' =>
      if lat_ltb v (snd best) then min_from (k, v) d' else min_from best d'
  end.

(** [self.worker_hosts[0]] *)
Definition first_worker (pm : t) : py string :=
  match worker_hosts pm with
  | h :: _ => Ret h
  | [] => Raise IndexError
  end.

Definition _get_fastest_worker (w : world) (pm : t) (tr : list conn)
  : py string * list conn :=
  match probe_workers w (worker_hosts pm) [] tr with
  | (Raise ex, tr') => (Raise ex, tr')
  | (Ret response_times, tr') =>
      match response_times with
      | [] => (first_worker pm, tr')
      | kv :: d =>
          if forallb (fun kv => is_inf (snd kv)) response_times
          then (first_worker pm, tr')
          else (Ret (min_from kv d), tr')
      end
  end.

(** [random.choice(self.worker_hosts)] *)
Definition random_choice (w : world) (l : list string) : py string :=
  match l !! (pick w mod length l)%nat with
  | Some h => Ret h
  | None => Raise IndexError
  end.

Definition _select_read_host (w : world) (pm : t) (tr : list conn)
  : py string * list conn :=
  if String.eqb (current_strategy pm) "direct" then (first_worker pm, tr)
  else if String.eqb (current_strategy pm) "random"
  then (random_choice w (worker_hosts pm), tr)
  else if String.eqb (current_strategy pm) "customized"
  then _get_fastest_worker w pm tr
  else (first_worker pm, tr).

Definition internal_error : result := Error "Internal error in Proxy".

(** [route_request]: the result, and the connections made, in order,
    appended to those made before. *)
Definition route_request (w : world) (pm : t) (query : string)
           (is_write : bool) (tr : list conn) : result * list conn :=
  if is_write then
    match _execute_query w (manager_host pm) query None tr with
    | (Raise _, tr1) => (internal_error, tr1)
    | (Ret result, tr1) =>
        if is_success result
        then (result, _replicate_to_workers w query (worker_hosts pm) tr1)
        else (result, tr1)
    end
  else
    match _select_read_host w pm tr with
    | (Raise _, tr1) => (internal_error, tr1)
    | (Ret target_host, tr1) =>
        match _execute_query w target_host query
                             (Some (current_strategy pm)) tr1 with
        | (Raise _, tr2) => (internal_error, tr2)
        | (Ret result, tr2) =>
            if negb (is_success result)
               && negb (String.eqb target_host (manager_host pm))
            then
              match _execute_query w (manager_host pm) query None tr2 with
              | (Raise _, tr3) => (internal_error, tr3)
              | (Ret fallback, tr3) => (fallback, tr3)
              end
            else (result, tr2)
        end
    end.

(** An example deployment: a manager, two workers, strategy [random];
    a data tier that accepts every connection and runs every
    statement, and one in which the workers refuse connections. *)
Definition example_proxy : t :=
  {| manager_host := "manager"; worker_hosts := ["worker1"; "worker2"];
     current_strategy := "random" |}.

Definition healthy_world : world :=
  {| exec := fun _ _ => Ran (Rows None) true;
     probe := fun _ _ => Reached 1 true;
     pick := 0 |}.

Definition workers_down_world : world :=
  {| exec := fun _ c => if String.eqb (host c) "manager"
                        then Ran (Rows None) true else Refused;
     probe := fun _ _ => Unreachable;
     pick := 0 |}.

(** A deployment under strategy [customized] with three workers: the
    first refuses the probe, the second answers in 20 time units, the
    third in 10. *)
Definition customized_proxy : t :=
  {| manager_host := "manager";
     worker_hosts := ["worker1"; "worker2"; "worker3"];
     current_strategy := "customized" |}.

Definition probe_world : world :=
  {| exec := fun _ _ => Ran (Rows None) true;
     probe := fun _ c => if String.eqb (host c) "worker1" then Unreachable
                         else if String.eqb (host c) "worker2"
                              then Reached 20 true
                              else Reached 10 true;
     pick := 0 |}.

(** The same data tier, except that the manager's connection raises
    when it is closed (after the statement was committed), and one in
    which closing the probe connection of the second worker raises. *)
Definition manager_close_raises_world : world :=
  {| exec := fun _ c => if String.eqb (host c) "manager"
                        then Ran (Rows None) false
                        else Ran (Rows None) true;
     probe := fun _ _ => Reached 1 true;
     pick := 0 |}.

Definition probe_close_raises_world : world :=
  {| exec := fun _ _ => Ran (Rows None) true;
     probe := fun _ c => if String.eqb (host c) "worker2"
                         then Reached 20 false
                         else Reached 10 true;
     pick := 0 |}.

(** [str.split(',')] on the characters of a string: the pieces between
    the commas, at least one. *)
Fixpoint split_comma (s : list ascii) : list (list ascii) :=
  match s with
  | [] => [[]]
  | c :: s' =>
      if Ascii.eqb c ","%char then [] :: split_comma s'
      else match split_comma s' with
           | piece :: pieces => (c :: piece) :: pieces
           | [] => [[c]]
           end
  end.

(** [','.join(pieces)], used to state what [split] returns. *)
Fixpoint join_comma (pieces : list (list ascii)) : list ascii :=
  match pieces with
  | [] => []
  | [piece] => piece
  | piece :: pieces' => piece ++ ","%char :: join_comma pieces'
  end.

(** [ProxyManager.__init__] as [main] calls it (lines 14-27, 213-218):
    [worker_hosts] is the string [sys.argv[2]], split at its commas. *)
Definition __init__ (manager_host worker_hosts : string) : t :=
  {| manager_host := manager_host;
     worker_hosts := map String.string_of_list_ascii
                         (split_comma (PyStr.chars worker_hosts));
     current_strategy := "direct" |}.

(** [query_handler], line 198:
    [any(word in query.upper() for word in [...])] *)
Definition is_write (query : string) : bool :=
  existsb (fun word : string =>
             PyStr.contains (PyStr.chars word)
                            (PyStr.upper (PyStr.chars query)))
          [ "INSERT"; "UPDATE"; "DELETE"; "CREATE"; "DROP"; "ALTER" ]%string.

(** The /set_strategy route (lines 172-185). *)
Definition set_strategy (strategy : string) (pm : t) : Json.json * t :=
  if bool_decide (strategy ∈ ["direct"; "random"; "customized"]%string)
  then (Json.JObj (<["status" := Json.JStr "success"]>
                     (<["strategy" := Json.JStr strategy]>
                        (<["port" := Json.JNum
                                       (default 3306 (strategy_ports !! strategy))]>
                           ∅))),
        {| manager_host := manager_host pm;
           worker_hosts := worker_hosts pm;
           current_strategy := strategy |})
  else (Json.error "Invalid strategy", pm).

(** What [query_handler] answers: the routed result, the "No query
    provided" envelope, or the envelope made from an exception
    ([{"status": "error", "message": str(e)}]). *)
Inductive handled : Type :=
| Routed (r : result)
| NoQuery
| Unhandled (ex : exn).

(** [query_handler] (lines 187-204).  [data['query']] needs a dict and
    [query.upper()] a string. *)
Definition query_handler (w : world) (pm : t) (data : Json.json)
           (tr : list conn) : handled * list conn :=
  match lacks_query data with
  | Raise ex => (Unhandled ex, tr)
  | Ret true => (NoQuery, tr)
  | Ret false =>
      match data with
      | Json.JObj d =>
          match d !! "query" with
          | Some (Json.JStr query) =>
              let '(r, tr') := route_request w pm query (is_write query) tr in
              (Routed r, tr')
          | Some _ => (Unhandled AttributeError, tr)
          | None => (Unhandled KeyError, tr)
          end
      | _ => (Unhandled TypeError, tr)
      end
  end.

End Proxy.

(* ===================================================================== *)
(** * Part II: the properties *)
(* ===================================================================== *)

Module CircuitBreakerFacts.
Import CircuitBreaker.

(** Only [record_success] takes a breaker that is not closed to
    [closed]. *)
Lemma step_closes (o : op) (cb : t) :
  state cb <> closed -> state (step o cb) = closed -> o = RecordSuccess.
Proof.
  destruct o as [now| |now]; cbn; intros Hne Hc; [exfalso|reflexivity|exfalso].
  - destruct (threshold <=? failures cb + 1); [discriminate | contradiction].
  - unfold can_execute in Hc.
    destruct (state cb) eqn:E; try contradiction.
    + destruct (timeout <? now - last_failure_time cb); cbn in Hc;
        [discriminate | congruence].
    + cbn in Hc. congruence.
Qed.

Lemma states_lookup_0 (ops : list op) (cb : t) : states ops cb !! 0%nat = Some cb.
Proof. destruct ops; reflexivity. Qed.

Lemma states_lookup_S (o : op) (ops : list op) (cb : t) (n : nat) :
  states (o :: ops) cb !! S n = states ops (step o cb) !! n.
Proof. reflexivity. Qed.

(** From a breaker that is not closed, the first closed state is
    produced by a [record_success]. *)
Lemma first_closing (ops : list op) :
  forall (cb : t) (j : nat) (sj : t),
    state cb <> closed ->
    states ops cb !! j = Some sj -> state sj = closed ->
    exists k sk, (k < j)%nat
      /\ ops !! k = Some RecordSuccess
      /\ states ops cb !! k = Some sk
      /\ state sk <> closed.
Proof.
  induction ops as [|o ops IH]; intros cb j sj Hne Hj Hc.
  - destruct j as [|j]; cbn in Hj; [|discriminate].
    injection Hj as <-. contradiction.
  - destruct j as [|j].
    + rewrite states_lookup_0 in Hj. injection Hj as <-. contradiction.
    + rewrite states_lookup_S in Hj.
      destruct (decide (state (step o cb) = closed)) as [Hs|Hs].
      * exists 0%nat, cb. split_and!; [lia | | apply states_lookup_0 | exact Hne].
        cbn. f_equal. apply (step_closes o cb Hne Hs).
      * destruct (IH _ _ _ Hs Hj Hc) as (k & sk & Hk & Hop & Hsk & Hnc).
        exists (S k), sk. split_and!; [lia | exact Hop | | exact Hnc].
        rewrite states_lookup_S. exact Hsk.
Qed.

(** C3, as the code has it.  In every run from the initial state, when
    the breaker is open at step [i] and closed at a later step [j], some
    step [k] in between is a [record_success] applied to a breaker that
    is open or half-open ([record_success] closes from any state); and
    if no [record_success] in between is applied to an open breaker,
    step [k] is a [record_success] on a half-open breaker. *)
Theorem open_closes_only_by_success (ops : list op) (i j : nat) (si sj : t) :
  (i < j)%nat ->
  states ops init !! i = Some si -> state si = open ->
  states ops init !! j = Some sj -> state sj = closed ->
  exists k sk, (i <= k < j)%nat
    /\ ops !! k = Some RecordSuccess
    /\ states ops init !! k = Some sk
    /\ (state sk = open \/ state sk = half_open)
    /\ ((forall m sm, (i <= m < j)%nat -> ops !! m = Some RecordSuccess ->
           states ops init !! m = Some sm -> state sm <> open) ->
        state sk = half_open).
Proof.
  generalize init as cb. revert i j.
  induction ops as [|o ops IH]; intros i j cb Hij Hi Ho Hj Hc.
  - destruct j as [|[|j]]; cbn in Hj; try discriminate. lia.
  - destruct i as [|i].
    + rewrite states_lookup_0 in Hi. injection Hi as <-.
      assert (Hne : state cb <> closed) by (rewrite Ho; discriminate).
      destruct (first_closing _ _ _ _ Hne Hj Hc) as (k & sk & Hk & Hop & Hsk & Hnc).
      assert (Hcase : state sk = open \/ state sk = half_open)
        by (destruct (state sk); [contradiction | auto | auto]).
      exists k, sk. split_and!; [lia | lia | exact Hop | exact Hsk | exact Hcase |].
      intros Hguard. destruct Hcase as [Hopen|Hhalf]; [|exact Hhalf].
      exfalso. apply (Hguard k sk); [lia | exact Hop | exact Hsk | exact Hopen].
    + destruct j as [|j]; [lia|].
      rewrite states_lookup_S in Hi, Hj.
      destruct (IH i j (step o cb) ltac:(lia) Hi Ho Hj Hc)
        as (k & sk & Hk & Hop & Hsk & Hcase & Hhalf).
      exists (S k), sk. split_and!; [lia | lia | exact Hop | | exact Hcase |].
      * rewrite states_lookup_S. exact Hsk.
      * intros Hguard. apply Hhalf. intros m sm Hm Hopm Hsm.
        apply (Hguard (S m) sm); [lia | exact Hopm |].
        rewrite states_lookup_S. exact Hsm.
Qed.

Lemma open_closes_only_by_success_witness :
  exists k sk, (5 <= k < 6)%nat
    /\ five_failures_then_success !! k = Some RecordSuccess
    /\ states five_failures_then_success init !! k = Some sk
    /\ (state sk = open \/ state sk = half_open)
    /\ ((forall m sm, (5 <= m < 6)%nat ->
           five_failures_then_success !! m = Some RecordSuccess ->
           states five_failures_then_success init !! m = Some sm ->
           state sm <> open) ->
        state sk = half_open).
Proof.
  apply (open_closes_only_by_success five_failures_then_success 5 6
           {| failures := 5; last_failure_time := 5; state := open |}
           {| failures := 0; last_failure_time := 5; state := closed |});
    [lia | reflexivity | reflexivity | reflexivity | reflexivity].
Defined.

(** C3 as the spec words it fails: after five failures the breaker is
    open, and one [record_success] closes it with no half-open step in
    between. *)
Lemma open_to_closed_without_half_open :
  exists (ops : list op) (i j : nat) (si sj : t),
    (i < j)%nat
    /\ states ops init !! i = Some si /\ state si = open
    /\ states ops init !! j = Some sj /\ state sj = closed
    /\ ~ (exists k sk, (i <= k < j)%nat
            /\ states ops init !! k = Some sk
            /\ state sk = half_open
            /\ ops !! k = Some RecordSuccess).
Proof.
  exists five_failures_then_success, 5%nat, 6%nat,
    {| failures := 5; last_failure_time := 5; state := open |},
    {| failures := 0; last_failure_time := 5; state := closed |}.
  split_and!; try reflexivity; try lia.
  intros (k & sk & Hk & Hsk & Hhalf & _).
  assert (k = 5%nat) as -> by lia.
  vm_compute in Hsk. injection Hsk as <-. discriminate Hhalf.
Qed.

(** C6.  From a closed breaker with no failures, five consecutive
    [record_failure] calls open it: while no more than [timeout] seconds
    have passed since the last failure [can_execute] answers false and
    changes nothing; once more than [timeout] seconds have passed the
    next [can_execute] answers true and leaves the breaker half-open;
    [record_success] then closes it and resets the failure count. *)
Theorem trips_after_threshold_and_recovers
        (last0 t1 t2 t3 t4 t5 now now' : Z) :
  now - t5 <= 60 -> 60 < now' - t5 ->
  let cb0 := {| failures := 0; last_failure_time := last0; state := closed |} in
  let cb5 := run [ RecordFailure t1; RecordFailure t2; RecordFailure t3;
                   RecordFailure t4; RecordFailure t5 ] cb0 in
  can_execute now cb5 = (false, cb5)
  /\ exists cb6,
       can_execute now' cb5 = (true, cb6)
       /\ state cb6 = half_open
       /\ state (record_success cb6) = closed
       /\ failures (record_success cb6) = 0.
Proof.
  intros Hin Hout cb0 cb5. subst cb0 cb5. cbn.
  unfold can_execute, timeout. cbn.
  assert (E1 : (60 <? now - t5) = false) by lia.
  assert (E2 : (60 <? now' - t5) = true) by lia.
  rewrite E1, E2. split; [reflexivity|].
  eexists. split_and!; reflexivity.
Qed.

Lemma trips_after_threshold_and_recovers_witness :
  let cb5 := {| failures := 5; last_failure_time := 14; state := open |} in
  can_execute 74 cb5 = (false, cb5)
  /\ exists cb6,
       can_execute 75 cb5 = (true, cb6)
       /\ state cb6 = half_open
       /\ state (record_success cb6) = closed
       /\ failures (record_success cb6) = 0.
Proof.
  apply (trips_after_threshold_and_recovers 0 10 11 12 13 14 74 75); lia.
Defined.

(** The first four failures leave the breaker closed: the threshold is
    five, not fewer. *)
Lemma four_failures_stay_closed (last0 t1 t2 t3 t4 now : Z) :
  let cb0 := {| failures := 0; last_failure_time := last0; state := closed |} in
  can_execute now (run [ RecordFailure t1; RecordFailure t2;
                         RecordFailure t3; RecordFailure t4 ] cb0)
  = (true, {| failures := 4; last_failure_time := t4; state := closed |}).
Proof. reflexivity. Qed.

Lemma Inv_record_failure (now : Z) (cb : t) : Inv cb -> Inv (record_failure now cb).
Proof. intros [Hge _]. split; cbn; lia. Qed.

Lemma Inv_record_success (cb : t) : Inv (record_success cb).
Proof. split; cbn; [lia | reflexivity]. Qed.

Lemma Inv_can_execute (now : Z) (cb : t) : Inv cb -> Inv (snd (can_execute now cb)).
Proof.
  intros H. unfold can_execute.
  destruct (state cb) eqn:E; cbn; [exact H | | exact H].
  destruct (timeout <? now - last_failure_time cb); cbn; [|exact H].
  destruct H as [Hge Hz].
  split; cbn; [exact Hge|]. intros H0. specialize (Hz H0). congruence.
Qed.

Lemma Inv_step (o : op) (cb : t) : Inv cb -> Inv (step o cb).
Proof.
  destruct o; cbn; intros H;
    [apply Inv_record_failure | apply Inv_record_success | apply Inv_can_execute];
    exact H.
Qed.

Lemma Inv_run (ops : list op) (cb : t) : Inv cb -> Inv (run ops cb).
Proof.
  revert cb. induction ops as [|o ops IH]; intros cb H; cbn; [exact H|].
  apply IH, Inv_step, H.
Qed.

(** C10.  "A failure count of 0 implies closed" (with the count never
    negative) holds of the initial breaker, is preserved by
    [record_failure], [record_success] and [can_execute], hence holds
    after every sequence of calls; and it says the same as "open or
    half-open implies at least one failure". *)
Theorem zero_failures_implies_closed :
  Inv init
  /\ (forall now cb, Inv cb -> Inv (record_failure now cb))
  /\ (forall cb, Inv cb -> Inv (record_success cb))
  /\ (forall now cb, Inv cb -> Inv (snd (can_execute now cb)))
  /\ (forall ops, Inv (run ops init))
  /\ (forall cb, 0 <= failures cb ->
        ((failures cb = 0 -> state cb = closed)
         <-> (state cb = open \/ state cb = half_open -> 1 <= failures cb))).
Proof.
  assert (H0 : Inv init) by (split; cbn; [lia | reflexivity]).
  split_and!.
  - exact H0.
  - apply Inv_record_failure.
  - intros cb _. apply Inv_record_success.
  - apply Inv_can_execute.
  - intros ops. apply Inv_run, H0.
  - intros cb Hge. split.
    + intros Hz Hs.
      destruct (decide (failures cb = 0)) as [E|E]; [|lia].
      rewrite (Hz E) in Hs. destruct Hs; discriminate.
    + intros Hs E. destruct (state cb); [reflexivity | |];
        exfalso; assert (1 <= failures cb) by auto; lia.
Qed.

Lemma zero_failures_implies_closed_witness :
  Inv (snd (can_execute 100 (run [ RecordFailure 1; RecordFailure 2;
                                   RecordFailure 3; RecordFailure 4;
                                   RecordFailure 5 ] init))).
Proof.
  destruct zero_failures_implies_closed as (_ & _ & _ & Hcan & Hrun & _).
  apply Hcan, Hrun.
Defined.

End CircuitBreakerFacts.

Module RateLimiterFacts.
Import RateLimiter.

Lemma filter_keep_all (P : Z -> Prop) `{!forall x, Decision (P x)} (l : list Z) :
  Forall P l -> filter P l = l.
Proof.
  induction 1 as [|x l Hx _ IH]; [reflexivity|].
  rewrite filter_cons_True by exact Hx. now rewrite IH.
Qed.

Lemma filter_drop_all (P : Z -> Prop) `{!forall x, Decision (P x)} (l : list Z) :
  Forall (fun x => ~ P x) l -> filter P l = [].
Proof.
  induction 1 as [|x l Hx _ IH]; [reflexivity|].
  rewrite filter_cons_False by exact Hx. exact IH.
Qed.

Section Window.
Variables (N W : Z).

Lemma check_answer now c rc :
  fst (check N W now c rc) = true
  <-> Z.of_nat (length (stored c (snd (check N W now c rc)))) <= N.
Proof.
  unfold stored, check. cbn. rewrite lookup_total_insert_eq.
  apply bool_decide_eq_true.
Qed.

Lemma check_stored now c rc :
  stored c (snd (check N W now c rc))
  = filter (fun t => now - t < W) (stored c rc) ++ [now].
Proof. unfold stored, check. cbn. now rewrite lookup_total_insert_eq. Qed.

Lemma check_other now c c' rc :
  c' <> c -> snd (check N W now c rc) !! c' = rc !! c'.
Proof. intros Hne. unfold check. cbn. now rewrite lookup_insert_ne. Qed.

Lemma check_fresh now c rc :
  0 < W -> Forall (fun t => now - t < W) (stored c (snd (check N W now c rc))).
Proof.
  intros HW. rewrite check_stored. apply Forall_app. split.
  - apply Forall_forall. intros t Ht.
    apply list_elem_of_filter in Ht. tauto.
  - repeat constructor. lia.
Qed.

(** A run of checks during which nothing stored expires. *)
Lemma checks_keep (times : list Z) :
  forall (c : string) (rc : gmap string (list Z)),
    Forall (fun t => Forall (fun t' => t' - t < W) times) (stored c rc) ->
    Forall (fun t => Forall (fun t' => t' - t < W) times) times ->
    fst (checks N W times c rc)
    = map (fun i => bool_decide
             (Z.of_nat (length (stored c rc) + i + 1) <= N))
          (seq 0 (length times))
    /\ stored c (snd (checks N W times c rc)) = stored c rc ++ times.
Proof.
  induction times as [|now times IH]; intros c rc Hold Hin.
  - cbn. now rewrite app_nil_r.
  - cbn [checks].
    destruct (check N W now c rc) as [ok rc1] eqn:E.
    assert (E1 : stored c rc1 = stored c rc ++ [now]).
    { change rc1 with (snd (ok, rc1)). rewrite <- E, check_stored.
      f_equal. apply filter_keep_all.
      eapply Forall_impl; [exact Hold|]. cbn. intros t Ht.
      now inversion Ht. }
    assert (E2 : ok = bool_decide
              (Z.of_nat (length (stored c rc) + 0 + 1) <= N)).
    { change ok with (fst (ok, rc1)). rewrite <- E. unfold check. cbn.
      fold (stored c rc). rewrite filter_keep_all.
      - apply bool_decide_ext. rewrite length_app. cbn. lia.
      - eapply Forall_impl; [exact Hold|]. cbn. intros t Ht.
        now inversion Ht. }
    destruct (IH c rc1) as [IH1 IH2].
    + rewrite E1. apply Forall_app. split.
      * eapply Forall_impl; [exact Hold|]. cbn. intros t Ht.
        now inversion Ht.
      * constructor; [|constructor]. inversion Hin as [|? ? Hnow _]; subst.
        now inversion Hnow.
    + inversion Hin as [|? ? _ Hrest]; subst.
      eapply Forall_impl; [exact Hrest|]. cbn. intros t Ht.
      now inversion Ht.
    + destruct (checks N W times c rc1) as [oks rc2] eqn:E3.
      cbn [fst snd] in *. split.
      * cbn [length seq map]. f_equal; [exact E2|].
        rewrite IH1, <- seq_shift, map_map. apply map_ext. intros i.
        apply bool_decide_ext. rewrite E1, length_app. cbn. lia.
      * rewrite IH2, E1, <- app_assoc. reflexivity.
Qed.

Lemma answers_up_to_limit (k n : nat) :
  Z.of_nat (k + n) <= N ->
  map (fun i => bool_decide (Z.of_nat (i + 1) <= N)) (seq k n)
  = replicate n true.
Proof.
  revert k. induction n as [|n IH]; intros k Hk; [reflexivity|].
  cbn [seq map replicate]. f_equal.
  - apply bool_decide_eq_true. lia.
  - apply IH. lia.
Qed.

End Window.

(** C7.  Each check keeps exactly the client's timestamps younger than
    the 60-second window, appends the current time and answers whether
    the count is within the limit; other clients are untouched and no
    stored timestamp is as old as the window afterwards.  Hence, for a
    client with nothing stored inside the window, [N + 1] checks that
    lie within one window answer true [N] times and then false, and a
    check made once the window has passed for all of them answers true
    again (given a limit of at least 1) and keeps its own timestamp
    only. *)
Theorem sliding_window_limit (N : Z) (c : string)
        (rc : gmap string (list Z)) (t1 : Z) (rest : list Z) (later : Z) :
  let times := t1 :: rest in
  Z.of_nat (length times) = N + 1 ->
  Forall (fun t => Forall (fun t' => 60 <= t' - t) times) (stored c rc) ->
  Forall (fun t => Forall (fun t' => t' - t < 60) times) times ->
  Forall (fun t => 60 <= later - t) times ->
  (forall now c0 rc0,
      let after := snd (check N 60 now c0 rc0) in
      stored c0 after
      = filter (fun t => now - t < 60) (stored c0 rc0) ++ [now]
      /\ (fst (check N 60 now c0 rc0) = true
          <-> Z.of_nat (length (stored c0 after)) <= N)
      /\ Forall (fun t => now - t < 60) (stored c0 after)
      /\ (forall c', c' <> c0 -> after !! c' = rc0 !! c'))
  /\ fst (checks N 60 times c rc) = replicate (Z.to_nat N) true ++ [false]
  /\ stored c (snd (checks N 60 times c rc)) = times
  /\ fst (check N 60 later c (snd (checks N 60 times c rc)))
     = bool_decide (1 <= N)
  /\ stored c (snd (check N 60 later c (snd (checks N 60 times c rc))))
     = [later].
Proof.
  intros times Hlen Hold Hin Hlater.
  split.
  { intros now c0 rc0 after. subst after. split_and!.
    - apply check_stored.
    - apply check_answer.
    - apply check_fresh. lia.
    - intros c' Hne. now apply check_other. }
  subst times. cbn [checks].
  destruct (check N 60 t1 c rc) as [ok rc1] eqn:E.
  assert (E1 : stored c rc1 = [t1]).
  { change rc1 with (snd (ok, rc1)). rewrite <- E, check_stored.
    rewrite filter_drop_all; [reflexivity|].
    eapply Forall_impl; [exact Hold|]. cbn. intros t Ht.
    inversion Ht; subst. lia. }
  assert (E2 : ok = bool_decide (Z.of_nat (0 + 1) <= N)).
  { change ok with (fst (ok, rc1)). rewrite <- E. unfold check. cbn.
    rewrite filter_drop_all; [reflexivity|].
    eapply Forall_impl; [exact Hold|]. cbn. intros t Ht.
    inversion Ht; subst. lia. }
  destruct (checks_keep N 60 rest c rc1) as [K1 K2].
  { rewrite E1. constructor; [|constructor].
    inversion Hin as [|? ? Ht1 _]; subst. now inversion Ht1. }
  { inversion Hin as [|? ? _ Hrest]; subst.
    eapply Forall_impl; [exact Hrest|]. cbn. intros t Ht. now inversion Ht. }
  destruct (checks N 60 rest c rc1) as [oks rc2] eqn:E3.
  cbn [fst snd] in *. rewrite E1 in K1, K2. cbn [length app] in K1, K2.
  cbn [length] in Hlen.
  assert (Hn : Z.to_nat N = length rest) by lia.
  split_and!.
  - rewrite E2, K1, Hn.
    destruct rest as [|r rest'] using rev_ind.
    + cbn. f_equal. apply bool_decide_eq_false. cbn in Hlen. lia.
    + clear IHrest'. rewrite length_app in *. cbn [length] in *.
      rewrite seq_app, map_app. cbn [seq map].
      replace (length rest' + 1)%nat with (S (length rest')) by lia.
      cbn [replicate app]. f_equal; [apply bool_decide_eq_true; lia|].
      f_equal.
      * transitivity (map (fun i => bool_decide (Z.of_nat (i + 1) <= N))
                          (seq 1 (length rest'))).
        { rewrite <- seq_shift, map_map. apply map_ext. intros i.
          apply bool_decide_ext. lia. }
        apply answers_up_to_limit. lia.
      * f_equal. apply bool_decide_eq_false. lia.
  - exact K2.
  - unfold check. cbn. fold (stored c rc2). rewrite K2.
    rewrite filter_drop_all; [reflexivity|].
    eapply Forall_impl; [exact Hlater|]. cbn. intros t Ht. lia.
  - rewrite check_stored, K2.
    rewrite filter_drop_all; [reflexivity|].
    eapply Forall_impl; [exact Hlater|]. cbn. intros t Ht. lia.
Qed.

(** The theorem at limit 2: three checks at seconds 0, 10 and 20, then
    one at second 100. *)
Lemma sliding_window_limit_witness :
  fst (checks 2 60 [0; 10; 20] "10.0.0.7" ∅) = [true; true; false]
  /\ fst (check 2 60 100 "10.0.0.7" (snd (checks 2 60 [0; 10; 20] "10.0.0.7" ∅)))
     = true.
Proof.
  destruct (sliding_window_limit 2 "10.0.0.7" ∅ 0 [10; 20] 100)
    as (_ & Hb & _ & Hc & _).
  - reflexivity.
  - constructor.
  - repeat constructor; lia.
  - repeat constructor; lia.
  - split; [exact Hb | exact Hc].
Defined.

(** Both services run this limiter: the Gatekeeper at 1000 per window,
    the Trusted Host at 2000. *)
Lemma services_use_check now c rc :
  Gatekeeper._check_rate_limit now c rc = check 1000 60 now c rc
  /\ TrustedHost._check_rate_limit now c rc = check 2000 60 now c rc.
Proof. split; reflexivity. Qed.

End RateLimiterFacts.

Module ProxyFacts.
Import Py Proxy.

(** The connection a write, a replication or a fallback opens: no
    strategy is passed, so the port is the default one. *)
Lemma replicate_trace (w : world) (query : string) (workers : list string) :
  forall tr,
    _replicate_to_workers w query workers tr
    = tr ++ map (statement_conn query) workers.
Proof.
  induction workers as [|h workers IH]; intros tr; cbn.
  - now rewrite app_nil_r.
  - unfold _execute_query.
    destruct (exec w tr _) as [|r []]; cbn; rewrite IH, <- app_assoc;
      reflexivity.
Qed.

Lemma probe_trace (w : world) (workers : list string) :
  forall rt tr,
    exists n,
      snd (probe_workers w workers rt tr)
      = tr ++ map probe_conn (take n workers).
Proof.
  induction workers as [|h workers IH]; intros rt tr; cbn [probe_workers].
  - exists O. now rewrite app_nil_r.
  - assert (Hnext : forall rt',
              exists n,
                snd (probe_workers w workers rt' (tr ++ [probe_conn h]))
                = tr ++ map probe_conn (take n (h :: workers))).
    { intros rt'. destruct (IH rt' (tr ++ [probe_conn h])) as [n Hn].
      exists (S n). rewrite Hn, <- app_assoc. reflexivity. }
    destruct (probe w tr (probe_conn h)) as [|d []]; [apply Hnext.. |].
    exists 1%nat. reflexivity.
Qed.

(** What a write comes to, as a function of the manager connection's
    answer. *)
Lemma write_route (w : world) (pm : t) (query : string) (tr : list conn) :
  route_request w pm query true tr
  = (match exec w tr (statement_conn query (manager_host pm)) with
     | Refused => Error ("Failed to connect to MySQL on " +:+ manager_host pm)
     | Ran (Rows results) true => Success results
     | Ran (MySQLError msg) true => Error ("MySQL Error: " +:+ msg)
     | Ran (Failure msg) true => Error msg
     | Ran _ false => Error "Internal error in Proxy"
     end,
     tr ++ statement_conn query (manager_host pm) ::
     match exec w tr (statement_conn query (manager_host pm)) with
     | Ran (Rows _) true => map (statement_conn query) (worker_hosts pm)
     | _ => []
     end).
Proof.
  unfold route_request, _execute_query.
  change {| host := manager_host pm; port := port_for None;
            statement := Some query |}
    with (statement_conn query (manager_host pm)).
  destruct (exec w tr _) as [|[results|msg|msg] []]; cbn;
    rewrite ?replicate_trace, <- ?app_assoc; reflexivity.
Qed.

(** C4, as the code has it.  Whenever the execution on the manager
    returns a result (the connection was refused, or the statement ran
    or raised and the cursor and connection were closed), a write
    returns exactly that result, whatever the workers do; the workers
    are tried if and only if that result is a success, each once and in
    the configured order, and nothing they do changes the result or
    reaches the caller.  When closing the manager's cursor or connection
    raises, [_execute_query] raises instead of returning: the write then
    returns [{"status": "error", "message": "Internal error in Proxy"}]
    and nothing is replicated. *)
Theorem write_returns_manager_result
        (w : world) (pm : t) (query : string) (tr : list conn) :
  let cm := statement_conn query (manager_host pm) in
  (forall result tr1,
      _execute_query w (manager_host pm) query None tr = (Ret result, tr1) ->
      fst (route_request w pm query true tr) = result)
  /\ fst (route_request w pm query true tr)
     = match exec w tr cm with
       | Refused => Error ("Failed to connect to MySQL on " +:+ manager_host pm)
       | Ran (Rows results) true => Success results
       | Ran (MySQLError msg) true => Error ("MySQL Error: " +:+ msg)
       | Ran (Failure msg) true => Error msg
       | Ran _ false => Error "Internal error in Proxy"
       end
  /\ snd (route_request w pm query true tr)
     = tr ++ cm ::
       match exec w tr cm with
       | Ran (Rows _) true => map (statement_conn query) (worker_hosts pm)
       | _ => []
       end
  /\ (forall w', exec w' tr cm = exec w tr cm ->
        fst (route_request w' pm query true tr)
        = fst (route_request w pm query true tr)).
Proof.
  intros cm. subst cm. split_and!.
  - intros result tr1. rewrite write_route. unfold _execute_query.
    change {| host := manager_host pm; port := port_for None;
              statement := Some query |}
      with (statement_conn query (manager_host pm)).
    destruct (exec w tr _) as [|[results|msg|msg] []]; cbn;
      intros [= <- _]; reflexivity.
  - now rewrite write_route.
  - now rewrite write_route.
  - intros w' Hw. now rewrite !write_route, Hw.
Qed.

(** With every worker refusing the replication, the client still sees
    the manager's success. *)
Lemma write_returns_manager_result_witness :
  fst (route_request workers_down_world example_proxy
                     "INSERT INTO t VALUES (1)" true [])
  = fst (route_request healthy_world example_proxy
                       "INSERT INTO t VALUES (1)" true [])
  /\ fst (route_request workers_down_world example_proxy
                        "INSERT INTO t VALUES (1)" true [])
     = Success None.
Proof.
  destruct (write_returns_manager_result healthy_world example_proxy
              "INSERT INTO t VALUES (1)" []) as (_ & _ & _ & H).
  destruct (write_returns_manager_result workers_down_world example_proxy
              "INSERT INTO t VALUES (1)" []) as (_ & Hr & _ & _).
  split; [apply H; reflexivity | exact Hr].
Defined.

(** C4 as the spec words it fails.  The manager runs and commits the
    statement, and closing its connection raises: the write does not
    return the result of that execution but the internal-error envelope,
    and no worker is contacted. *)
Lemma write_loses_manager_result :
  let query := "INSERT INTO t VALUES (1)"%string in
  let cm := statement_conn query (manager_host example_proxy) in
  exec manager_close_raises_world [] cm = Ran (Rows None) false
  /\ route_request manager_close_raises_world example_proxy query true []
     = (Error "Internal error in Proxy", [cm])
  /\ ~ (forall (w : world) (pm : t) (query : string) (tr : list conn)
               (results : option (list row)) (closes : bool),
           exec w tr (statement_conn query (manager_host pm))
           = Ran (Rows results) closes ->
           fst (route_request w pm query true tr) = Success results).
Proof.
  cbv zeta. split_and!; try reflexivity.
  intros H.
  specialize (H manager_close_raises_world example_proxy
                "INSERT INTO t VALUES (1)"%string [] None false eq_refl).
  discriminate H.
Qed.

Lemma select_trace (w : world) (pm : t) (tr : list conn) :
  exists probes,
    snd (_select_read_host w pm tr) = tr ++ probes
    /\ Forall (fun c => statement c = None /\ port c = 3308) probes
    /\ (probes <> [] -> current_strategy pm = "customized"%string).
Proof.
  assert (Hnone : forall r : py string,
    exists probes,
      snd (r, tr) = tr ++ probes
      /\ Forall (fun c => statement c = None /\ port c = 3308) probes
      /\ (probes <> [] -> current_strategy pm = "customized"%string)).
  { intros r. exists (@nil conn). rewrite app_nil_r.
    split_and!; [reflexivity | constructor | congruence]. }
  unfold _select_read_host.
  destruct (String.eqb (current_strategy pm) "direct"); [apply Hnone|].
  destruct (String.eqb (current_strategy pm) "random"); [apply Hnone|].
  destruct (String.eqb (current_strategy pm) "customized") eqn:E;
    [|apply Hnone].
  apply String.eqb_eq in E.
  destruct (probe_trace w (worker_hosts pm) [] tr) as [n Htr].
  exists (map probe_conn (take n (worker_hosts pm))). split_and!.
  - unfold _get_fastest_worker.
    destruct (probe_workers w (worker_hosts pm) [] tr) as [[rt|ex] tr'].
    + cbn in Htr. subst tr'.
      destruct rt as [|kv d]; [reflexivity|].
      destruct (forallb _ _); reflexivity.
    + exact Htr.
  - apply Forall_forall. intros c Hc.
    apply list_elem_of_fmap in Hc as (h & -> & _). split; reflexivity.
  - intros _. exact E.
Qed.

(** C5, as the code has it.  Only the read on the selected worker uses
    the port of the active strategy (3306, 3307, 3308; 3306 for a
    strategy without a mapped port).  The write on the manager, the
    replication to the workers and the manager fallback of a failed
    read pass no strategy and always connect to 3306; the latency
    probes of the customized strategy connect to 3308. *)
Theorem ports_by_call_site
        (w : world) (pm : t) (query : string) (tr : list conn) :
  (exists writes,
      snd (route_request w pm query true tr) = tr ++ writes
      /\ Forall (fun c => port c = 3306) writes)
  /\ (exists probes reads,
        snd (route_request w pm query false tr) = tr ++ probes ++ reads
        /\ Forall (fun c => statement c = None /\ port c = 3308) probes
        /\ (probes <> [] -> current_strategy pm = "customized"%string)
        /\ match reads with
           | [] => True
           | r :: fallback =>
               port r = port_for (Some (current_strategy pm))
               /\ (fallback = []
                   \/ fallback = [ {| host := manager_host pm; port := 3306;
                                      statement := Some query |} ])
           end)
  /\ port_for (Some "direct"%string) = 3306
  /\ port_for (Some "random"%string) = 3307
  /\ port_for (Some "customized"%string) = 3308.
Proof.
  split_and!; try reflexivity.
  - eexists. split; [rewrite write_route; reflexivity|].
    constructor; [reflexivity|].
    destruct (exec w tr _) as [|[results|msg|msg] []]; try constructor.
    apply Forall_forall. intros c Hc.
    apply list_elem_of_fmap in Hc as (h & -> & _). reflexivity.
  - destruct (select_trace w pm tr) as (probes & Hsel & Hprobes & Hcust).
    exists probes. unfold route_request.
    destruct (_select_read_host w pm tr) as [[target|ex] tr1]; cbn in Hsel;
      subst tr1.
    + unfold _execute_query at 1.
      set (c := {| host := target;
                   port := port_for (Some (current_strategy pm));
                   statement := Some query |}).
      assert (Hfb : forall r,
        exists reads,
          snd (if negb (is_success r)
                  && negb (String.eqb target (manager_host pm))
               then match _execute_query w (manager_host pm) query None
                            ((tr ++ probes) ++ [c]) with
                    | (Raise _, tr3) => (internal_error, tr3)
                    | (Ret fallback, tr3) => (fallback, tr3)
                    end
               else (r, (tr ++ probes) ++ [c]))
          = tr ++ probes ++ reads
          /\ match reads with
             | [] => True
             | r0 :: fallback =>
                 port r0 = port_for (Some (current_strategy pm))
                 /\ (fallback = []
                     \/ fallback = [ {| host := manager_host pm; port := 3306;
                                        statement := Some query |} ])
             end).
      { intros r.
        destruct (negb (is_success r)
                  && negb (String.eqb target (manager_host pm))).
        - exists [c; statement_conn query (manager_host pm)].
          split; [|split; [reflexivity | right; reflexivity]].
          unfold _execute_query.
          destruct (exec w _ _) as [|r1 []]; cbn;
            rewrite <- !app_assoc; reflexivity.
        - exists [c]. split; [|split; [reflexivity | left; reflexivity]].
          cbn. rewrite <- !app_assoc. reflexivity. }
      destruct (exec w (tr ++ probes) c) as [|r []].
      * destruct (Hfb (Error ("Failed to connect to MySQL on " +:+ target)))
          as (reads & H1 & H2).
        exists reads. split_and!; assumption.
      * destruct (Hfb match r with
                      | Rows results => Success results
                      | MySQLError msg => Error ("MySQL Error: " +:+ msg)
                      | Failure msg => Error msg
                      end) as (reads & H1 & H2).
        exists reads. split_and!; assumption.
      * exists [c]. cbn. rewrite <- !app_assoc.
        split_and!; try assumption; try reflexivity. left; reflexivity.
    + exists (@nil conn). cbn. rewrite !app_nil_r.
      split_and!; [reflexivity | assumption | assumption | exact I].
Qed.

Lemma ports_by_call_site_witness :
  exists writes,
    snd (route_request healthy_world example_proxy
                       "INSERT INTO t VALUES (1)" true []) = [] ++ writes
    /\ Forall (fun c => port c = 3306) writes.
Proof.
  destruct (ports_by_call_site healthy_world example_proxy
              "INSERT INTO t VALUES (1)" []) as (H & _).
  exact H.
Defined.

(** C5 as the spec words it fails.  Under strategy [random] (port 3307)
    a write reaches the manager and both workers on 3306, and a read
    whose worker refuses the connection falls back to the manager on
    3306. *)
Lemma write_and_fallback_use_default_port :
  current_strategy example_proxy = "random"%string
  /\ snd (route_request healthy_world example_proxy "INSERT INTO t VALUES (1)"
                        true [])
     = [ {| host := "manager"; port := 3306;
            statement := Some "INSERT INTO t VALUES (1)"%string |};
         {| host := "worker1"; port := 3306;
            statement := Some "INSERT INTO t VALUES (1)"%string |};
         {| host := "worker2"; port := 3306;
            statement := Some "INSERT INTO t VALUES (1)"%string |} ]
  /\ snd (route_request workers_down_world example_proxy "SELECT 1" false [])
     = [ {| host := "worker1"; port := 3307;
            statement := Some "SELECT 1"%string |};
         {| host := "manager"; port := 3306;
            statement := Some "SELECT 1"%string |} ]
  /\ ~ (forall (w : world) (pm : t) (query : string) (is_write : bool)
               (c : conn),
           current_strategy pm = "random"%string ->
           c ∈ snd (route_request w pm query is_write []) ->
           statement c = Some query ->
           port c = 3307).
Proof.
  split_and!; try reflexivity.
  intros H.
  specialize (H healthy_world example_proxy "INSERT INTO t VALUES (1)"%string
                true
                {| host := "manager"; port := 3306;
                   statement := Some "INSERT INTO t VALUES (1)"%string |}
                eq_refl).
  assert (E : 3306 = 3307); [|discriminate E].
  apply H; [|reflexivity].
  vm_compute. left.
Qed.

(** *** The latency table *)

Lemma dict_get_set_eq k v d : dict_get k (dict_set k v d) = Some v.
Proof.
  induction d as [|[k' v'] d IH]; cbn.
  - now rewrite String.eqb_refl.
  - destruct (String.eqb k k') eqn:E; cbn.
    + now rewrite String.eqb_refl.
    + now rewrite E.
Qed.

Lemma dict_get_set_ne k k' v d :
  k <> k' -> dict_get k' (dict_set k v d) = dict_get k' d.
Proof.
  intros Hne.
  assert (Hk : String.eqb k' k = false)
    by (apply String.eqb_neq; congruence).
  induction d as [|[k0 v0] d IH]; cbn.
  - now rewrite Hk.
  - destruct (String.eqb k k0) eqn:E; cbn.
    + apply String.eqb_eq in E. subst k0. now rewrite Hk.
    + destruct (String.eqb k' k0); [reflexivity | exact IH].
Qed.

Lemma keys_set k v d k' :
  k' ∈ (dict_set k v d).*1 <-> k' = k \/ k' ∈ d.*1.
Proof.
  induction d as [|[k0 v0] d IH]; cbn.
  - rewrite list_elem_of_singleton, elem_of_nil. tauto.
  - destruct (String.eqb k k0) eqn:E; cbn.
    + apply String.eqb_eq in E. subst k0. rewrite elem_of_cons. tauto.
    + rewrite !elem_of_cons, IH. tauto.
Qed.

Lemma NoDup_set k v d : NoDup d.*1 -> NoDup (dict_set k v d).*1.
Proof.
  induction d as [|[k0 v0] d IH]; cbn; intros Hnd.
  - apply NoDup_singleton.
  - apply NoDup_cons in Hnd as [Hnotin Hnd].
    destruct (String.eqb k k0) eqn:E; cbn.
    + apply String.eqb_eq in E. subst k0. now apply NoDup_cons.
    + apply String.eqb_neq in E. apply NoDup_cons. split; [|auto].
      rewrite keys_set. intros [->|Hin]; [congruence | contradiction].
Qed.

Lemma get_of_elem k v d : NoDup d.*1 -> (k, v) ∈ d -> dict_get k d = Some v.
Proof.
  induction d as [|[k0 v0] d IH]; cbn; intros Hnd Hin.
  - now apply elem_of_nil in Hin.
  - apply NoDup_cons in Hnd as [Hnotin Hnd].
    apply elem_of_cons in Hin as [Heq|Hin].
    + injection Heq as -> ->. now rewrite String.eqb_refl.
    + destruct (String.eqb k k0) eqn:E; [|auto].
      apply String.eqb_eq in E. subst k0. exfalso. apply Hnotin.
      apply list_elem_of_fmap. now exists (k, v).
Qed.

Lemma elem_of_get k v d : dict_get k d = Some v -> (k, v) ∈ d.
Proof.
  induction d as [|[k0 v0] d IH]; cbn; [discriminate|].
  destruct (String.eqb k k0) eqn:E.
  - apply String.eqb_eq in E. subst k0. intros [= ->]. apply list_elem_of_here.
  - intros H. apply list_elem_of_further, IH, H.
Qed.

Lemma get_is_Some k d : k ∈ d.*1 -> is_Some (dict_get k d).
Proof.
  induction d as [|[k0 v0] d IH]; cbn; intros Hin.
  - now apply elem_of_nil in Hin.
  - destruct (String.eqb k k0) eqn:E; [eauto|].
    apply String.eqb_neq in E.
    apply elem_of_cons in Hin as [?|Hin]; [congruence | auto].
Qed.

(** The order on latencies is total. *)
Lemma lat_le_trans a b c :
  lat_ltb b a = false -> lat_ltb c b = false -> lat_ltb c a = false.
Proof. destruct a, b, c; cbn; try congruence; lia. Qed.

Lemma lat_lt_le a b c :
  lat_ltb a b = true -> lat_ltb a c = false -> lat_ltb b c = false.
Proof. destruct a, b, c; cbn; try congruence; lia. Qed.

Ltac in_list :=
  solve [ eauto 6 using list_elem_of_here, list_elem_of_further ].

Lemma min_from_spec (d : list (string * latency)) :
  forall best,
    exists v, (min_from best d, v) ∈ best :: d
      /\ forall kv, kv ∈ best :: d -> lat_ltb kv.2 v = false.
Proof.
  induction d as [|[k v] d IH]; intros best; cbn.
  - exists best.2. split; [destruct best; in_list|].
    intros kv Hkv. apply list_elem_of_singleton in Hkv as ->.
    destruct best as [? []]; cbn; [lia | reflexivity].
  - destruct (lat_ltb v best.2) eqn:E.
    + destruct (IH (k, v)) as (vr & Hin & Hmin).
      exists vr. split; [in_list|].
      intros kv Hkv. apply elem_of_cons in Hkv as [->|Hkv]; [|auto].
      apply (lat_lt_le v); [exact E|].
      apply (Hmin (k, v)). in_list.
    + destruct (IH best) as (vr & Hin & Hmin).
      exists vr. split.
      { apply elem_of_cons in Hin as [Hin|Hin]; [rewrite Hin|]; in_list. }
      intros kv Hkv.
      apply elem_of_cons in Hkv as [->|Hkv]; [apply Hmin; in_list|].
      apply elem_of_cons in Hkv as [->|Hkv]; [|apply Hmin; in_list].
      cbn. apply (lat_le_trans _ best.2); [|exact E].
      apply (Hmin best). in_list.
Qed.

(** One turn of the probing loop whose [close] returns. *)
Lemma probe_workers_step (w : world) (a : string) (ws : list string)
      (rt : list (string * latency)) (tr : list conn) :
  (forall d, probe w tr (probe_conn a) <> Reached d false) ->
  probe_workers w (a :: ws) rt tr
  = probe_workers w ws (dict_set a (probed w tr a) rt) (tr ++ [probe_conn a]).
Proof.
  intros Hcl. cbn [probe_workers]. unfold probed.
  destruct (probe w tr (probe_conn a)) as [|d []]; try reflexivity.
  now destruct (Hcl d).
Qed.

(** When every probe connection closes, the loop runs to its end and
    the table holds, for each worker, what its last probe recorded. *)
Lemma probe_workers_spec (w : world) (ws : list string) :
  forall rt tr,
    (forall i h d, ws !! i = Some h ->
       probe w (tr ++ map probe_conn (take i ws)) (probe_conn h)
       <> Reached d false) ->
    exists rt',
      probe_workers w ws rt tr = (Ret rt', tr ++ map probe_conn ws)
      /\ (NoDup rt.*1 -> NoDup rt'.*1)
      /\ (forall k, k ∈ rt'.*1 <-> k ∈ rt.*1 \/ k ∈ ws)
      /\ (forall k, k ∉ ws -> dict_get k rt' = dict_get k rt)
      /\ (forall pre h post, ws = pre ++ h :: post -> h ∉ post ->
            dict_get h rt' = Some (probed w (tr ++ map probe_conn pre) h)).
Proof.
  induction ws as [|a ws IH]; intros rt tr Hcl.
  - exists rt. cbn. rewrite app_nil_r.
    split_and!; [reflexivity | auto | intros k; rewrite elem_of_nil; tauto
                 | auto |].
    intros [|? ?] h post Heq; discriminate Heq.
  - rewrite probe_workers_step.
    2:{ intros d. specialize (Hcl O a d eq_refl). cbn in Hcl.
        now rewrite app_nil_r in Hcl. }
    destruct (IH (dict_set a (probed w tr a) rt) (tr ++ [probe_conn a]))
      as (rt' & Hrun & I1 & I2 & I3 & I4).
    { intros i h d Hi. specialize (Hcl (S i) h d Hi). cbn in Hcl.
      now rewrite <- app_assoc. }
    exists rt'. split_and!.
    + rewrite Hrun, <- app_assoc. reflexivity.
    + intros Hnd. apply I1, NoDup_set, Hnd.
    + intros k. rewrite I2, keys_set, elem_of_cons. tauto.
    + intros k Hk. apply not_elem_of_cons in Hk as [Hne Hk].
      rewrite I3 by exact Hk. apply dict_get_set_ne. congruence.
    + intros [|b pre] h post Heq Hpost; cbn in Heq; injection Heq as -> ->.
      * rewrite I3 by exact Hpost. rewrite app_nil_r. apply dict_get_set_eq.
      * rewrite (I4 pre h post eq_refl Hpost). cbn.
        now rewrite <- app_assoc.
Qed.

(** The loop is left at the first probe connection whose [close]
    raises. *)
Lemma probe_workers_raises (w : world) (ws : list string) :
  forall rt tr i h d,
    ws !! i = Some h ->
    probe w (tr ++ map probe_conn (take i ws)) (probe_conn h)
    = Reached d false ->
    (forall j h' d', (j < i)%nat -> ws !! j = Some h' ->
       probe w (tr ++ map probe_conn (take j ws)) (probe_conn h')
       <> Reached d' false) ->
    exists ex,
      probe_workers w ws rt tr
      = (Raise ex, tr ++ map probe_conn (take (S i) ws)).
Proof.
  induction ws as [|a ws IH]; intros rt tr i h d Hi Hraise Hbefore;
    [discriminate Hi|].
  destruct i as [|i].
  - cbn in Hi. injection Hi as ->. cbn in Hraise.
    rewrite app_nil_r in Hraise.
    cbn [probe_workers]. rewrite Hraise. eexists. reflexivity.
  - rewrite probe_workers_step.
    2:{ intros d'. specialize (Hbefore O a d' (Nat.lt_0_succ i) eq_refl).
        cbn in Hbefore. now rewrite app_nil_r in Hbefore. }
    destruct (IH (dict_set a (probed w tr a) rt) (tr ++ [probe_conn a])
                 i h d Hi) as [ex Hex].
    + cbn in Hraise. now rewrite <- app_assoc.
    + intros j h' d' Hj Hj'.
      specialize (Hbefore (S j) h' d' (proj1 (Nat.succ_lt_mono j i) Hj) Hj').
      cbn in Hbefore. now rewrite <- app_assoc.
    + exists ex. rewrite Hex. cbn. now rewrite <- app_assoc.
Qed.

(** The place of a worker's last probe. *)
Lemma last_index (h : string) (ws : list string) :
  h ∈ ws ->
  exists i, ws !! i = Some h /\ forall j, (i < j)%nat -> ws !! j <> Some h.
Proof.
  induction ws as [|a ws IH]; intros Hin; [now apply elem_of_nil in Hin|].
  destruct (decide (h ∈ ws)) as [Hws|Hws].
  - destruct (IH Hws) as (i & Hi & Hlast). exists (S i). split; [exact Hi|].
    intros [|j] Hj; [lia|]. cbn. apply Hlast. lia.
  - apply elem_of_cons in Hin as [->|Hin]; [|contradiction].
    exists O. split; [reflexivity|].
    intros [|j] Hj; [lia|]. cbn. intros Hj'.
    apply Hws. eapply list_elem_of_lookup_2, Hj'.
Qed.

Lemma last_index_split (h : string) (ws : list string) (i : nat) :
  ws !! i = Some h ->
  (forall j, (i < j)%nat -> ws !! j <> Some h) ->
  ws = take i ws ++ h :: drop (S i) ws /\ h ∉ drop (S i) ws.
Proof.
  intros Hi Hlast. split; [now rewrite take_drop_middle|].
  intros Hin. apply list_elem_of_lookup_1 in Hin as [k Hk].
  rewrite lookup_drop in Hk. apply (Hlast (S i + k)%nat); [lia | exact Hk].
Qed.

(** What [customized] selects, read off the latency table. *)
Lemma selection_by_table
      (w : world) (pm : t) (tr : list conn)
      (first : string) (others : list string) :
  worker_hosts pm = first :: others ->
  current_strategy pm = "customized"%string ->
  (forall i h d, worker_hosts pm !! i = Some h ->
     probe w (tr ++ map probe_conn (take i (worker_hosts pm))) (probe_conn h)
     <> Reached d false) ->
  exists rt r lr,
    probe_workers w (worker_hosts pm) [] tr
    = (Ret rt, tr ++ map probe_conn (worker_hosts pm))
    /\ NoDup rt.*1
    /\ (forall h, h ∈ worker_hosts pm <-> h ∈ rt.*1)
    /\ _select_read_host w pm tr
       = (Ret r, tr ++ map probe_conn (worker_hosts pm))
    /\ r ∈ worker_hosts pm
    /\ dict_get r rt = Some lr
    /\ (forall h, h ∈ worker_hosts pm ->
          exists lh, dict_get h rt = Some lh /\ lat_ltb lh lr = false)
    /\ ((forall h, h ∈ worker_hosts pm -> dict_get h rt = Some Inf) ->
        r = first)
    /\ (forall pre h post, worker_hosts pm = pre ++ h :: post ->
          h ∉ post ->
          dict_get h rt = Some (probed w (tr ++ map probe_conn pre) h))
    /\ match rt with
       | [] => False
       | kv :: d =>
           r = if forallb (fun kv0 => is_inf kv0.2) rt then first
               else min_from kv d
       end.
Proof.
  intros Hws Hs Hcl.
  destruct (probe_workers_spec w (worker_hosts pm) [] tr Hcl)
    as (rt & Hrun & Hnd & Hkeys & _ & Hrec).
  specialize (Hnd (NoDup_nil_2 (A:=string))).
  assert (Hin : forall h, h ∈ worker_hosts pm <-> h ∈ rt.*1).
  { intros h. rewrite Hkeys. cbn. rewrite elem_of_nil. tauto. }
  assert (Hget : forall h, h ∈ worker_hosts pm -> is_Some (dict_get h rt)).
  { intros h Hh. apply get_is_Some, Hin, Hh. }
  exists rt.
  unfold _select_read_host, _get_fastest_worker, first_worker.
  rewrite Hs, Hrun. cbn [String.eqb Ascii.eqb Bool.eqb].
  destruct rt as [|kv d].
  { exfalso. assert (Hf : first ∈ ([] : list (string * latency)).*1).
    { apply Hin. rewrite Hws. apply list_elem_of_here. }
    now apply elem_of_nil in Hf. }
  destruct (forallb (fun kv0 => is_inf kv0.2) (kv :: d)) eqn:Hall.
  - (* every probe failed *)
    assert (Hinf : forall h, h ∈ worker_hosts pm ->
              dict_get h (kv :: d) = Some Inf).
    { intros h Hh. destruct (Hget h Hh) as [lh Hlh].
      rewrite Hlh. f_equal.
      assert (Hm : (h, lh) ∈ kv :: d) by now apply elem_of_get.
      rewrite forallb_forall in Hall.
      apply list_elem_of_In in Hm. specialize (Hall _ Hm). cbn in Hall.
      destruct lh; [discriminate | reflexivity]. }
    assert (Hfirst : first ∈ worker_hosts pm)
      by (rewrite Hws; apply list_elem_of_here).
    exists first, Inf.
    split_and!; [reflexivity | exact Hnd | exact Hin | now rewrite Hws
                 | exact Hfirst | apply Hinf, Hfirst | | auto | exact Hrec
                 | reflexivity].
    intros h Hh. exists Inf. split; [apply Hinf, Hh | reflexivity].
  - (* some probe succeeded *)
    destruct (min_from_spec d kv) as (lr & Hmem & Hmin).
    exists (min_from kv d), lr.
    assert (Hr : dict_get (min_from kv d) (kv :: d) = Some lr)
      by (apply get_of_elem; assumption).
    split_and!; [reflexivity | exact Hnd | exact Hin | reflexivity | | exact Hr
                 | | | exact Hrec | reflexivity].
    + apply Hin. apply list_elem_of_fmap. now exists (min_from kv d, lr).
    + intros h Hh. destruct (Hget h Hh) as [lh Hlh]. exists lh.
      split; [exact Hlh|].
      assert (Hm : (h, lh) ∈ kv :: d) by now apply elem_of_get.
      exact (Hmin _ Hm).
    + intros Hallinf. exfalso.
      apply Bool.not_true_iff_false in Hall. apply Hall.
      apply forallb_forall. intros [k0 v0] Hk0. cbn.
      apply list_elem_of_In in Hk0.
      assert (Hk : k0 ∈ worker_hosts pm).
      { apply Hin. apply list_elem_of_fmap. now exists (k0, v0). }
      specialize (Hallinf k0 Hk).
      rewrite (get_of_elem k0 v0 _ Hnd Hk0) in Hallinf.
      injection Hallinf as ->. reflexivity.
Qed.

(** A read whose host selection raises. *)
Lemma read_without_host (w : world) (pm : t) (query : string)
      (tr tr1 : list conn) (ex : exn) :
  _select_read_host w pm tr = (Raise ex, tr1) ->
  route_request w pm query false tr = (Error "Internal error in Proxy", tr1).
Proof. intros H. unfold route_request. rewrite H. reflexivity. Qed.

(** C8, as the code has it.  With at least one worker configured,
    strategy [direct] selects the first worker, without probing.
    Strategy [customized] probes the workers in order.  When every
    probe connection that was opened closes without raising, it selects
    a configured worker, and in terms of what the probes measured (for a
    host listed more than once, its last probe): if any worker's probe
    succeeded, the probe of the selected worker succeeded and no
    worker's measured latency is below its own; if every probe failed,
    the first worker is selected.  When closing a probe connection
    raises, no worker is selected: the selection raises after that
    probe and the read returns
    [{"status": "error", "message": "Internal error in Proxy"}]. *)
Theorem read_host_selection
        (w : world) (pm : t) (tr : list conn)
        (first : string) (others : list string) :
  worker_hosts pm = first :: others ->
  let ws := worker_hosts pm in
  let measured (i : nat) (h : string) : probe_answer :=
    probe w (tr ++ map probe_conn (take i ws)) (probe_conn h) in
  let recorded (h : string) (i : nat) : Prop :=
    ws !! i = Some h /\ forall j, (i < j)%nat -> ws !! j <> Some h in
  (current_strategy pm = "direct"%string ->
     _select_read_host w pm tr = (Ret first, tr))
  /\ (current_strategy pm = "customized"%string ->
      (forall i h d, ws !! i = Some h -> measured i h <> Reached d false) ->
      exists r ir,
        _select_read_host w pm tr = (Ret r, tr ++ map probe_conn ws)
        /\ recorded r ir
        /\ (forall h ih dh,
              recorded h ih -> measured ih h = Reached dh true ->
              exists dr, measured ir r = Reached dr true /\ dr <= dh)
        /\ ((forall h ih, recorded h ih -> measured ih h = Unreachable) ->
            r = first))
  /\ (current_strategy pm = "customized"%string ->
      forall i h d,
        ws !! i = Some h ->
        measured i h = Reached d false ->
        (forall j h' d', (j < i)%nat -> ws !! j = Some h' ->
                         measured j h' <> Reached d' false) ->
        (exists ex,
            _select_read_host w pm tr
            = (Raise ex, tr ++ map probe_conn (take (S i) ws)))
        /\ forall query,
             route_request w pm query false tr
             = (Error "Internal error in Proxy",
                tr ++ map probe_conn (take (S i) ws))).
Proof.
  intros Hws ws measured recorded. subst ws measured recorded. cbv beta.
  split_and!.
  - intros Hs. unfold _select_read_host, first_worker.
    rewrite Hs, Hws. reflexivity.
  - intros Hs Hcl.
    destruct (selection_by_table w pm tr first others Hws Hs Hcl)
      as (rt & r & lr & _ & _ & _ & Hsel & Hr & Hlr & Hmin & Hall & Hrec & _).
    destruct (last_index r _ Hr) as (ir & Hir & Hlast).
    destruct (last_index_split r _ ir Hir Hlast) as [Hsplit Hnot].
    pose proof (Hrec _ _ _ Hsplit Hnot) as Hrr.
    rewrite Hlr in Hrr. injection Hrr as Hrr.
    exists r, ir. split_and!; [exact Hsel | exact Hir | exact Hlast | |].
    + intros h ih dh [Hih Hihlast] Hm.
      destruct (last_index_split h _ ih Hih Hihlast) as [Hsplith Hnoth].
      pose proof (Hrec _ _ _ Hsplith Hnoth) as Hh.
      unfold probed in Hh. rewrite Hm in Hh.
      destruct (Hmin h) as (lh & Hlh & Hcmp);
        [eapply list_elem_of_lookup_2, Hih|].
      rewrite Hh in Hlh. injection Hlh as <-.
      unfold probed in Hrr.
      destruct (probe w _ (probe_conn r)) as [|dr c] eqn:Hp.
      * subst lr. discriminate Hcmp.
      * subst lr. cbn in Hcmp. exists dr. split; [|lia].
        destruct c; [reflexivity|]. now destruct (Hcl ir r dr Hir).
    + intros Hfail. apply Hall. intros h Hh.
      destruct (last_index h _ Hh) as (ih & Hih & Hihlast).
      destruct (last_index_split h _ ih Hih Hihlast) as [Hsplith Hnoth].
      rewrite (Hrec _ _ _ Hsplith Hnoth). unfold probed.
      now rewrite (Hfail h ih (conj Hih Hihlast)).
  - intros Hs i h d Hi Hraise Hbefore.
    destruct (probe_workers_raises w _ [] tr i h d Hi Hraise Hbefore)
      as [ex Hex].
    assert (Hsel : _select_read_host w pm tr
                   = (Raise ex,
                      tr ++ map probe_conn (take (S i) (worker_hosts pm)))).
    { unfold _select_read_host, _get_fastest_worker.
      rewrite Hs, Hex. reflexivity. }
    split; [exists ex; exact Hsel|].
    intros query. exact (read_without_host w pm query _ _ ex Hsel).
Qed.

(** In the example the first worker refuses its probe, the second
    answers in 20 time units and the third in 10. *)
Lemma read_host_selection_witness :
  exists r ir,
    _select_read_host probe_world customized_proxy []
    = (Ret r, map probe_conn (worker_hosts customized_proxy))
    /\ worker_hosts customized_proxy !! ir = Some r
    /\ exists dr,
         probe probe_world
               (map probe_conn (take ir (worker_hosts customized_proxy)))
               (probe_conn r)
         = Reached dr true
         /\ dr <= 20.
Proof.
  destruct (read_host_selection probe_world customized_proxy []
              "worker1" ["worker2"; "worker3"] eq_refl) as (_ & H & _).
  destruct (H eq_refl) as (r & ir & H1 & [H2 _] & H3 & _).
  - intros i h d Hi.
    destruct i as [|[|[|i]]]; cbn in Hi; try discriminate Hi;
      injection Hi as <-; vm_compute; discriminate.
  - exists r, ir. split_and!; [exact H1 | exact H2 |].
    apply (H3 "worker2"%string 1%nat 20).
    + split; [reflexivity|].
      intros [|[|[|j]]] Hj; try lia; cbn; discriminate.
    + reflexivity.
Defined.

(** C8 as the spec words it fails.  Three workers are configured and
    closing the probe connection of the second raises: strategy
    [customized] returns no worker at all, the third worker is not
    probed and the read ends in the internal-error envelope without a
    statement being sent. *)
Lemma customized_selects_no_worker :
  worker_hosts customized_proxy = ["worker1"; "worker2"; "worker3"]%string
  /\ current_strategy customized_proxy = "customized"%string
  /\ _select_read_host probe_close_raises_world customized_proxy []
     = (Raise (OtherException "close"),
        [ probe_conn "worker1"; probe_conn "worker2" ])
  /\ route_request probe_close_raises_world customized_proxy "SELECT 1"
                   false []
     = (Error "Internal error in Proxy",
        [ probe_conn "worker1"; probe_conn "worker2" ])
  /\ ~ (forall (w : world) (pm : t) (tr : list conn),
           worker_hosts pm <> [] ->
           current_strategy pm = "customized"%string ->
           exists r, fst (_select_read_host w pm tr) = Ret r
                     /\ r ∈ worker_hosts pm).
Proof.
  split_and!; try reflexivity.
  intros H.
  destruct (H probe_close_raises_world customized_proxy [])
    as (r & Hr & _); [discriminate | reflexivity |].
  discriminate Hr.
Qed.

(** What the example selects: the third worker, the fastest. *)
Lemma customized_example :
  _select_read_host probe_world customized_proxy []
  = (Ret "worker3"%string,
     [ probe_conn "worker1"; probe_conn "worker2"; probe_conn "worker3" ]).
Proof. reflexivity. Qed.

End ProxyFacts.

Module TrustedHostFacts.
Import Json Py Http TrustedHost.

Lemma lookup_modulo_port (d1 d2 : gmap string json) (k : string) :
  delete "port" d1 = delete "port" d2 -> k <> "port"%string ->
  d1 !! k = d2 !! k.
Proof.
  intros Hd Hk.
  rewrite <- (lookup_delete_ne d1 "port" k), <- (lookup_delete_ne d2 "port" k)
    by congruence.
  now rewrite Hd.
Qed.

Lemma insert_modulo_port (d1 d2 : gmap string json) (v : json) :
  delete "port" d1 = delete "port" d2 ->
  <["port" := v]> d1 = <["port" := v]> d2.
Proof.
  intros Hd.
  rewrite <- (insert_delete_eq d1), <- (insert_delete_eq d2). now rewrite Hd.
Qed.

Lemma lacks_query_modulo_port (d1 d2 : gmap string json) :
  delete "port" d1 = delete "port" d2 ->
  lacks_query (JObj d1) = lacks_query (JObj d2).
Proof.
  intros Hd.
  assert (Hq : d1 !! "query" = d2 !! "query")
    by (apply lookup_modulo_port; [exact Hd | discriminate]).
  assert (Hempty : forall d : gmap string json,
             d = ∅ -> bool_decide (is_Some (d !! "query")) = false).
  { intros d ->. rewrite lookup_empty. apply bool_decide_eq_false.
    intros [? ?]; discriminate. }
  unfold lacks_query. cbn.
  destruct (bool_decide (d1 = ∅)) eqn:E1, (bool_decide (d2 = ∅)) eqn:E2; cbn.
  - reflexivity.
  - apply bool_decide_eq_true in E1.
    rewrite <- Hq, (Hempty d1 E1). reflexivity.
  - apply bool_decide_eq_true in E2.
    rewrite Hq, (Hempty d2 E2). reflexivity.
  - now rewrite Hq.
Qed.

(** The port a forwarded payload carries, as the code computes it. *)
Lemma forwarded_port (d : gmap string json) (e : env) (th : t) (payload : json) :
  payload ∈ snd (forward_request (JObj d) e th) ->
  exists port,
    payload = JObj (<["port" := JNum port]> d)
    /\ port = match d !! "strategy" with
              | Some (JStr s) => default 3306 (STRATEGY_PORTS !! s)
              | Some _ => 3306
              | None => default 3306 (STRATEGY_PORTS !! current_strategy th)
              end.
Proof.
  unfold forward_request.
  destruct (CircuitBreaker.can_execute _ _) as [[] cb]; cbn [negb];
    [|intros H; now apply elem_of_nil in H].
  destruct (lacks_query (JObj d)) as [[]|ex];
    try (intros H; now apply elem_of_nil in H).
  cbn [get_strategy bind].
  destruct (d !! "strategy") as [v|] eqn:Es; cbn [default].
  - destruct v; cbn [port_of handle];
      try (intros H; now apply elem_of_nil in H).
    all: destruct (sliceable _); cbn [negb];
      try (intros H; now apply elem_of_nil in H).
    all: destruct (_check_proxy_health _ _ _) as [[] last]; cbn [negb];
      try (intros H; now apply elem_of_nil in H).
    all: destruct (retry _ _ _ _ _) as [[r cb'] cnt]; cbn [snd];
      intros H; apply elem_of_replicate in H as [-> _];
      eexists; split; reflexivity.
  - cbn [port_of].
    destruct (sliceable _); cbn [negb];
      try (intros H; now apply elem_of_nil in H).
    destruct (_check_proxy_health _ _ _) as [[] last]; cbn [negb];
      try (intros H; now apply elem_of_nil in H).
    destruct (retry _ _ _ _ _) as [[r cb'] cnt]; cbn [snd].
    intros H. apply elem_of_replicate in H as [-> _].
    eexists; split; reflexivity.
Qed.

Lemma forward_request_modulo_port (d1 d2 : gmap string json) (e : env) (th : t) :
  delete "port" d1 = delete "port" d2 ->
  forward_request (JObj d1) e th = forward_request (JObj d2) e th.
Proof.
  intros Hd.
  assert (Hq : d1 !! "query" = d2 !! "query")
    by (apply lookup_modulo_port; [exact Hd | discriminate]).
  assert (Hs : d1 !! "strategy" = d2 !! "strategy")
    by (apply lookup_modulo_port; [exact Hd | discriminate]).
  unfold forward_request.
  rewrite (lacks_query_modulo_port d1 d2 Hd).
  cbn [get_strategy]. rewrite Hs, Hq.
  destruct (CircuitBreaker.can_execute _ _) as [can cb].
  destruct (negb can); [reflexivity|].
  destruct (lacks_query (JObj d2)) as [[]|ex]; try reflexivity.
  destruct (bind _ _) as [port|ex]; [|reflexivity].
  rewrite (insert_modulo_port d1 d2 (JNum port) Hd). reflexivity.
Qed.

(** C9, as the code has it.  Two requests that differ at most in their
    [port] field get the same response, leave the service in the same
    state and make it post the same payloads to the Proxy.  Every
    posted payload carries the port mapped from the request's
    [strategy] field; 3306 when that field holds anything that is not a
    known strategy name; and, when the request has no [strategy] field,
    the port mapped from the strategy the Trusted Host has cached. *)
Theorem inbound_port_has_no_influence
        (d1 d2 : gmap string json) (e : env) (th : t) :
  delete "port" d1 = delete "port" d2 ->
  forward_request (JObj d1) e th = forward_request (JObj d2) e th
  /\ (forall client_ip,
        handle_query (JObj d1) client_ip e th
        = handle_query (JObj d2) client_ip e th)
  /\ (forall payload,
        payload ∈ snd (forward_request (JObj d1) e th) ->
        exists port,
          payload = JObj (<["port" := JNum port]> d1)
          /\ port = match d1 !! "strategy" with
                    | Some (JStr s) => default 3306 (STRATEGY_PORTS !! s)
                    | Some _ => 3306
                    | None =>
                        default 3306 (STRATEGY_PORTS !! current_strategy th)
                    end).
Proof.
  intros Hd. split_and!.
  - now apply forward_request_modulo_port.
  - intros client_ip. unfold handle_query.
    destruct (_check_rate_limit _ _ _) as [within rc].
    destruct (negb within); [reflexivity|].
    now apply forward_request_modulo_port.
  - intros payload. apply forwarded_port.
Qed.

(** Two requests for strategy [customized], one claiming port 1, the
    other with no port: both are posted with port 3308. *)
Lemma inbound_port_has_no_influence_witness :
  let d1 := <["port" := JNum 1]>
              (<["strategy" := JStr "customized"]>
                 (<["query" := JStr "SELECT 1"]> ∅)) in
  let d2 := <["strategy" := JStr "customized"]>
              (<["query" := JStr "SELECT 1"]> ∅) in
  forward_request (JObj d1) (proxy_up 100) init
  = forward_request (JObj d2) (proxy_up 100) init
  /\ snd (forward_request (JObj d1) (proxy_up 100) init)
     = [ JObj (<["port" := JNum 3308]> d2) ].
Proof.
  intros d1 d2.
  destruct (inbound_port_has_no_influence d1 d2 (proxy_up 100) init)
    as (H & _ & _).
  - vm_compute. reflexivity.
  - split; [exact H|]. vm_compute. reflexivity.
Defined.

(** C9 as the spec words it fails.  Once [set_strategy("random")] has
    succeeded, a request without a [strategy] field is forwarded with
    port 3307, not with the direct port 3306. *)
Lemma missing_strategy_uses_cached_strategy :
  current_strategy after_set_random = "random"%string
  /\ snd (forward_request select_1 (proxy_up 200) after_set_random)
     = [ JObj (<["port" := JNum 3307]> (<["query" := JStr "SELECT 1"]> ∅)) ]
  /\ ~ (forall (d : gmap string json) (e : env) (th : t) (payload : json),
           d !! "strategy" = None ->
           payload ∈ snd (forward_request (JObj d) e th) ->
           payload = JObj (<["port" := JNum 3306]> d)).
Proof.
  split_and!.
  - vm_compute. reflexivity.
  - vm_compute. reflexivity.
  - intros H.
    specialize (H (<["query" := JStr "SELECT 1"]> ∅) (proxy_up 200)
                  after_set_random
                  (JObj (<["port" := JNum 3307]>
                           (<["query" := JStr "SELECT 1"]> ∅)))
                  eq_refl).
    assert (Hin : JObj (<["port" := JNum 3307]>
                          (<["query" := JStr "SELECT 1"]> ∅))
                  ∈ snd (forward_request
                           (JObj (<["query" := JStr "SELECT 1"]> ∅))
                           (proxy_up 200) after_set_random)).
    { vm_compute. left. }
    specialize (H Hin). vm_compute in H. discriminate H.
Qed.

End TrustedHostFacts.

Module GatekeeperFacts.
Import Json Py Http Gatekeeper.

Lemma breaker_rejects (cb : CircuitBreaker.t) (now : Z) :
  fst (CircuitBreaker.can_execute now cb) = false ->
  snd (CircuitBreaker.can_execute now cb) = cb.
Proof.
  unfold CircuitBreaker.can_execute.
  destruct (CircuitBreaker.state cb); cbn; try discriminate.
  destruct (_ <? _); cbn; [discriminate | reflexivity].
Qed.

Lemma counts_after_breaker
      (request_data : json) (client_ip : string) (e : env) (gk : t) :
  fst (CircuitBreaker.can_execute (t_breaker e) (circuit_breaker gk)) = true ->
  request_counts (snd (fst (process_request request_data client_ip e gk)))
  = snd (_check_rate_limit (t_rate e) client_ip (request_counts gk)).
Proof.
  unfold process_request.
  destruct (CircuitBreaker.can_execute _ _) as [can cb].
  destruct (_check_rate_limit _ _ _) as [within rc].
  cbn [fst snd]. intros ->. cbn [negb].
  repeat case_match; reflexivity.
Qed.

(** C2, as the code has it.  [process_request] consults the breaker
    first.  A request the open breaker rejects gets the "temporarily
    unavailable" envelope, posts nothing and leaves the rate windows
    as they were: its timestamp is not recorded.  A request the
    breaker lets through has the caller's window pruned and its
    timestamp appended, whatever happens to it afterwards; when that
    puts the caller over the limit the request is refused and posts
    nothing. *)
Theorem breaker_consulted_before_rate_limit
        (request_data : json) (client_ip : string) (e : env) (gk : t) :
  let out := process_request request_data client_ip e gk in
  let can := CircuitBreaker.can_execute (t_breaker e) (circuit_breaker gk) in
  let rl := _check_rate_limit (t_rate e) client_ip (request_counts gk) in
  (fst can = false ->
     out = (error "Service temporarily unavailable", gk, []))
  /\ (fst can = true ->
      request_counts (snd (fst out)) = snd rl
      /\ RateLimiter.stored client_ip (request_counts (snd (fst out)))
         = filter (fun t => t_rate e - t < 60)
                  (RateLimiter.stored client_ip (request_counts gk))
           ++ [t_rate e]
      /\ (fst rl = false ->
          out = (error "Rate limit exceeded",
                 {| circuit_breaker := snd can;
                    current_strategy := current_strategy gk;
                    request_counts := snd rl |}, []))).
Proof.
  intros out can rl. subst out can rl. split.
  - intros Hcan. pose proof (breaker_rejects _ _ Hcan) as Hcb.
    unfold process_request.
    destruct (CircuitBreaker.can_execute _ _) as [can cb].
    cbn [fst snd] in Hcan, Hcb. subst can cb. cbn [negb].
    destruct gk; reflexivity.
  - intros Hcan. split_and!.
    + now apply counts_after_breaker.
    + rewrite counts_after_breaker by exact Hcan.
      apply RateLimiterFacts.check_stored.
    + unfold process_request.
      destruct (CircuitBreaker.can_execute _ _) as [can cb].
      destruct (_check_rate_limit _ _ _) as [within rc].
      cbn [fst snd] in *. subst can. intros ->. reflexivity.
Qed.

(** The run [after_outage]: five requests during an outage open the
    breaker; each of the five was counted. *)
Lemma after_outage_is_open :
  CircuitBreaker.state (circuit_breaker after_outage) = CircuitBreaker.open
  /\ RateLimiter.stored "10.0.0.7" (request_counts after_outage)
     = [1; 2; 3; 4; 5].
Proof. split; vm_compute; reflexivity. Qed.

Lemma breaker_consulted_before_rate_limit_witness :
  process_request select_1 "10.0.0.7" (outage 10) after_outage
  = (error "Service temporarily unavailable", after_outage, []).
Proof.
  destruct (breaker_consulted_before_rate_limit
              select_1 "10.0.0.7" (outage 10) after_outage) as [H _].
  apply H. vm_compute. reflexivity.
Defined.

(** C2 as the spec words it fails.  With the breaker open, a request at
    second 10 is rejected and second 10 is not in the caller's window
    afterwards: the rate limit was not checked before the breaker. *)
Lemma rejected_request_is_not_counted :
  fst (fst (process_request select_1 "10.0.0.7" (outage 10) after_outage))
  = error "Service temporarily unavailable"
  /\ RateLimiter.stored "10.0.0.7"
       (request_counts
          (snd (fst (process_request select_1 "10.0.0.7" (outage 10)
                                     after_outage))))
     = [1; 2; 3; 4; 5]
  /\ ~ (forall (request_data : json) (client_ip : string) (e : env) (gk : t),
           t_rate e ∈ RateLimiter.stored client_ip
             (request_counts
                (snd (fst (process_request request_data client_ip e gk))))).
Proof.
  split_and!.
  - vm_compute. reflexivity.
  - vm_compute. reflexivity.
  - intros H.
    specialize (H select_1 "10.0.0.7"%string (outage 10) after_outage).
    vm_compute in H.
    repeat (apply elem_of_cons in H as [H|H]; [discriminate H|]).
    now apply elem_of_nil in H.
Qed.

End GatekeeperFacts.

Module PyStrFacts.
Import PyStr.

Lemma startswith_spec (p s : list ascii) :
  startswith p s = true <-> exists b, s = p ++ b.
Proof.
  revert s. induction p as [|a p IH]; intros s; cbn.
  - split; [intros _; now exists s | reflexivity].
  - destruct s as [|x s]; [split; [discriminate | intros [b Hb]; discriminate]|].
    rewrite andb_true_iff, Ascii.eqb_eq, IH. split.
    + intros [-> [b ->]]. now exists b.
    + intros [b Hb]. injection Hb as -> ->. split; [reflexivity | now exists b].
Qed.

Lemma contains_spec (p s : list ascii) :
  contains p s = true <-> infix_of p s.
Proof.
  unfold infix_of. induction s as [|x s IH]; cbn.
  - rewrite orb_false_r, startswith_spec. split.
    + intros [b Hb]. now exists [], b.
    + intros (a & b & Hab). destruct a; [now exists b|discriminate].
  - rewrite orb_true_iff, startswith_spec, IH. split.
    + intros [[b Hb]|(a & b & Hab)].
      * now exists [], b.
      * exists (x :: a), b. cbn. now rewrite Hab.
    + intros (a & b & Hab). destruct a as [|y a]; cbn in Hab.
      * left. now exists b.
      * right. injection Hab as -> ->. now exists a, b.
Qed.

Lemma not_contains (p s : list ascii) :
  contains p s = false <-> ~ infix_of p s.
Proof.
  rewrite <- contains_spec. destruct (contains p s); split;
    congruence.
Qed.

Lemma infix_of_app (p a s b : list ascii) :
  infix_of p s -> infix_of p (a ++ s ++ b).
Proof.
  intros (a' & b' & ->). exists (a ++ a'), (b' ++ b).
  now rewrite <- !app_assoc.
Qed.

(** [s[:-1]] is a prefix of [s]. *)
Lemma all_but_last_prefix (s : list ascii) :
  exists b, s = all_but_last s ++ b.
Proof.
  unfold all_but_last. destruct s as [|x s] using rev_ind.
  - now exists [].
  - exists [x]. now rewrite removelast_last.
Qed.

(** A semicolon in [s[:-1]] is a semicolon of [s] that is not its last
    character. *)
Lemma semicolon_not_last (c : ascii) (s : list ascii) :
  contains [c] (all_but_last s) = false
  <-> (forall a b, s = a ++ [c] ++ b -> b = []).
Proof.
  rewrite not_contains. split.
  - intros Hno a b ->. destruct b as [|y b] using rev_ind; [reflexivity|].
    exfalso. apply Hno. exists a, b. unfold all_but_last.
    change (a ++ [c] ++ b ++ [y]) with (a ++ (c :: b) ++ [y]).
    rewrite app_assoc, removelast_last. reflexivity.
  - intros Hlast (a & b & Hab).
    destruct (all_but_last_prefix s) as [t Ht].
    unfold all_but_last in *. destruct s as [|x s] using rev_ind.
    + destruct a; discriminate Hab.
    + rewrite removelast_last in Hab, Ht.
      apply app_inv_head in Ht. subst t.
      specialize (Hlast a (b ++ [x])).
      rewrite Hab, <- !app_assoc in Hlast. specialize (Hlast eq_refl).
      destruct b; discriminate Hlast.
Qed.

Lemma lstrip_suffix (s : list ascii) : exists a, s = a ++ lstrip s.
Proof.
  induction s as [|x s [a Ha]]; cbn; [now exists []|].
  destruct (is_space x); [|now exists []].
  exists (x :: a). cbn. now rewrite <- Ha.
Qed.

Lemma strip_infix (s : list ascii) : exists a b, s = a ++ strip s ++ b.
Proof.
  unfold strip, rstrip.
  destruct (lstrip_suffix s) as [a Ha].
  destruct (lstrip_suffix (rev (lstrip s))) as [b Hb].
  exists a, (rev b). rewrite <- rev_app_distr, <- Hb, rev_involutive.
  exact Ha.
Qed.

Lemma normalise_map (s : list ascii) : replace_nl (upper s) = map norm s.
Proof. unfold replace_nl, upper. rewrite map_map. reflexivity. Qed.

(** Normalisation yields neither [-], [/], [*] nor [;] from any other
    character. *)
Lemma norm_symbol (c x : ascii) :
  In c ["-"; "/"; "*"; ";"]%char -> norm x = c -> x = c.
Proof.
  intros Hc.
  destruct x as [[] [] [] [] [] [] [] []]; vm_compute; intros <-;
    first [ reflexivity
          | exfalso; cbn in Hc;
            repeat (destruct Hc as [Hc|Hc]; [discriminate Hc|]);
            exact Hc ].
Qed.

Lemma map_norm_symbols (p t : list ascii) :
  Forall (fun c => In c ["-"; "/"; "*"; ";"]%char) p ->
  map norm t = p -> t = p.
Proof.
  intros Hp. revert t. induction Hp as [|c p Hc _ IH]; intros t Ht.
  - now destruct t.
  - destruct t as [|x t]; [discriminate|]. cbn in Ht.
    injection Ht as Hx Ht. f_equal; [now apply norm_symbol | now apply IH].
Qed.

(** Hence a pattern made of these symbols occurs in the normalised
    query only if it occurs in the query. *)
Lemma symbols_survive (p s : list ascii) :
  Forall (fun c => In c ["-"; "/"; "*"; ";"]%char) p ->
  infix_of p (strip (replace_nl (upper s))) -> infix_of p s.
Proof.
  intros Hp Hin. rewrite normalise_map in Hin.
  destruct (strip_infix (map norm s)) as (a & b & Hs).
  pose proof (infix_of_app p a _ b Hin) as (a' & b' & Hab).
  rewrite <- Hs in Hab.
  apply map_eq_app in Hab as (a1 & t1 & -> & _ & Hab).
  apply map_eq_app in Hab as (t & b1 & -> & Ht & _).
  apply (map_norm_symbols p t Hp) in Ht. subst t.
  now exists a1, b1.
Qed.

End PyStrFacts.

Module ReFacts.
Import PyStr Re.

Lemma prev_after_nil p : prev_after p [] = p.
Proof. reflexivity. Qed.

Lemma prev_after_cons p x w : prev_after p (x :: w) = prev_after (Some x) w.
Proof.
  unfold prev_after. destruct w as [|y w]; [reflexivity|].
  rewrite last_cons_cons. destruct (last (y :: w)) eqn:E; [reflexivity|].
  now apply last_None in E.
Qed.

Lemma prev_after_app p w1 w2 :
  prev_after p (w1 ++ w2) = prev_after (prev_after p w1) w2.
Proof.
  revert p. induction w1 as [|x w1 IH]; intros p; cbn; [reflexivity|].
  now rewrite !prev_after_cons, IH.
Qed.

Lemma last_is_prev_after (l : list ascii) : last l = prev_after None l.
Proof. unfold prev_after. now destruct (last l). Qed.

Lemma before_app a w : before (a ++ w) = prev_after (before a) w.
Proof.
  unfold before.
  rewrite (last_is_prev_after (a ++ w)), prev_after_app,
    <- last_is_prev_after.
  reflexivity.
Qed.

(** A match reads a prefix of the text. *)
Lemma matches_consumes r c1 c2 :
  Matches r c1 c2 ->
  exists w, snd c1 = w ++ snd c2 /\ fst c2 = prev_after (fst c1) w.
Proof.
  induction 1 as [c|a x p s _|a x p s _|f x p s _|x p s _|p s _
                  |r1 r2 c1 c2 c3 _ IH1 _ IH2|r1 r2 c1 c2 _ IH
                  |r1 r2 c1 c2 _ IH|r c|r c1 c2 c3 _ IH1 _ IH2];
    cbn [fst snd] in *;
    try (exists []; split; reflexivity);
    try (exists [x]; split; reflexivity);
    try exact IH.
  - destruct IH1 as (w1 & E1 & P1), IH2 as (w2 & E2 & P2).
    exists (w1 ++ w2). rewrite E1, E2, P2, P1, prev_after_app, <- app_assoc.
    split; reflexivity.
  - destruct IH1 as (w1 & E1 & P1), IH2 as (w2 & E2 & P2).
    exists (w1 ++ w2). rewrite E1, E2, P2, P1, prev_after_app, <- app_assoc.
    split; reflexivity.
Qed.

Lemma matches_no_progress r c1 c2 :
  Matches r c1 c2 -> (length (snd c1) <= length (snd c2))%nat -> c2 = c1.
Proof.
  intros H Hlen. destruct (matches_consumes r c1 c2 H) as (w & E & P).
  rewrite E, length_app in Hlen.
  destruct w as [|x w]; [|cbn in Hlen; lia].
  destruct c1, c2. cbn in *. now subst.
Qed.

Section Loop.
Variable m : option ascii -> list ascii ->
             (option ascii -> list ascii -> bool) -> bool.
Variable r : regex.
Hypothesis m_sound : forall p s k,
    m p s k = true ->
    exists c, Matches r (p, s) c /\ k (fst c) (snd c) = true.
Hypothesis m_complete : forall p s c k,
    Matches r (p, s) c -> k (fst c) (snd c) = true -> m p s k = true.

Lemma star_loop_sound k n : forall p s,
    star_loop m k n p s = true ->
    exists c, Matches (Star r) (p, s) c /\ k (fst c) (snd c) = true.
Proof.
  induction n as [|n IH]; intros p s; cbn [star_loop];
    rewrite orb_true_iff; intros [Hk|Hm].
  - exists (p, s). split; [constructor | exact Hk].
  - discriminate.
  - exists (p, s). split; [constructor | exact Hk].
  - apply m_sound in Hm as (c & Hc & Hk).
    apply andb_true_iff in Hk as [_ Hk].
    apply IH in Hk as (c' & Hc' & Hk').
    exists c'. split; [|exact Hk'].
    destruct c. eapply M_StarCons; eassumption.
Qed.

Lemma star_loop_complete k c1 c2 :
  Matches (Star r) c1 c2 -> k (fst c2) (snd c2) = true ->
  forall n, (length (snd c1) <= n)%nat ->
            star_loop m k n (fst c1) (snd c1) = true.
Proof.
  intros H. remember (Star r) as sr eqn:Esr.
  induction H as [| | | | | | | | |r0 c|r0 c1 c2 c3 H1 _ H2 IH2];
    try discriminate Esr; injection Esr as ->; intros Hk n Hn.
  - destruct n; cbn [star_loop]; rewrite Hk; reflexivity.
  - specialize (IH2 eq_refl Hk).
    destruct (Nat.ltb_spec (length (snd c2)) (length (snd c1))) as [Hlt|Hge].
    + destruct n as [|n]; [lia|]. cbn [star_loop].
      apply orb_true_iff. right.
      destruct c1 as [p1 s1]. cbn [fst snd] in *.
      apply (m_complete p1 s1 c2); [exact H1|].
      apply andb_true_iff. split; [now apply Nat.ltb_lt|].
      apply IH2. lia.
    + rewrite (matches_no_progress _ _ _ H1 Hge) in IH2. now apply IH2.
Qed.

End Loop.

Lemma matcher_sound r : forall p s k,
    matcher r p s k = true ->
    exists c, Matches r (p, s) c /\ k (fst c) (snd c) = true.
Proof.
  induction r as [|a|a|f| | |r1 IH1 r2 IH2|r1 IH1 r2 IH2|r1 IH1];
    intros p s k; cbn [matcher].
  - intros Hk. exists (p, s). split; [constructor | exact Hk].
  - destruct s as [|x s]; [discriminate|]. rewrite andb_true_iff.
    intros [Ha Hk]. exists (Some x, s). split; [now constructor | exact Hk].
  - destruct s as [|x s]; [discriminate|]. rewrite andb_true_iff.
    intros [Ha Hk]. exists (Some x, s). split; [now constructor | exact Hk].
  - destruct s as [|x s]; [discriminate|]. rewrite andb_true_iff.
    intros [Ha Hk]. exists (Some x, s). split; [now constructor | exact Hk].
  - destruct s as [|x s]; [discriminate|]. rewrite andb_true_iff.
    intros [Ha Hk]. exists (Some x, s). split; [now constructor | exact Hk].
  - rewrite andb_true_iff. intros [Hb Hk].
    exists (p, s). split; [now constructor | exact Hk].
  - intros H. apply IH1 in H as ([p1 s1] & H1 & H). cbn [fst snd] in H.
    apply IH2 in H as (c & H2 & Hk).
    exists c. split; [econstructor; eassumption | exact Hk].
  - rewrite orb_true_iff. intros [H|H].
    + apply IH1 in H as (c & H1 & Hk). exists c. split; [now apply M_AltL | exact Hk].
    + apply IH2 in H as (c & H2 & Hk). exists c. split; [now apply M_AltR | exact Hk].
  - apply star_loop_sound. exact IH1.
Qed.

Lemma matcher_complete r : forall p s c k,
    Matches r (p, s) c -> k (fst c) (snd c) = true -> matcher r p s k = true.
Proof.
  induction r as [|a|a|f| | |r1 IH1 r2 IH2|r1 IH1 r2 IH2|r1 IH1];
    intros p s c k H Hk; cbn [matcher].
  - inversion H; subst. exact Hk.
  - inversion H; subst. apply andb_true_iff. split; assumption.
  - inversion H; subst. apply andb_true_iff. split; assumption.
  - inversion H; subst. apply andb_true_iff. split; assumption.
  - inversion H; subst. apply andb_true_iff. split; assumption.
  - inversion H; subst. apply andb_true_iff. split; assumption.
  - inversion H as [| | | | | |? ? ? [p2 s2] ? H1 H2| | | |]; subst.
    apply (IH1 p s (p2, s2)); [exact H1|]. cbn [fst snd].
    now apply (IH2 p2 s2 c).
  - apply orb_true_iff. inversion H; subst.
    + left. now apply (IH1 p s c).
    + right. now apply (IH2 p s c).
  - apply (star_loop_complete (matcher r1) r1 IH1 k (p, s) c H Hk).
    reflexivity.
Qed.

Lemma search_from_spec r s : forall p,
    search_from r p s = true
    <-> exists a b c, s = a ++ b /\ Matches r (prev_after p a, b) c.
Proof.
  induction s as [|x s IH]; intros p; cbn [search_from];
    rewrite orb_true_iff.
  - split.
    + intros [H|H]; [|discriminate].
      apply matcher_sound in H as (c & Hc & _). now exists [], [], c.
    + intros (a & b & c & Hab & Hc). left.
      symmetry in Hab. apply app_eq_nil in Hab as [-> ->].
      now apply (matcher_complete r p [] c).
  - rewrite IH. split.
    + intros [H|(a & b & c & -> & Hc)].
      * apply matcher_sound in H as (c & Hc & _). now exists [], (x :: s), c.
      * exists (x :: a), b, c. rewrite prev_after_cons. now split.
    + intros (a & b & c & Hab & Hc). destruct a as [|y a]; cbn in Hab.
      * subst b. left. now apply (matcher_complete r p (x :: s) c).
      * injection Hab as -> ->. right. exists a, b, c.
        rewrite prev_after_cons in Hc. now split.
Qed.

(** [search] decides [Found]. *)
Lemma search_spec r s : search r s = true <-> Found r s.
Proof.
  unfold search, Found. rewrite search_from_spec.
  split; intros (a & b & c & Hab & Hc); exists a, b, c; (split; [exact Hab|]).
  - unfold before. unfold prev_after in Hc. now destruct (last a).
  - unfold before in Hc. unfold prev_after. now destruct (last a).
Qed.

Lemma not_search r s : search r s = false <-> ~ Found r s.
Proof.
  rewrite <- search_spec. destruct (search r s); split; congruence.
Qed.

Lemma matches_lit w : forall p s c,
    Matches (Lit w) (p, s) c
    <-> exists b, s = w ++ b /\ c = (prev_after p w, b).
Proof.
  induction w as [|x w IH]; intros p s c; cbn [Lit].
  - split.
    + intros H. inversion H; subst. now exists s.
    + intros (b & -> & ->). constructor.
  - split.
    + intros H. inversion H as [| | | | | |? ? ? c2 ? H1 H2| | | |]; subst.
      inversion H1 as [|? ? ? ? Ha| | | | | | | | |]; subst.
      cbn in Ha. apply Ascii.eqb_eq in Ha. subst.
      apply IH in H2 as (b & -> & ->).
      exists b. rewrite prev_after_cons. split; reflexivity.
    + intros (b & -> & ->). cbn. rewrite prev_after_cons.
      eapply M_Seq; [constructor; cbn; apply Ascii.eqb_refl|].
      apply IH. now exists b.
Qed.

End ReFacts.

Module QueryValidatorFacts.
Import PyStr Re QueryValidator PyStrFacts ReFacts.

(** The keyword regex finds exactly the whole-word occurrences. *)
Lemma keyword_search_spec (kw : string) (s : list ascii) :
  search (keyword_re kw) s = true <-> whole_word (chars kw) s.
Proof.
  rewrite search_spec. unfold Found, whole_word, keyword_re, seq. cbn [foldr].
  split.
  - intros (a & b' & c & -> & H).
    inversion H as [| | | | | |? ? ? c1 ? M1 M2| | | |]; subst.
    inversion M1 as [| | | | |? ? B1| | | | |]; subst.
    inversion M2 as [| | | | | |? ? ? c2 ? M3 M4| | | |]; subst.
    apply matches_lit in M3 as (b & -> & ->).
    inversion M4 as [| | | | | |? ? ? c3 ? M5 M6| | | |]; subst.
    inversion M5 as [| | | | |? ? B2| | | | |]; subst.
    exists a, b. split_and!; [reflexivity | exact B1|].
    now rewrite before_app.
  - intros (a & b & -> & B1 & B2).
    exists a, (chars kw ++ b), (prev_after (before a) (chars kw), b).
    split; [reflexivity|].
    eapply M_Seq; [now constructor|].
    eapply M_Seq; [apply matches_lit; now exists b|].
    eapply M_Seq; [constructor; now rewrite <- before_app | constructor].
Qed.

Lemma find_none_iff {A} (f : A -> bool) (l : list A) :
  List.find f l = None <-> forall x, In x l -> f x = false.
Proof.
  split; [apply find_none|].
  intros H. destruct (List.find f l) as [x|] eqn:E; [|reflexivity].
  apply find_some in E as [Hin Hf]. rewrite (H x Hin) in Hf. discriminate.
Qed.

(** C1, as the code has it.  A non-empty query of at most 5000
    characters is valid when it holds no semicolon at all, neither
    [--] nor [/*], and its normalised text (upper-cased, newlines turned
    into spaces, stripped) starts with an allow-listed verb, holds no
    deny-listed keyword as a whole word, none of the signatures
    [*/], [@@], [@], UNION, SLEEP, WAITFOR, DELAY, [IF(], WHEN, and no
    match of an attack regex. *)
Theorem clean_query_is_valid (query : string) :
  chars query <> [] ->
  Z.of_nat (length (chars query)) <= 5000 ->
  (exists cmd rest, In cmd valid_commands
                    /\ query_upper query = chars cmd ++ rest) ->
  (forall kw, In kw dangerous_keywords ->
              ~ whole_word (chars kw) (query_upper query)) ->
  ~ infix_of (chars "--") (chars query) ->
  ~ infix_of (chars "/*") (chars query) ->
  ~ infix_of (chars ";") (chars query) ->
  (forall sig, In sig [ "*/"; "@@"; "@"; "UNION"; "SLEEP"; "WAITFOR";
                        "DELAY"; "IF("; "WHEN" ]%string ->
               ~ infix_of (chars sig) (query_upper query)) ->
  (forall r, In r common_attacks -> ~ Found r (query_upper query)) ->
  validate_query query = (true, None).
Proof.
  intros Hne Hlen (cmd & rest & Hcmd & Hstart) Hkw Hdash Hopen Hsemi Hsig Hatt.
  assert (E1 : (5000 <? Z.of_nat (length (chars query))) = false) by lia.
  assert (E2 : contains (chars ";") (all_but_last (chars query)) = false).
  { apply not_contains. intros Hin. apply Hsemi.
    destruct (all_but_last_prefix (chars query)) as [b Hb].
    rewrite Hb. apply (infix_of_app _ [] _ b Hin). }
  assert (E3 : contains (chars "--") (chars query) = false)
    by now apply not_contains.
  assert (E4 : contains (chars "/*") (chars query) = false)
    by now apply not_contains.
  assert (E5 : List.find (fun keyword => search (keyword_re keyword)
                                           (query_upper query))
                         dangerous_keywords = None).
  { apply find_none_iff. intros kw Hin.
    apply Bool.not_true_is_false. rewrite keyword_search_spec.
    now apply Hkw. }
  assert (E6 : existsb (fun cmd => startswith (chars cmd) (query_upper query))
                       valid_commands = true).
  { apply existsb_exists. exists cmd. split; [exact Hcmd|].
    apply startswith_spec. now exists rest. }
  assert (E7 : List.find (fun pattern => contains (chars pattern)
                                           (query_upper query))
                         injection_patterns = None).
  { apply find_none_iff. intros pat Hin. apply not_contains.
    assert (Hsym : forall p : string,
              Forall (fun c => In c ["-"; "/"; "*"; ";"]%char) (chars p) ->
              ~ infix_of (chars p) (chars query) ->
              ~ infix_of (chars p) (query_upper query)).
    { intros p Hp Hno Hin'. apply Hno.
      now apply (symbols_survive (chars p) (chars query) Hp). }
    cbn in Hin.
    destruct Hin as [<-|[<-|[<-|Hin]]].
    - apply Hsym; [|exact Hdash]. repeat (apply Forall_cons_2; [cbn; auto 10|]); apply Forall_nil_2.
    - apply Hsym; [|exact Hsemi]. repeat (apply Forall_cons_2; [cbn; auto 10|]); apply Forall_nil_2.
    - apply Hsym; [|exact Hopen]. repeat (apply Forall_cons_2; [cbn; auto 10|]); apply Forall_nil_2.
    - apply Hsig. cbn. tauto. }
  assert (E8 : existsb (fun pattern => search pattern (query_upper query))
                       common_attacks = false).
  { apply Bool.not_true_is_false. rewrite existsb_exists.
    intros (r & Hin & Hs). apply search_spec in Hs. now apply (Hatt r). }
  unfold validate_query.
  destruct (chars query) as [|c0 cs] eqn:Eq; [contradiction|].
  rewrite E1, E2, E3, E4, E5, E6, E7, E8. reflexivity.
Qed.

(** Deciding the hypotheses on a given query. *)
Lemma starts_with_verb_by_test (s : list ascii) :
  existsb (fun cmd => startswith (chars cmd) s) valid_commands = true ->
  exists cmd rest, In cmd valid_commands /\ s = chars cmd ++ rest.
Proof.
  intros H. apply existsb_exists in H as (cmd & Hin & Hs).
  apply startswith_spec in Hs as [rest Hs]. now exists cmd, rest.
Qed.

Lemma no_keyword_by_test (s : list ascii) :
  forallb (fun kw => negb (search (keyword_re kw) s)) dangerous_keywords
  = true ->
  forall kw, In kw dangerous_keywords -> ~ whole_word (chars kw) s.
Proof.
  intros H kw Hin. rewrite forallb_forall in H. specialize (H kw Hin).
  rewrite <- keyword_search_spec. now destruct (search (keyword_re kw) s).
Qed.

Lemma no_signature_by_test (sigs : list string) (s : list ascii) :
  forallb (fun sig => negb (contains (chars sig) s)) sigs = true ->
  forall sig, In sig sigs -> ~ infix_of (chars sig) s.
Proof.
  intros H sig Hin. rewrite forallb_forall in H. specialize (H sig Hin).
  apply not_contains. now destruct (contains (chars sig) s).
Qed.

Lemma no_attack_by_test (s : list ascii) :
  forallb (fun r => negb (search r s)) common_attacks = true ->
  forall r, In r common_attacks -> ~ Found r s.
Proof.
  intros H r Hin. rewrite forallb_forall in H. specialize (H r Hin).
  apply not_search. now destruct (search r s).
Qed.

(** The theorem at the query of the spec's end-to-end test. *)
Lemma clean_query_is_valid_witness :
  validate_query "SELECT * FROM actor WHERE actor_id = 1" = (true, None).
Proof.
  apply clean_query_is_valid.
  - discriminate.
  - vm_compute. discriminate.
  - apply starts_with_verb_by_test. vm_compute. reflexivity.
  - apply no_keyword_by_test. vm_compute. reflexivity.
  - apply not_contains. vm_compute. reflexivity.
  - apply not_contains. vm_compute. reflexivity.
  - apply not_contains. vm_compute. reflexivity.
  - apply no_signature_by_test. vm_compute. reflexivity.
  - apply no_attack_by_test. vm_compute. reflexivity.
Defined.

(** C1 as the spec words it fails.  [SELECT 1;] has its only semicolon
    as its final character and [SELECT 1 */ 2] holds none of the
    signatures the spec lists; both meet every condition of the claim
    and both are rejected by the injection-pattern scan, whose list
    also holds [;] and [*/]. *)
Lemma spec_clean_queries_rejected :
  validate_query "SELECT 1;"
  = (false, Some "Query contains suspicious pattern: ;"%string)
  /\ validate_query "SELECT 1 */ 2"
     = (false, Some "Query contains suspicious pattern: */"%string)
  /\ forall query, In query [ "SELECT 1;"; "SELECT 1 */ 2" ]%string ->
       chars query <> []
       /\ Z.of_nat (length (chars query)) <= 5000
       /\ (exists cmd rest, In cmd valid_commands
                            /\ query_upper query = chars cmd ++ rest)
       /\ (forall kw, In kw dangerous_keywords ->
                      ~ whole_word (chars kw) (query_upper query))
       /\ ~ infix_of (chars "--") (chars query)
       /\ ~ infix_of (chars "/*") (chars query)
       /\ (forall a b, chars query = a ++ chars ";" ++ b -> b = [])
       /\ (forall sig, In sig [ "UNION"; "SLEEP"; "WAITFOR"; "DELAY";
                                "IF("; "WHEN"; "@@"; "@" ]%string ->
                       ~ infix_of (chars sig) (query_upper query))
       /\ (forall r, In r common_attacks -> ~ Found r (query_upper query))
       /\ validate_query query <> (true, None).
Proof.
  split; [vm_compute; reflexivity|].
  split; [vm_compute; reflexivity|].
  intros query [<-|[<-|[]]].
  - split_and!.
    + discriminate.
    + vm_compute. discriminate.
    + apply starts_with_verb_by_test. vm_compute. reflexivity.
    + apply no_keyword_by_test. vm_compute. reflexivity.
    + apply not_contains. vm_compute. reflexivity.
    + apply not_contains. vm_compute. reflexivity.
    + apply (semicolon_not_last ";"). vm_compute. reflexivity.
    + apply no_signature_by_test. vm_compute. reflexivity.
    + apply no_attack_by_test. vm_compute. reflexivity.
    + vm_compute. discriminate.
  - split_and!.
    + discriminate.
    + vm_compute. discriminate.
    + apply starts_with_verb_by_test. vm_compute. reflexivity.
    + apply no_keyword_by_test. vm_compute. reflexivity.
    + apply not_contains. vm_compute. reflexivity.
    + apply not_contains. vm_compute. reflexivity.
    + apply (semicolon_not_last ";"). vm_compute. reflexivity.
    + apply no_signature_by_test. vm_compute. reflexivity.
    + apply no_attack_by_test. vm_compute. reflexivity.
    + vm_compute. discriminate.
Qed.

End QueryValidatorFacts.

(* ===================================================================== *)
(** * Part III: further properties of the code *)
(* ===================================================================== *)

Module QueryValidatorSoundness.
Import PyStr Re QueryValidator PyStrFacts ReFacts QueryValidatorFacts.

Lemma find_none_all {A} (f : A -> bool) (l : list A) :
  List.find f l = None -> forall x, In x l -> f x = false.
Proof. apply find_none. Qed.

(** The tests an accepted query has passed. *)
Lemma acceptance_tests (query : string) (message : option string) :
  validate_query query = (true, message) ->
  message = None
  /\ chars query <> []
  /\ (5000 <? Z.of_nat (length (chars query))) = false
  /\ contains (chars ";") (all_but_last (chars query)) = false
  /\ contains (chars "--") (chars query) = false
  /\ contains (chars "/*") (chars query) = false
  /\ List.find (fun keyword => search (keyword_re keyword) (query_upper query))
               dangerous_keywords = None
  /\ existsb (fun cmd => startswith (chars cmd) (query_upper query))
             valid_commands = true
  /\ List.find (fun pattern => contains (chars pattern) (query_upper query))
               injection_patterns = None
  /\ existsb (fun pattern => search pattern (query_upper query))
             common_attacks = false.
Proof.
  unfold validate_query.
  destruct (chars query) as [|c0 cs] eqn:Eq; [discriminate|].
  destruct (5000 <? Z.of_nat (length (c0 :: cs))) eqn:E1; [discriminate|].
  destruct (contains (chars ";") (all_but_last (c0 :: cs))) eqn:E2;
    [discriminate|].
  destruct (contains (chars "--") (c0 :: cs)) eqn:E3; [discriminate|].
  destruct (contains (chars "/*") (c0 :: cs)) eqn:E4; [discriminate|].
  cbn [orb].
  destruct (List.find _ dangerous_keywords) eqn:E5; [discriminate|].
  destruct (existsb _ valid_commands) eqn:E6; cbn [negb]; [|discriminate].
  destruct (List.find _ injection_patterns) eqn:E7; [discriminate|].
  destruct (existsb _ common_attacks) eqn:E8; [discriminate|].
  intros [= <-]. split_and!; try reflexivity; try assumption. discriminate.
Qed.

(** X1.  What acceptance guarantees: a query that [validate_query]
    accepts comes with no message, is non-empty and at most 5000
    characters long, and its normalised text starts with an allow-listed
    verb, holds no deny-listed keyword as a whole word, none of the
    twelve injection patterns and no match of an attack regex. *)
Theorem accepted_query_is_clean (query : string) (message : option string) :
  validate_query query = (true, message) ->
  message = None
  /\ chars query <> []
  /\ Z.of_nat (length (chars query)) <= 5000
  /\ (exists cmd rest, In cmd valid_commands
                       /\ query_upper query = chars cmd ++ rest)
  /\ (forall kw, In kw dangerous_keywords ->
                 ~ whole_word (chars kw) (query_upper query))
  /\ (forall pattern, In pattern injection_patterns ->
                      ~ infix_of (chars pattern) (query_upper query))
  /\ (forall r, In r common_attacks -> ~ Found r (query_upper query)).
Proof.
  intros Hok.
  destruct (acceptance_tests query message Hok)
    as (Hm & Hne & E1 & _ & _ & _ & E5 & E6 & E7 & E8).
  split_and!.
  - exact Hm.
  - exact Hne.
  - lia.
  - now apply starts_with_verb_by_test.
  - intros kw Hin. rewrite <- keyword_search_spec.
    rewrite (find_none_all _ _ E5 kw Hin). discriminate.
  - intros pattern Hin. apply not_contains.
    exact (find_none_all _ _ E7 pattern Hin).
  - intros r Hin. apply not_search.
    destruct (search r (query_upper query)) eqn:Es; [|reflexivity].
    assert (Hex : existsb (fun pattern => search pattern (query_upper query))
                          common_attacks = true)
      by (apply existsb_exists; now exists r).
    rewrite Hex in E8. discriminate.
Qed.

Lemma accepted_query_is_clean_witness :
  exists cmd rest,
    In cmd valid_commands
    /\ query_upper "SELECT * FROM actor WHERE actor_id = 1" = chars cmd ++ rest.
Proof.
  destruct (accepted_query_is_clean
              "SELECT * FROM actor WHERE actor_id = 1" None)
    as (_ & _ & _ & H & _).
  - vm_compute. reflexivity.
  - exact H.
Defined.

End QueryValidatorSoundness.

Module NormalisationFacts.
Import PyStr Re QueryValidator PyStrFacts ReFacts QueryValidatorFacts.

(** [lstrip] stops at the first character that is not white space. *)
Lemma lstrip_keeps (c : ascii) (t : list ascii) :
  is_space c = false ->
  forall a, exists a', lstrip (a ++ c :: t) = a' ++ c :: t.
Proof.
  intros Hc. induction a as [|x a [a' IH]]; cbn.
  - rewrite Hc. now exists [].
  - destruct (is_space x); [now exists a'|]. now exists (x :: a).
Qed.

Lemma rstrip_keeps (c : ascii) (h : list ascii) :
  is_space c = false ->
  forall b, exists b', rstrip (h ++ c :: b) = h ++ c :: b'.
Proof.
  intros Hc b. unfold rstrip.
  rewrite rev_app_distr. cbn [rev]. rewrite <- app_assoc. cbn [app].
  destruct (lstrip_keeps c (rev h) Hc (rev b)) as [a' ->].
  exists (rev a').
  rewrite rev_app_distr. cbn [rev]. rewrite rev_involutive, <- app_assoc.
  reflexivity.
Qed.

(** An occurrence that neither starts nor ends with white space
    survives [strip]. *)
Lemma strip_keeps_infix (first last : ascii) (mid s : list ascii) :
  is_space first = false -> is_space last = false ->
  (infix_of [first] s -> infix_of [first] (strip s))
  /\ (infix_of (first :: mid ++ [last]) s ->
      infix_of (first :: mid ++ [last]) (strip s)).
Proof.
  intros Hf Hl. unfold strip. split.
  - intros (a & b & ->). cbn [app].
    destruct (lstrip_keeps first b Hf a) as [a' ->].
    destruct (rstrip_keeps first a' Hf b) as [b' ->].
    now exists a', b'.
  - intros (a & b & ->). cbn [app].
    destruct (lstrip_keeps first ((mid ++ [last]) ++ b) Hf a) as [a' ->].
    replace (a' ++ first :: (mid ++ [last]) ++ b)
      with ((a' ++ first :: mid) ++ last :: b)
      by (rewrite <- !app_assoc; reflexivity).
    destruct (rstrip_keeps last (a' ++ first :: mid) Hl b) as [b' ->].
    exists a', b'. rewrite <- !app_assoc. cbn. rewrite <- !app_assoc.
    reflexivity.
Qed.

Lemma infix_of_map (f : ascii -> ascii) (p s : list ascii) :
  infix_of p s -> infix_of (map f p) (map f s).
Proof.
  intros (a & b & ->). exists (map f a), (map f b).
  now rewrite !map_app.
Qed.

(** Where upper-casing produces no newline, normalising is
    upper-casing. *)
Lemma norm_is_upper (t : list ascii) :
  Forall (fun c => c <> "010"%char) (upper t) -> map norm t = upper t.
Proof.
  unfold upper. induction t as [|x t IH]; cbn; intros H; [reflexivity|].
  apply Forall_cons in H as [Hx Ht]. rewrite (IH Ht). f_equal.
  unfold norm. destruct (Ascii.eqb_spec (upper_char x) "010"); congruence.
Qed.

(** The shape shared by the twelve injection patterns: no newline, and
    neither the first nor the last character is white space. *)
Lemma pattern_shape (pattern : string) :
  In pattern injection_patterns ->
  Forall (fun c => c <> "010"%char) (chars pattern)
  /\ ((exists c, chars pattern = [c] /\ is_space c = false)
      \/ (exists first mid last,
             chars pattern = first :: mid ++ [last]
             /\ is_space first = false /\ is_space last = false)).
Proof.
  intros Hin. cbn in Hin.
  repeat (destruct Hin as [<-|Hin]; [split; [repeat (apply Forall_cons_2; [discriminate|]); apply Forall_nil_2|]|]);
    try contradiction.
  - right. now exists "-"%char, [], "-"%char.
  - left. now exists ";"%char.
  - right. now exists "/"%char, [], "*"%char.
  - right. now exists "*"%char, [], "/"%char.
  - right. now exists "@"%char, [], "@"%char.
  - left. now exists "@"%char.
  - right. now exists "U"%char, (chars "NIO"), "N"%char.
  - right. now exists "S"%char, (chars "LEE"), "P"%char.
  - right. now exists "W"%char, (chars "AITFO"), "R"%char.
  - right. now exists "D"%char, (chars "ELA"), "Y"%char.
  - right. now exists "I"%char, (chars "F"), "("%char.
  - right. now exists "W"%char, (chars "HE"), "N"%char.
Qed.

(** An injection pattern written in any letter case anywhere in the
    query is still there after normalisation. *)
Lemma pattern_survives (pattern : string) (t : list ascii) (query : string) :
  In pattern injection_patterns ->
  upper t = chars pattern ->
  infix_of t (chars query) ->
  infix_of (chars pattern) (query_upper query).
Proof.
  intros Hin Hup Hocc.
  destruct (pattern_shape pattern Hin) as [Hnl Hshape].
  unfold query_upper. rewrite normalise_map.
  apply (infix_of_map norm) in Hocc.
  rewrite norm_is_upper in Hocc by (rewrite Hup; exact Hnl).
  rewrite Hup in Hocc.
  destruct Hshape as [(c & Hc & Hsp)|(first & mid & last & Hc & Hf & Hl)];
    rewrite Hc in *.
  - now apply (strip_keeps_infix c c [] _ Hsp Hsp).
  - now apply (strip_keeps_infix first last mid _ Hf Hl).
Qed.

(** X2.  No accepted query holds an injection pattern anywhere in its
    text, in any letter case: no semicolon (not even a final one), no
    [--], [/*], [*/], no [@], and none of UNION, SLEEP, WAITFOR, DELAY,
    [IF(], WHEN however capitalised. *)
Theorem accepted_query_has_no_pattern
        (query : string) (message : option string)
        (pattern : string) (t : list ascii) :
  validate_query query = (true, message) ->
  In pattern injection_patterns ->
  upper t = chars pattern ->
  ~ infix_of t (chars query).
Proof.
  intros Hok Hin Hup Hocc.
  destruct (QueryValidatorSoundness.acceptance_tests query message Hok)
    as (_ & _ & _ & _ & _ & _ & _ & _ & E7 & _).
  pose proof (QueryValidatorSoundness.find_none_all _ _ E7 pattern Hin) as Hno.
  apply not_contains in Hno. apply Hno.
  now apply (pattern_survives pattern t query).
Qed.

Lemma accepted_query_has_no_pattern_witness :
  validate_query "SELECT * FROM actor WHERE actor_id = 1" = (true, None)
  /\ ~ infix_of (chars "Union") (chars "SELECT * FROM actor WHERE actor_id = 1").
Proof.
  split; [vm_compute; reflexivity|].
  apply (accepted_query_has_no_pattern
           "SELECT * FROM actor WHERE actor_id = 1" None "UNION" (chars "Union")).
  - vm_compute. reflexivity.
  - cbn. auto 10.
  - vm_compute. reflexivity.
Defined.

End NormalisationFacts.

Module CaseInsensitivity.
Import PyStr Re QueryValidator PyStrFacts ReFacts QueryValidatorFacts.

(** Upper-casing yields neither [-], [/], [*] nor [;] from any other
    character, and leaves these four alone. *)
Lemma upper_symbol (c x : ascii) :
  In c ["-"; "/"; "*"; ";"]%char -> upper_char x = c -> x = c.
Proof.
  intros Hc.
  destruct x as [[] [] [] [] [] [] [] []]; vm_compute; intros <-;
    first [ reflexivity
          | exfalso; cbn in Hc;
            repeat (destruct Hc as [Hc|Hc]; [discriminate Hc|]);
            exact Hc ].
Qed.

Lemma upper_symbols_fixed (p : list ascii) :
  Forall (fun c => In c ["-"; "/"; "*"; ";"]%char) p -> upper p = p.
Proof.
  induction 1 as [|c p Hc _ IH]; [reflexivity|].
  unfold upper in *. cbn. rewrite IH. f_equal.
  cbn in Hc. destruct Hc as [<-|[<-|[<-|[<-|[]]]]]; reflexivity.
Qed.

Lemma upper_symbols_inv (p t : list ascii) :
  Forall (fun c => In c ["-"; "/"; "*"; ";"]%char) p ->
  upper t = p -> t = p.
Proof.
  intros Hp. revert t. induction Hp as [|c p Hc _ IH]; intros t Ht.
  - now destruct t.
  - destruct t as [|x t]; [discriminate|]. unfold upper in *. cbn in Ht.
    injection Ht as Hx Ht. f_equal; [now apply upper_symbol | now apply IH].
Qed.

(** Whether a pattern of these symbols occurs is unaffected by
    upper-casing the text. *)
Lemma contains_symbols_upper (p s : list ascii) :
  Forall (fun c => In c ["-"; "/"; "*"; ";"]%char) p ->
  contains p (upper s) = contains p s.
Proof.
  intros Hp. apply eq_true_iff_eq. rewrite !contains_spec. split.
  - intros (a & b & Hab). unfold upper in Hab.
    apply map_eq_app in Hab as (a1 & t1 & -> & _ & Hab).
    apply map_eq_app in Hab as (t & b1 & -> & Ht & _).
    apply (upper_symbols_inv p t Hp) in Ht. subst t. now exists a1, b1.
  - intros Hin. apply (NormalisationFacts.infix_of_map upper_char) in Hin.
    fold (upper p) in Hin. now rewrite (upper_symbols_fixed p Hp) in Hin.
Qed.

Lemma upper_all_but_last (s : list ascii) :
  upper (all_but_last s) = all_but_last (upper s).
Proof.
  unfold upper, all_but_last. induction s as [|x [|y s] IH]; try reflexivity.
  cbn [map removelast] in *. now rewrite IH.
Qed.

Lemma contains_symbols_same (p s1 s2 : list ascii) :
  Forall (fun c => In c ["-"; "/"; "*"; ";"]%char) p ->
  upper s1 = upper s2 -> contains p s1 = contains p s2.
Proof.
  intros Hp Hs.
  rewrite <- (contains_symbols_upper p s1 Hp),
          <- (contains_symbols_upper p s2 Hp), Hs.
  reflexivity.
Qed.

(** X3.  The verdict, message included, does not depend on letter case:
    two queries with the same upper-cased text are treated alike.  (On
    ASCII text, where upper-casing keeps the length.) *)
Theorem verdict_ignores_case (query1 query2 : string) :
  upper (chars query1) = upper (chars query2) ->
  validate_query query1 = validate_query query2.
Proof.
  intros Hup.
  assert (Hlen : length (chars query1) = length (chars query2)).
  { apply (f_equal (@length ascii)) in Hup. unfold upper in Hup.
    now rewrite !length_map in Hup. }
  assert (Hsemi : contains (chars ";") (all_but_last (chars query1))
                  = contains (chars ";") (all_but_last (chars query2))).
  { apply contains_symbols_same.
    - apply Forall_cons_2; [cbn; auto 10 | apply Forall_nil_2].
    - now rewrite !upper_all_but_last, Hup. }
  assert (Hdash : contains (chars "--") (chars query1)
                  = contains (chars "--") (chars query2)).
  { apply contains_symbols_same; [|exact Hup].
    repeat (apply Forall_cons_2; [cbn; auto 10|]); apply Forall_nil_2. }
  assert (Hopen : contains (chars "/*") (chars query1)
                  = contains (chars "/*") (chars query2)).
  { apply contains_symbols_same; [|exact Hup].
    repeat (apply Forall_cons_2; [cbn; auto 10|]); apply Forall_nil_2. }
  assert (Hqu : query_upper query1 = query_upper query2)
    by (unfold query_upper; now rewrite Hup).
  unfold validate_query. rewrite Hqu.
  destruct (chars query1) as [|a1 s1], (chars query2) as [|a2 s2];
    try discriminate Hlen; [reflexivity|].
  rewrite Hlen, Hsemi, Hdash, Hopen. reflexivity.
Qed.

Lemma verdict_ignores_case_witness :
  validate_query "select * from Actor where actor_id = 1"
  = validate_query "SELECT * FROM actor WHERE actor_id = 1".
Proof.
  apply verdict_ignores_case. vm_compute. reflexivity.
Defined.

End CaseInsensitivity.

Module BreakerHysteresis.
Import CircuitBreaker.

Lemma Tripped_step (o : op) (cb : t) : Tripped cb -> Tripped (step o cb).
Proof.
  intros H. destruct o as [now| |now]; cbn.
  - destruct H as [Hge Hiff]. unfold Tripped, record_failure, threshold in *.
    cbn. split; [lia|].
    destruct (Z.leb_spec 5 (failures cb + 1)) as [E|E]; cbn.
    + split; [intros [=] | intros; exfalso; lia].
    + split; intros Hx; [apply Hiff in Hx; lia | apply Hiff; lia].
  - unfold Tripped, threshold. cbn. split; [lia|]. split; [lia | reflexivity].
  - unfold can_execute.
    destruct (state cb) eqn:Es; cbn; [exact H | | exact H].
    destruct (timeout <? now - last_failure_time cb); cbn; [|exact H].
    destruct H as [Hge Hiff]. unfold Tripped in *. cbn.
    split; [exact Hge|]. split; [intros [=]|].
    intros Hlt. apply Hiff in Hlt. congruence.
Qed.

Lemma Tripped_run (ops : list op) : forall cb, Tripped cb -> Tripped (run ops cb).
Proof.
  induction ops as [|o ops IH]; intros cb H; cbn; [exact H|].
  apply IH, Tripped_step, H.
Qed.

Lemma Tripped_init : Tripped init.
Proof. unfold Tripped, threshold. cbn. split; [lia|]. split; [lia | reflexivity]. Qed.

(** X4.  After any sequence of calls on a fresh breaker the state is
    closed if and only if the failure count is below the threshold of 5;
    an open or half-open breaker always carries at least 5 failures. *)
Theorem closed_iff_below_threshold (ops : list op) :
  let cb := run ops init in
  0 <= failures cb
  /\ (state cb = closed <-> failures cb < 5)
  /\ (state cb = open \/ state cb = half_open -> 5 <= failures cb).
Proof.
  cbn zeta. destruct (Tripped_run ops init Tripped_init) as [Hge Hiff].
  unfold threshold in Hiff. split_and!; [exact Hge | exact Hiff|].
  intros Hs.
  destruct (decide (failures (run ops init) < 5)) as [Hlt|Hlt]; [|lia].
  apply Hiff in Hlt. rewrite Hlt in Hs. destruct Hs; discriminate.
Qed.

(** X5.  A failure recorded while the breaker is half-open opens it
    again at once, and [can_execute] then refuses for the next 60
    seconds: the trial period starts over. *)
Theorem half_open_failure_reopens (ops : list op) (now now' : Z) :
  state (run ops init) = half_open ->
  now' - now <= 60 ->
  let cb' := record_failure now (run ops init) in
  state cb' = open
  /\ last_failure_time cb' = now
  /\ can_execute now' cb' = (false, cb').
Proof.
  intros Hs Hnow cb'. subst cb'.
  destruct (Tripped_run ops init Tripped_init) as [Hge Hiff].
  unfold threshold in Hiff.
  assert (Hf : 5 <= failures (run ops init)).
  { destruct (decide (failures (run ops init) < 5)) as [Hlt|Hlt]; [|lia].
    apply Hiff in Hlt. rewrite Hlt in Hs. discriminate. }
  assert (Hopen : state (record_failure now (run ops init)) = open).
  { unfold record_failure, threshold. cbn.
    destruct (5 <=? failures (run ops init) + 1) eqn:E; [reflexivity | lia]. }
  split_and!; [exact Hopen | reflexivity|].
  unfold can_execute. rewrite Hopen. cbn [last_failure_time record_failure].
  unfold timeout. destruct (60 <? now' - now) eqn:E; [lia | reflexivity].
Qed.

Lemma half_open_failure_reopens_witness :
  let cb' := record_failure 200
               (run [ RecordFailure 1; RecordFailure 2; RecordFailure 3;
                      RecordFailure 4; RecordFailure 5; CanExecute 100 ] init) in
  state cb' = open
  /\ last_failure_time cb' = 200
  /\ can_execute 260 cb' = (false, cb').
Proof.
  apply (half_open_failure_reopens
           [ RecordFailure 1; RecordFailure 2; RecordFailure 3;
             RecordFailure 4; RecordFailure 5; CanExecute 100 ] 200 260).
  - reflexivity.
  - lia.
Defined.

Lemma failures_without_success (ops : list op) :
  forall cb,
    Forall (fun o => is_success o = false) ops ->
    failures (run ops cb)
    = failures cb + Z.of_nat (length (List.filter is_failure ops)).
Proof.
  induction ops as [|o ops IH]; intros cb Hno; cbn; [lia|].
  apply Forall_cons in Hno as [Ho Hno]. rewrite (IH _ Hno).
  destruct o as [now| |now]; cbn in *; [lia | discriminate|].
  unfold can_execute. destruct (state cb); cbn; try lia.
  destruct (_ <? _); cbn; lia.
Qed.

Lemma run_app (ops1 ops2 : list op) (cb : t) :
  run (ops1 ++ ops2) cb = run ops2 (run ops1 cb).
Proof. unfold run. apply fold_left_app. Qed.

(** X6.  The count is the number of failures since the last success:
    after a [record_success], a run without further success leaves the
    count equal to the number of [record_failure] calls in it, whatever
    [can_execute] calls are interleaved; and the breaker is then closed
    exactly if that number is below 5. *)
Theorem counts_failures_since_success (before after : list op) :
  Forall (fun o => is_success o = false) after ->
  let cb := run (before ++ RecordSuccess :: after) init in
  failures cb = Z.of_nat (length (List.filter is_failure after))
  /\ (state cb = closed
      <-> Z.of_nat (length (List.filter is_failure after)) < 5).
Proof.
  intros Hno cb. subst cb.
  assert (Hf : failures (run (before ++ RecordSuccess :: after) init)
               = Z.of_nat (length (List.filter is_failure after))).
  { rewrite run_app. cbn [run fold_left step].
    fold (run after (record_success (run before init))).
    rewrite (failures_without_success after _ Hno). cbn. lia. }
  split; [exact Hf|].
  destruct (Tripped_run (before ++ RecordSuccess :: after) init Tripped_init)
    as [_ Hiff].
  unfold threshold in Hiff. now rewrite <- Hf.
Qed.

Lemma counts_failures_since_success_witness :
  failures (run ([RecordFailure 1; RecordFailure 2] ++ RecordSuccess ::
                 [RecordFailure 3; CanExecute 4; RecordFailure 5]) init) = 2.
Proof.
  destruct (counts_failures_since_success
              [RecordFailure 1; RecordFailure 2]
              [RecordFailure 3; CanExecute 4; RecordFailure 5]) as [H _].
  - repeat (apply Forall_cons_2; [reflexivity|]). apply Forall_nil_2.
  - exact H.
Defined.

End BreakerHysteresis.

Module RateLimiterComposition.
Import RateLimiter RateLimiterFacts.

(** X7.  A refused check still records its timestamp, so a client over
    the limit stays refused for as long as none of its stored timestamps
    has left the window. *)
Theorem refused_stays_refused
        (N W t1 t2 : Z) (c : string) (rc : gmap string (list Z)) :
  fst (check N W t1 c rc) = false ->
  Forall (fun t => t2 - t < W) (stored c (snd (check N W t1 c rc))) ->
  t1 ∈ stored c (snd (check N W t1 c rc))
  /\ fst (check N W t2 c (snd (check N W t1 c rc))) = false.
Proof.
  intros Hno Hfresh. split.
  - rewrite check_stored. apply elem_of_app. right. apply list_elem_of_here.
  - assert (Hlen : ~ Z.of_nat (length (stored c (snd (check N W t1 c rc)))) <= N).
    { intros Hle. apply check_answer in Hle. congruence. }
    apply Bool.not_true_is_false. intros Hyes.
    apply check_answer in Hyes.
    rewrite check_stored, (filter_keep_all _ _ Hfresh), length_app in Hyes.
    cbn [length] in Hyes. lia.
Qed.

Lemma refused_stays_refused_witness :
  fst (check 2 60 30 "10.0.0.7"
         (snd (check 2 60 20 "10.0.0.7"
                 (snd (checks 2 60 [0; 10] "10.0.0.7" ∅))))) = false.
Proof.
  apply (refused_stays_refused 2 60 20 30 "10.0.0.7"
           (snd (checks 2 60 [0; 10] "10.0.0.7" ∅))).
  - vm_compute. reflexivity.
  - vm_compute. repeat (apply Forall_cons_2; [reflexivity|]). apply Forall_nil_2.
Defined.

(** X8.  Clients do not interfere: checks of two different clients give
    the same answers and the same map in either order. *)
Theorem checks_of_different_clients_commute
        (N W t1 t2 : Z) (c1 c2 : string) (rc : gmap string (list Z)) :
  c1 <> c2 ->
  fst (check N W t2 c2 (snd (check N W t1 c1 rc))) = fst (check N W t2 c2 rc)
  /\ fst (check N W t1 c1 (snd (check N W t2 c2 rc))) = fst (check N W t1 c1 rc)
  /\ snd (check N W t2 c2 (snd (check N W t1 c1 rc)))
     = snd (check N W t1 c1 (snd (check N W t2 c2 rc))).
Proof.
  intros Hne. unfold check, stored. cbn [fst snd].
  rewrite !lookup_total_insert_ne by congruence.
  split_and!; [reflexivity | reflexivity|].
  apply insert_insert_ne. congruence.
Qed.

Lemma checks_of_different_clients_commute_witness :
  snd (check 2 60 5 "10.0.0.8" (snd (check 2 60 1 "10.0.0.7" ∅)))
  = snd (check 2 60 1 "10.0.0.7" (snd (check 2 60 5 "10.0.0.8" ∅))).
Proof.
  destruct (checks_of_different_clients_commute
              2 60 1 5 "10.0.0.7" "10.0.0.8" ∅) as (_ & _ & H).
  - discriminate.
  - exact H.
Defined.

End RateLimiterComposition.

Module RetryFacts.
Import Json Py Http.

Lemma retry_cons (outcomes : nat -> outcome) (last attempt : nat)
      (rest : list nat) (t_failure : Z) (cb : CircuitBreaker.t) :
  retry outcomes last (attempt :: rest) t_failure cb
  = match outcomes attempt with
    | Response body =>
        (Ret (Some body), CircuitBreaker.record_success cb, 1%nat)
    | Undecodable e =>
        if negb (is_request_exception e)
        then (Raise e, CircuitBreaker.record_success cb, 1%nat)
        else if (attempt =? last)%nat
        then (Raise e,
              CircuitBreaker.record_failure
                t_failure (CircuitBreaker.record_success cb), 1%nat)
        else let '(r, cb', n) :=
               retry outcomes last rest t_failure
                     (CircuitBreaker.record_success cb) in
             (r, cb', S n)
    | Fails e =>
        if negb (is_request_exception e) then (Raise e, cb, 1%nat)
        else if (attempt =? last)%nat
        then (Raise e, CircuitBreaker.record_failure t_failure cb, 1%nat)
        else let '(r, cb', n) :=
               retry outcomes last rest t_failure cb in
             (r, cb', S n)
    end.
Proof. reflexivity. Qed.

Lemma record_success_twice (cb : CircuitBreaker.t) :
  CircuitBreaker.record_success (CircuitBreaker.record_success cb)
  = CircuitBreaker.record_success cb.
Proof. reflexivity. Qed.

(** The loop over attempts [k .. k + m].  The breaker the last attempt
    finds is the one the loop started with, or that breaker reset when
    an earlier attempt was answered 2xx with a body that did not
    decode. *)
Lemma retry_from (outcomes : nat -> outcome) (t_failure : Z)
      (cb : CircuitBreaker.t) (m : nat) :
  forall k,
    exists r cb' n',
      retry outcomes (k + m) (seq k (S m)) t_failure cb = (r, cb', S n')
      /\ (n' <= m)%nat
      /\ (forall i, (i < n')%nat ->
            exists e, (outcomes (k + i)%nat = Fails e
                       \/ outcomes (k + i)%nat = Undecodable e)
                      /\ is_request_exception e = true)
      /\ match outcomes (k + n')%nat with
         | Response body =>
             r = Ret (Some body)
             /\ cb' = CircuitBreaker.record_success cb
         | Undecodable e =>
             r = Raise e
             /\ (if is_request_exception e
                 then n' = m
                      /\ cb' = CircuitBreaker.record_failure
                                 t_failure (CircuitBreaker.record_success cb)
                 else cb' = CircuitBreaker.record_success cb)
         | Fails e =>
             r = Raise e
             /\ let base :=
                  if existsb (fun j => match outcomes j with
                                       | Undecodable _ => true
                                       | _ => false
                                       end) (seq k n')
                  then CircuitBreaker.record_success cb
                  else cb in
                if is_request_exception e
                then n' = m
                     /\ cb' = CircuitBreaker.record_failure t_failure base
                else cb' = base
         end.
Proof.
  revert cb.
  induction m as [|m IH]; intros cb k.
  - change (seq k 1) with [k]. rewrite retry_cons, Nat.add_0_r, Nat.eqb_refl.
    destruct (outcomes k) as [body|e|e] eqn:Ek;
      [|destruct (is_request_exception e) eqn:Ee; cbn [negb]..];
      eexists _, _, O; rewrite Nat.add_0_r, Ek, ?Ee; cbn [seq existsb];
      (split_and!; [reflexivity | lia | lia | auto..]).
  - change (seq k (S (S m))) with (k :: seq (S k) (S m)). rewrite retry_cons.
    assert (Hk : (k =? k + S m)%nat = false) by (apply Nat.eqb_neq; lia).
    destruct (outcomes k) as [body|e|e] eqn:Ek.
    + eexists _, _, O. rewrite Nat.add_0_r, Ek.
      split_and!; [reflexivity | lia | lia | auto..].
    + destruct (is_request_exception e) eqn:Ee; cbn [negb].
      2:{ eexists _, _, O. rewrite Nat.add_0_r, Ek, Ee.
          split_and!; [reflexivity | lia | lia | auto..]. }
      rewrite Hk.
      destruct (IH (CircuitBreaker.record_success cb) (S k))
        as (r & cb' & n' & Hr & Hn & Hfail & Hres).
      replace (k + S m)%nat with (S k + m)%nat by lia.
      rewrite Hr.
      exists r, cb', (S n'). split_and!; [reflexivity | lia | |].
      * intros [|i] Hi.
        -- exists e. rewrite Nat.add_0_r. auto.
        -- destruct (Hfail i ltac:(lia)) as (e' & He' & Hreq).
           exists e'. replace (k + S i)%nat with (S k + i)%nat by lia. auto.
      * replace (k + S n')%nat with (S k + n')%nat by lia.
        change (seq k (S n')) with (k :: seq (S k) n').
        cbn [existsb]. rewrite Ek. cbn [orb].
        rewrite !record_success_twice in Hres.
        destruct (outcomes (S k + n')%nat) as [body'|e'|e'];
          [exact Hres | |].
        -- destruct Hres as [-> Hcase]. split; [reflexivity|].
           destruct (is_request_exception e'); [|exact Hcase].
           destruct Hcase as [-> ->]. auto.
        -- destruct Hres as [-> Hcase]. split; [reflexivity|].
           cbv zeta in Hcase |- *.
           assert (Hbase :
                     (if existsb (fun j => match outcomes j with
                                           | Undecodable _ => true
                                           | _ => false
                                           end) (seq (S k) n')
                      then CircuitBreaker.record_success cb
                      else CircuitBreaker.record_success cb)
                     = CircuitBreaker.record_success cb)
             by (destruct (existsb _ _); reflexivity).
           rewrite Hbase in Hcase.
           destruct (is_request_exception e'); [|exact Hcase].
           destruct Hcase as [-> ->]. auto.
    + destruct (is_request_exception e) eqn:Ee; cbn [negb].
      2:{ eexists _, _, O. rewrite Nat.add_0_r, Ek, Ee. cbn [seq existsb].
          split_and!; [reflexivity | lia | lia | auto..]. }
      rewrite Hk.
      destruct (IH cb (S k)) as (r & cb' & n' & Hr & Hn & Hfail & Hres).
      replace (k + S m)%nat with (S k + m)%nat by lia.
      rewrite Hr.
      exists r, cb', (S n'). split_and!; [reflexivity | lia | |].
      * intros [|i] Hi.
        -- exists e. rewrite Nat.add_0_r. auto.
        -- destruct (Hfail i ltac:(lia)) as (e' & He' & Hreq).
           exists e'. replace (k + S i)%nat with (S k + i)%nat by lia. auto.
      * replace (k + S n')%nat with (S k + n')%nat by lia.
        change (seq k (S n')) with (k :: seq (S k) n').
        cbn [existsb]. rewrite Ek. cbn [orb].
        destruct (outcomes (S k + n')%nat) as [body'|e'|e'];
          [exact Hres | |].
        -- destruct Hres as [-> Hcase]. split; [reflexivity|].
           destruct (is_request_exception e'); [|exact Hcase].
           destruct Hcase as [-> ->]. auto.
        -- destruct Hres as [-> Hcase]. split; [reflexivity|].
           cbv zeta in Hcase |- *.
           destruct (is_request_exception e'); [|exact Hcase].
           destruct Hcase as [-> ->]. auto.
Qed.

(** The loop always sends a request, and never more than it has
    attempts. *)
Lemma retry_count (outcomes : nat -> outcome) (t_failure : Z)
      (cb : CircuitBreaker.t) (m : nat) :
  exists r cb' n',
    retry outcomes m (seq 0 (S m)) t_failure cb = (r, cb', S n')
    /\ (n' <= m)%nat.
Proof.
  destruct (retry_from outcomes t_failure cb m 0)
    as (r & cb' & n' & Hr & Hn & _).
  exists r, cb', n'. split; [exact Hr | exact Hn].
Qed.

(** X9.  The retry loop with [S m] attempts sends between 1 and [S m]
    requests: it stops at the first attempt that does not raise a
    [RequestException], and every attempt before it raised one, from the
    request or from decoding a 2xx answer.  [record_success] is called
    at every 2xx answer, before its body is decoded.  If the last
    attempt sent is answered and decoded, the body is returned on a
    reset breaker.  If it raises, the exception is raised;
    [record_failure] is called only for a [RequestException] at attempt
    [m], once, and on a breaker that was reset if that attempt or an
    earlier one was answered 2xx.  The fall-through [return] after the
    loop is never reached. *)
Theorem retry_outcome (outcomes : nat -> outcome) (t_failure : Z)
        (cb : CircuitBreaker.t) (m : nat) :
  exists r cb' n',
    retry outcomes m (seq 0 (S m)) t_failure cb = (r, cb', S n')
    /\ (n' <= m)%nat
    /\ r <> Ret None
    /\ (forall i, (i < n')%nat ->
          exists e, (outcomes i = Fails e \/ outcomes i = Undecodable e)
                    /\ is_request_exception e = true)
    /\ match outcomes n' with
       | Response body =>
           r = Ret (Some body)
           /\ cb' = CircuitBreaker.record_success cb
       | Undecodable e =>
           r = Raise e
           /\ (if is_request_exception e
               then n' = m
                    /\ cb' = CircuitBreaker.record_failure
                               t_failure (CircuitBreaker.record_success cb)
               else cb' = CircuitBreaker.record_success cb)
       | Fails e =>
           r = Raise e
           /\ let base :=
                if existsb (fun j => match outcomes j with
                                     | Undecodable _ => true
                                     | _ => false
                                     end) (seq 0 n')
                then CircuitBreaker.record_success cb
                else cb in
              if is_request_exception e
              then n' = m
                   /\ cb' = CircuitBreaker.record_failure t_failure base
              else cb' = base
       end.
Proof.
  destruct (retry_from outcomes t_failure cb m 0)
    as (r & cb' & n' & Hr & Hn & Hfail & Hres).
  cbn [Nat.add] in Hfail, Hres.
  exists r, cb', n'. split_and!; [exact Hr | exact Hn | | exact Hfail | exact Hres].
  destruct (outcomes n') as [body|e|e]; destruct Hres as [-> _]; discriminate.
Qed.

End RetryFacts.

Module GatekeeperForwarding.
Import Json Py Http Gatekeeper.

Lemma validate_accepts (query : json) (message : option string) :
  validate query = Ret (true, message) ->
  exists q, query = JStr q /\ QueryValidator.validate_query q = (true, None).
Proof.
  destruct query as [|b|n|s|l|d]; cbn; intros H;
    try (repeat case_match; discriminate H).
  injection H as H. exists s. split; [reflexivity|].
  destruct (QueryValidatorSoundness.acceptance_tests s message H) as [-> _].
  exact H.
Qed.

Ltac no_posts := intros Hne; exfalso; apply Hne; reflexivity.

(** What a request that gets posted has gone through. *)
Lemma forwarded (request_data : json) (client_ip : string) (e : env) (gk : t) :
  snd (process_request request_data client_ip e gk) <> [] ->
  exists d q port r cb' n',
    request_data = JObj d
    /\ d !! "query" = Some (JStr q)
    /\ QueryValidator.validate_query q = (true, None)
    /\ STRATEGY_PORTS !! current_strategy gk = Some port
    /\ fst (CircuitBreaker.can_execute (t_breaker e) (circuit_breaker gk)) = true
    /\ fst (_check_rate_limit (t_rate e) client_ip (request_counts gk)) = true
    /\ retry (attempts e) 2 (seq 0 3) (t_failure e)
             (snd (CircuitBreaker.can_execute (t_breaker e) (circuit_breaker gk)))
       = (r, cb', S n')
    /\ (n' <= 2)%nat
    /\ snd (process_request request_data client_ip e gk)
       = replicate (S n')
           (JObj (<["port" := JNum port]>
                    (<["strategy" := JStr (current_strategy gk)]> d))).
Proof.
  unfold process_request.
  destruct (CircuitBreaker.can_execute _ _) as [[] cb]; cbn [negb fst snd];
    [|no_posts].
  destruct (_check_rate_limit _ _ _) as [[] rc]; cbn [negb fst snd];
    [|no_posts].
  destruct (lacks_query request_data) as [[]|ex]; [no_posts | | no_posts].
  destruct (too_large _); [no_posts|].
  destruct (subscript_query request_data) as [query|ex] eqn:Esub; [|no_posts].
  destruct (negb (sliceable query)); [no_posts|].
  destruct (validate query) as [[[] message]|ex] eqn:Ev; [|no_posts..].
  apply validate_accepts in Ev as (q & -> & Hq).
  destruct (STRATEGY_PORTS !! current_strategy gk) as [port|]; [|no_posts].
  destruct request_data as [| | | | |d]; try no_posts.
  cbn in Esub. destruct (d !! "query") as [v|] eqn:Ed; [|discriminate].
  injection Esub as ->.
  destruct (RetryFacts.retry_from (attempts e) (t_failure e) cb 2 0)
    as (r & cb' & n' & Hr & Hn & _).
  cbn [Nat.add] in Hr. rewrite Hr. cbn [snd]. intros _.
  exists d, q, port, r, cb', n'. split_and!; auto.
Qed.

(** X10.  The Gatekeeper posts nothing it has not validated: every
    payload sent to the Trusted Host comes from a dict request whose
    [query] is a string that [validate_query] accepts, is the request
    with [strategy] and [port] set from the Gatekeeper's cached strategy,
    and at most three copies of it are sent. *)
Theorem posts_are_validated
        (request_data : json) (client_ip : string) (e : env) (gk : t)
        (payload : json) :
  payload ∈ snd (process_request request_data client_ip e gk) ->
  exists d q port,
    request_data = JObj d
    /\ d !! "query" = Some (JStr q)
    /\ QueryValidator.validate_query q = (true, None)
    /\ STRATEGY_PORTS !! current_strategy gk = Some port
    /\ payload = JObj (<["port" := JNum port]>
                         (<["strategy" := JStr (current_strategy gk)]> d))
    /\ (length (snd (process_request request_data client_ip e gk)) <= 3)%nat.
Proof.
  intros Hin.
  assert (Hne : snd (process_request request_data client_ip e gk) <> [])
    by (intros E; rewrite E in Hin; now apply elem_of_nil in Hin).
  destruct (forwarded request_data client_ip e gk Hne)
    as (d & q & port & r & cb' & n' & -> & Hq & Hv & Hp & _ & _ & _ & Hn & Hposts).
  rewrite Hposts in Hin |- *.
  apply elem_of_replicate in Hin as [-> _].
  exists d, q, port. rewrite length_replicate. split_and!; auto. lia.
Qed.

Lemma posts_are_validated_witness :
  exists d q port,
    select_1 = JObj d
    /\ d !! "query" = Some (JStr q)
    /\ QueryValidator.validate_query q = (true, None)
    /\ STRATEGY_PORTS !! current_strategy init = Some port
    /\ JObj (<["port" := JNum 3306]>
               (<["strategy" := JStr "direct"]>
                  (<["query" := JStr "SELECT 1"]> ∅)))
       = JObj (<["port" := JNum port]>
                 (<["strategy" := JStr (current_strategy init)]> d))
    /\ (length (snd (process_request select_1 "10.0.0.7" (outage 1) init))
        <= 3)%nat.
Proof.
  apply (posts_are_validated select_1 "10.0.0.7" (outage 1) init).
  vm_compute. left.
Defined.

Lemma modulo_strategy_port (d1 d2 : gmap string json) :
  delete "strategy" (delete "port" d1) = delete "strategy" (delete "port" d2) ->
  d1 !! "query" = d2 !! "query"
  /\ lacks_query (JObj d1) = lacks_query (JObj d2)
  /\ forall s p,
       <["port" := p]> (<["strategy" := s]> d1)
       = <["port" := p]> (<["strategy" := s]> d2).
Proof.
  intros Hd.
  assert (Hk : forall k, k <> "port"%string -> k <> "strategy"%string ->
                         d1 !! k = d2 !! k).
  { intros k H1 H2.
    rewrite <- (lookup_delete_ne d1 "port" k) by congruence.
    rewrite <- (lookup_delete_ne (delete "port" d1) "strategy" k) by congruence.
    rewrite Hd, !lookup_delete_ne by congruence. reflexivity. }
  assert (Hq : d1 !! "query" = d2 !! "query") by (apply Hk; discriminate).
  split_and!.
  - exact Hq.
  - assert (Hempty : forall d : gmap string json,
               d = ∅ -> bool_decide (is_Some (d !! "query")) = false).
    { intros d ->. rewrite lookup_empty. apply bool_decide_eq_false.
      intros [? ?]; discriminate. }
    unfold lacks_query. cbn.
    destruct (bool_decide (d1 = ∅)) eqn:E1, (bool_decide (d2 = ∅)) eqn:E2; cbn.
    + reflexivity.
    + apply bool_decide_eq_true in E1.
      rewrite <- Hq, (Hempty d1 E1). reflexivity.
    + apply bool_decide_eq_true in E2.
      rewrite Hq, (Hempty d2 E2). reflexivity.
    + now rewrite Hq.
  - intros s p. apply map_eq. intros k.
    destruct (decide (k = "port"%string)) as [->|Hp];
      [now rewrite !lookup_insert_eq|].
    rewrite !(lookup_insert_ne _ "port") by congruence.
    destruct (decide (k = "strategy"%string)) as [->|Hs];
      [now rewrite !lookup_insert_eq|].
    rewrite !(lookup_insert_ne _ "strategy") by congruence.
    now apply Hk.
Qed.

(** X11.  The Gatekeeper overrides whatever [strategy] and [port] a
    client puts in its request: two requests that differ in these two
    fields only get the same response, leave the same state and cause
    the same posts. *)
Theorem inbound_strategy_and_port_ignored
        (d1 d2 : gmap string json) (client_ip : string) (e : env) (gk : t) :
  delete "strategy" (delete "port" d1) = delete "strategy" (delete "port" d2) ->
  process_request (JObj d1) client_ip e gk
  = process_request (JObj d2) client_ip e gk.
Proof.
  intros Hd. destruct (modulo_strategy_port d1 d2 Hd) as (Hq & Hl & Hins).
  unfold process_request. cbn [subscript_query]. rewrite Hl, Hq.
  destruct (CircuitBreaker.can_execute _ _) as [can cb].
  destruct (negb can); [reflexivity|].
  destruct (_check_rate_limit _ _ _) as [within rc].
  destruct (negb within); [reflexivity|].
  destruct (lacks_query (JObj d2)) as [[]|ex]; try reflexivity.
  destruct (too_large _); [reflexivity|].
  destruct (d2 !! "query") as [query|]; [|reflexivity].
  destruct (negb (sliceable query)); [reflexivity|].
  destruct (validate query) as [[[] message]|ex]; try reflexivity.
  destruct (STRATEGY_PORTS !! current_strategy gk) as [port|]; [|reflexivity].
  now rewrite Hins.
Qed.

Lemma inbound_strategy_and_port_ignored_witness :
  process_request
    (JObj (<["strategy" := JStr "customized"]>
             (<["port" := JNum 1]> (<["query" := JStr "SELECT 1"]> ∅))))
    "10.0.0.7" (outage 1) init
  = process_request select_1 "10.0.0.7" (outage 1) init.
Proof.
  apply inbound_strategy_and_port_ignored. vm_compute. reflexivity.
Defined.

(** X12.  The Trusted Host forwards what the Gatekeeper posts as it is:
    the port it recomputes from the payload's strategy is the port the
    Gatekeeper has put there, whatever strategy the Trusted Host itself
    has cached. *)
Theorem trusted_host_forwards_gatekeeper_payload
        (request_data : json) (client_ip : string) (e : env) (gk : t)
        (payload : json) (e' : TrustedHost.env) (th : TrustedHost.t)
        (forwarded_payload : json) :
  payload ∈ snd (process_request request_data client_ip e gk) ->
  forwarded_payload ∈ snd (TrustedHost.forward_request payload e' th) ->
  forwarded_payload = payload.
Proof.
  intros Hin Hfw.
  assert (Hne : snd (process_request request_data client_ip e gk) <> [])
    by (intros E; rewrite E in Hin; now apply elem_of_nil in Hin).
  destruct (forwarded request_data client_ip e gk Hne)
    as (d & q & port & r & cb' & n' & -> & _ & _ & Hp & _ & _ & _ & _ & Hposts).
  rewrite Hposts in Hin. apply elem_of_replicate in Hin as [-> _].
  apply TrustedHostFacts.forwarded_port in Hfw as (port' & -> & Hport).
  rewrite lookup_insert_ne, lookup_insert_eq in Hport by discriminate.
  change TrustedHost.STRATEGY_PORTS with STRATEGY_PORTS in Hport.
  rewrite Hp in Hport. cbn in Hport. subst port'.
  f_equal. apply insert_id. apply lookup_insert_eq.
Qed.

Lemma trusted_host_forwards_gatekeeper_payload_witness :
  let payload := JObj (<["port" := JNum 3306]>
                         (<["strategy" := JStr "direct"]>
                            (<["query" := JStr "SELECT 1"]> ∅))) in
  hd JNull (snd (TrustedHost.forward_request
                   payload (TrustedHost.proxy_up 200)
                   TrustedHost.after_set_random))
  = payload.
Proof.
  cbv zeta.
  apply (trusted_host_forwards_gatekeeper_payload
           select_1 "10.0.0.7" (outage 1) init _
           (TrustedHost.proxy_up 200) TrustedHost.after_set_random).
  - vm_compute. left.
  - vm_compute. left.
Defined.

End GatekeeperForwarding.

Module ServiceInvariants.
Import Json Py Http.

Lemma Tripped_can_execute (now : Z) (cb : CircuitBreaker.t) :
  CircuitBreaker.Tripped cb ->
  CircuitBreaker.Tripped (snd (CircuitBreaker.can_execute now cb)).
Proof. apply (BreakerHysteresis.Tripped_step (CircuitBreaker.CanExecute now)). Qed.

Lemma Tripped_record_success (cb : CircuitBreaker.t) :
  CircuitBreaker.Tripped cb ->
  CircuitBreaker.Tripped (CircuitBreaker.record_success cb).
Proof. apply (BreakerHysteresis.Tripped_step CircuitBreaker.RecordSuccess). Qed.

Lemma Tripped_record_failure (now : Z) (cb : CircuitBreaker.t) :
  CircuitBreaker.Tripped cb ->
  CircuitBreaker.Tripped (CircuitBreaker.record_failure now cb).
Proof.
  apply (BreakerHysteresis.Tripped_step (CircuitBreaker.RecordFailure now)).
Qed.

Lemma Tripped_retry_from (outcomes : nat -> outcome) (t_failure : Z)
      (last : nat) (attempts : list nat) :
  forall cb,
    CircuitBreaker.Tripped cb ->
    CircuitBreaker.Tripped
      (snd (fst (retry outcomes last attempts t_failure cb))).
Proof.
  induction attempts as [|attempt rest IH]; intros cb H; [exact H|].
  rewrite RetryFacts.retry_cons.
  destruct (outcomes attempt) as [body|e|e].
  - now apply Tripped_record_success.
  - destruct (negb (is_request_exception e));
      [now apply Tripped_record_success|].
    destruct (attempt =? last)%nat;
      [now apply Tripped_record_failure, Tripped_record_success|].
    specialize (IH _ (Tripped_record_success cb H)).
    destruct (retry _ _ _ _ _) as [[r cb'] n]. exact IH.
  - destruct (negb (is_request_exception e)); [exact H|].
    destruct (attempt =? last)%nat; [now apply Tripped_record_failure|].
    specialize (IH _ H).
    destruct (retry _ _ _ _ _) as [[r cb'] n]. exact IH.
Qed.

Lemma Tripped_retry (outcomes : nat -> outcome) (t_failure : Z)
      (cb : CircuitBreaker.t) (m : nat) :
  CircuitBreaker.Tripped cb ->
  CircuitBreaker.Tripped
    (snd (fst (retry outcomes m (seq 0 (S m)) t_failure cb))).
Proof. apply Tripped_retry_from. Qed.

Lemma gatekeeper_keeps_strategy request_data client_ip e gk :
  Gatekeeper.current_strategy
    (snd (fst (Gatekeeper.process_request request_data client_ip e gk)))
  = Gatekeeper.current_strategy gk.
Proof.
  unfold Gatekeeper.process_request. repeat case_match; reflexivity.
Qed.

Lemma gatekeeper_process_request_ok request_data client_ip e gk :
  Gatekeeper.Ok gk ->
  Gatekeeper.Ok (snd (fst (Gatekeeper.process_request request_data client_ip e gk))).
Proof.
  intros [Hs Hb]. split; [now rewrite gatekeeper_keeps_strategy|].
  unfold Gatekeeper.process_request.
  pose proof (Tripped_can_execute (Gatekeeper.t_breaker e) _ Hb) as Hb1.
  destruct (CircuitBreaker.can_execute _ _) as [can cb]. cbn [snd] in Hb1.
  pose proof (Tripped_retry (Gatekeeper.attempts e) (Gatekeeper.t_failure e)
                            cb 2 Hb1) as Hb2.
  destruct (retry _ _ _ _ _) as [[r cb'] n]. cbn [fst snd] in Hb2.
  repeat case_match; cbn [fst snd]; cbn; assumption.
Qed.

Lemma gatekeeper_set_strategy_ok strategy answer gk :
  Gatekeeper.Ok gk ->
  Gatekeeper.Ok (snd (fst (Gatekeeper.set_strategy strategy answer gk))).
Proof.
  intros [Hs Hb]. unfold Gatekeeper.set_strategy.
  destruct (Gatekeeper.STRATEGY_PORTS !! strategy) as [port|] eqn:E;
    [|split; assumption].
  destruct answer; cbn [fst snd]; split; cbn; try assumption;
    rewrite E; eauto.
Qed.

(** X13.  Whatever requests and strategy changes the Gatekeeper has
    served, its cached strategy is one of the mapped names, so that the
    lookup [STRATEGY_PORTS[self.current_strategy]] cannot fail, and its
    breaker is closed exactly while fewer than 5 failures are counted. *)
Theorem gatekeeper_invariants (calls : list Gatekeeper.call) :
  let gk := Gatekeeper.serve_all calls Gatekeeper.init in
  (exists port,
      Gatekeeper.STRATEGY_PORTS !! Gatekeeper.current_strategy gk = Some port
      /\ (port = 3306 \/ port = 3307 \/ port = 3308))
  /\ (CircuitBreaker.state (Gatekeeper.circuit_breaker gk) = CircuitBreaker.closed
      <-> CircuitBreaker.failures (Gatekeeper.circuit_breaker gk) < 5).
Proof.
  cbn zeta.
  assert (H : Gatekeeper.Ok (Gatekeeper.serve_all calls Gatekeeper.init)).
  { unfold Gatekeeper.serve_all.
    assert (H0 : Gatekeeper.Ok Gatekeeper.init).
    { split; [now exists 3306 | apply BreakerHysteresis.Tripped_init]. }
    revert H0. generalize Gatekeeper.init.
    induction calls as [|c calls IH]; intros gk H0; cbn; [exact H0|].
    apply IH. destruct c; cbn.
    - now apply gatekeeper_process_request_ok.
    - now apply gatekeeper_set_strategy_ok. }
  destruct H as [[port Hp] [_ Hb]]. split; [|exact Hb].
  exists port. split; [exact Hp|].
  unfold Gatekeeper.STRATEGY_PORTS in Hp.
  apply lookup_insert_Some in Hp as [[_ <-]|[_ Hp]]; [auto|].
  apply lookup_insert_Some in Hp as [[_ <-]|[_ Hp]]; [auto|].
  apply lookup_insert_Some in Hp as [[_ <-]|[_ Hp]]; [auto|].
  rewrite lookup_empty in Hp. discriminate.
Qed.

Lemma trusted_host_keeps_strategy request_data e th :
  TrustedHost.current_strategy
    (snd (fst (TrustedHost.forward_request request_data e th)))
  = TrustedHost.current_strategy th.
Proof.
  unfold TrustedHost.forward_request. repeat case_match; reflexivity.
Qed.

Lemma trusted_host_forward_request_ok request_data e th :
  TrustedHost.Ok th ->
  TrustedHost.Ok (snd (fst (TrustedHost.forward_request request_data e th))).
Proof.
  intros [Hs Hb]. split; [now rewrite trusted_host_keeps_strategy|].
  unfold TrustedHost.forward_request.
  pose proof (Tripped_can_execute (TrustedHost.t_breaker e) _ Hb) as Hb1.
  destruct (CircuitBreaker.can_execute _ _) as [can cb]. cbn [snd] in Hb1.
  pose proof (Tripped_retry (TrustedHost.attempts e) (TrustedHost.t_failure e)
                            cb 2 Hb1) as Hb2.
  change (TrustedHost.retry_attempts - 1)%nat with 2%nat.
  change TrustedHost.retry_attempts with 3%nat.
  destruct (retry _ _ _ _ _) as [[r cb'] n]. cbn [fst snd] in Hb2.
  repeat case_match; cbn [fst snd]; cbn; assumption.
Qed.

Lemma set_strategy_loop_ok (strategy : string) (outcomes : nat -> outcome)
      (last : nat) (attempts : list nat) (t_failure : Z) :
  is_Some (TrustedHost.STRATEGY_PORTS !! strategy) ->
  forall th,
    TrustedHost.Ok th ->
    TrustedHost.Ok
      (snd (TrustedHost.set_strategy_loop strategy outcomes last attempts
                                          t_failure th)).
Proof.
  intros Hs.
  assert (Hassigned : forall th,
             TrustedHost.Ok th ->
             TrustedHost.Ok (TrustedHost.assigned strategy th)).
  { intros th [_ Hb]. split; [exact Hs|]. now apply Tripped_record_success. }
  assert (Hfailed : forall th,
             TrustedHost.Ok th -> TrustedHost.Ok (TrustedHost.failed t_failure th)).
  { intros th [Hp Hb]. split; [exact Hp|]. now apply Tripped_record_failure. }
  induction attempts as [|attempt rest IH]; intros th H; [exact H|].
  cbn [TrustedHost.set_strategy_loop].
  destruct (outcomes attempt) as [body|e|e].
  - now apply Hassigned.
  - destruct (negb (is_request_exception e)); [now apply Hassigned|].
    destruct (attempt =? last)%nat; [now apply Hfailed, Hassigned|].
    now apply IH, Hassigned.
  - destruct (negb (is_request_exception e)); [exact H|].
    destruct (attempt =? last)%nat; [now apply Hfailed|].
    now apply IH.
Qed.

Lemma trusted_host_set_strategy_ok strategy e th :
  TrustedHost.Ok th ->
  TrustedHost.Ok (snd (TrustedHost.set_strategy strategy e th)).
Proof.
  intros [Hs Hb]. unfold TrustedHost.set_strategy.
  destruct (TrustedHost.STRATEGY_PORTS !! strategy) as [port|] eqn:E;
    [|split; assumption].
  pose proof (Tripped_can_execute (TrustedHost.t_breaker e) _ Hb) as Hb1.
  destruct (CircuitBreaker.can_execute _ _) as [can cb]. cbn [snd] in Hb1.
  destruct (negb can); [split; assumption|].
  match goal with
  | |- context [TrustedHost.set_strategy_loop ?s ?o ?l ?a ?t ?th1] =>
      pose proof (set_strategy_loop_ok s o l a t (mk_is_Some _ _ E) th1
                    (conj Hs Hb1)) as Hloop;
      destruct (TrustedHost.set_strategy_loop s o l a t th1) as [r th2]
  end.
  cbn [snd] in Hloop. destruct r as [[body|]|ex]; exact Hloop.
Qed.

(** X14.  The same for the Trusted Host: after any requests and strategy
    changes its cached strategy is one of the mapped names and its
    breaker is closed exactly while fewer than 5 failures are counted. *)
Theorem trusted_host_invariants (calls : list TrustedHost.call) :
  let th := TrustedHost.serve_all calls TrustedHost.init in
  (exists port,
      TrustedHost.STRATEGY_PORTS !! TrustedHost.current_strategy th = Some port
      /\ (port = 3306 \/ port = 3307 \/ port = 3308))
  /\ (CircuitBreaker.state (TrustedHost.circuit_breaker th) = CircuitBreaker.closed
      <-> CircuitBreaker.failures (TrustedHost.circuit_breaker th) < 5).
Proof.
  cbn zeta.
  assert (H : TrustedHost.Ok (TrustedHost.serve_all calls TrustedHost.init)).
  { unfold TrustedHost.serve_all.
    assert (H0 : TrustedHost.Ok TrustedHost.init).
    { split; [now exists 3306 | apply BreakerHysteresis.Tripped_init]. }
    revert H0. generalize TrustedHost.init.
    induction calls as [|c calls IH]; intros th H0; cbn; [exact H0|].
    apply IH. destruct c; unfold TrustedHost.serve.
    - unfold TrustedHost.handle_query.
      destruct (TrustedHost._check_rate_limit _ _ _) as [within rc].
      destruct (negb within); cbn [fst snd].
      + destruct H0. split; assumption.
      + apply trusted_host_forward_request_ok. destruct H0. split; assumption.
    - now apply trusted_host_set_strategy_ok. }
  destruct H as [[port Hp] [_ Hb]]. split; [|exact Hb].
  exists port. split; [exact Hp|].
  unfold TrustedHost.STRATEGY_PORTS in Hp.
  apply lookup_insert_Some in Hp as [[_ <-]|[_ Hp]]; [auto|].
  apply lookup_insert_Some in Hp as [[_ <-]|[_ Hp]]; [auto|].
  apply lookup_insert_Some in Hp as [[_ <-]|[_ Hp]]; [auto|].
  rewrite lookup_empty in Hp. discriminate.
Qed.

End ServiceInvariants.

Module TrustedHostBehaviour.
Import Json Py Http TrustedHost.

Lemma truthy_with_query (d : gmap string json) (v : json) :
  d !! "query" = Some v -> lacks_query (JObj d) = Ret false.
Proof.
  intros Hq. unfold lacks_query. cbn.
  assert (Hne : d <> ∅) by (intros ->; rewrite lookup_empty in Hq; discriminate).
  rewrite (bool_decide_eq_false_2 _ Hne). cbn.
  rewrite bool_decide_eq_true_2 by (rewrite Hq; eauto). reflexivity.
Qed.

(** X16.  The Trusted Host does not look at the query text: whenever its
    breaker lets the request through and the health check passes, a dict
    request with any string as [query] (and a [strategy] that is not a
    list or a dict) is posted to the Proxy, between one and three times,
    with its fields unchanged apart from [port]. *)
Theorem any_query_is_forwarded
        (d : gmap string json) (q : string) (e : env) (th : t) :
  d !! "query" = Some (JStr q) ->
  match d !! "strategy" with
  | Some (JArr _) | Some (JObj _) => False
  | _ => True
  end ->
  fst (CircuitBreaker.can_execute (t_breaker e) (circuit_breaker th)) = true ->
  fst (_check_proxy_health (t_health e) (health_status e)
                           (last_proxy_health_check th)) = true ->
  exists port n',
    snd (forward_request (JObj d) e th)
    = replicate (S n') (JObj (<["port" := JNum port]> d))
    /\ (n' <= 2)%nat
    /\ (<["port" := JNum port]> d) !! "query" = Some (JStr q).
Proof.
  intros Hq Hs Hcan Hhealth. unfold forward_request.
  rewrite (truthy_with_query d _ Hq), Hq.
  destruct (CircuitBreaker.can_execute _ _) as [can cb].
  cbn [fst] in Hcan. subst can. cbn [negb].
  destruct (_check_proxy_health _ _ _) as [healthy last].
  cbn [fst] in Hhealth. subst healthy.
  destruct (RetryFacts.retry_from (attempts e) (t_failure e) cb 2 0)
    as (r & cb' & n' & Hr & Hn & _).
  cbn [Nat.add] in Hr.
  change (retry_attempts - 1)%nat with 2%nat.
  change retry_attempts with 3%nat. rewrite Hr.
  cbn [get_strategy bind sliceable default negb].
  destruct (d !! "strategy") as [[| | |s| |]|]; try contradiction;
    cbn [default port_of snd];
    eexists _, n'; (split_and!; [reflexivity | exact Hn |]);
    rewrite lookup_insert_ne by discriminate; exact Hq.
Qed.

Lemma any_query_is_forwarded_witness :
  exists port n',
    snd (forward_request (JObj (<["query" := JStr "DROP TABLE actor"]> ∅))
                         (proxy_up 100) init)
    = replicate (S n')
        (JObj (<["port" := JNum port]>
                 (<["query" := JStr "DROP TABLE actor"]> ∅)))
    /\ (n' <= 2)%nat
    /\ (<["port" := JNum port]> (<["query" := JStr "DROP TABLE actor"]> ∅)
          : gmap string json)
         !! "query" = Some (JStr "DROP TABLE actor").
Proof.
  apply (any_query_is_forwarded
           (<["query" := JStr "DROP TABLE actor"]> ∅) "DROP TABLE actor"
           (proxy_up 100) init).
  - reflexivity.
  - exact I.
  - reflexivity.
  - reflexivity.
Defined.

(** X17.  The Gatekeeper caches a strategy as soon as the Trusted Host
    answers its GET, whatever the answer says.  When the Trusted Host
    refuses the change because its breaker is open, it answers with an
    error envelope (and HTTP 200): the Gatekeeper then holds the new
    strategy while the Trusted Host keeps the old one and has sent
    nothing to the Proxy. *)
Theorem refused_strategy_is_cached_upstream
        (strategy : string) (port : Z) (e : env) (th : t) (gk : Gatekeeper.t) :
  STRATEGY_PORTS !! strategy = Some port ->
  fst (CircuitBreaker.can_execute (t_breaker e) (circuit_breaker th)) = false ->
  let answer := set_strategy strategy e th in
  let upstream :=
    Gatekeeper.set_strategy strategy (Gatekeeper.Answered (fst answer)) gk in
  fst answer = error "Service temporarily unavailable"
  /\ current_strategy (snd answer) = current_strategy th
  /\ fst (fst upstream) = error "Service temporarily unavailable"
  /\ Gatekeeper.current_strategy (snd (fst upstream)) = strategy.
Proof.
  intros Hp Hcan answer upstream. subst answer upstream.
  unfold set_strategy, Gatekeeper.set_strategy.
  change Gatekeeper.STRATEGY_PORTS with STRATEGY_PORTS. rewrite Hp.
  destruct (CircuitBreaker.can_execute _ _) as [can cb].
  cbn [fst] in Hcan. subst can. cbn. split_and!; reflexivity.
Qed.

Lemma refused_strategy_is_cached_upstream_witness :
  let th := {| circuit_breaker :=
                 {| CircuitBreaker.failures := 5;
                    CircuitBreaker.last_failure_time := 90;
                    CircuitBreaker.state := CircuitBreaker.open |};
               last_proxy_health_check := 0;
               current_strategy := "direct";
               request_counts := ∅ |} in
  let answer := set_strategy "random" (proxy_up 100) th in
  let upstream :=
    Gatekeeper.set_strategy "random" (Gatekeeper.Answered (fst answer))
                            Gatekeeper.init in
  fst answer = error "Service temporarily unavailable"
  /\ current_strategy (snd answer) = current_strategy th
  /\ fst (fst upstream) = error "Service temporarily unavailable"
  /\ Gatekeeper.current_strategy (snd (fst upstream)) = "random"%string.
Proof.
  intros th.
  apply (refused_strategy_is_cached_upstream "random" 3307 (proxy_up 100) th
           Gatekeeper.init); reflexivity.
Defined.

End TrustedHostBehaviour.

Module ProxyRouting.
Import Py Proxy.

(** [str.split(',')] gives at least one piece, no piece holds a comma,
    and joining the pieces with commas gives the text back. *)
Lemma split_comma_nonempty (s : list ascii) : split_comma s <> [].
Proof.
  destruct s as [|c s]; cbn; [discriminate|].
  destruct (Ascii.eqb c ","); [discriminate|].
  destruct (split_comma s); discriminate.
Qed.

Lemma join_split_comma (s : list ascii) : join_comma (split_comma s) = s.
Proof.
  induction s as [|c s IH]; [reflexivity|].
  pose proof (split_comma_nonempty s) as Hne.
  cbn [split_comma]. destruct (Ascii.eqb c ",") eqn:E.
  - apply Ascii.eqb_eq in E. subst c.
    destruct (split_comma s) as [|piece pieces]; [congruence|].
    cbn [join_comma app]. cbn [join_comma] in IH. now rewrite IH.
  - destruct (split_comma s) as [|piece pieces]; [congruence|].
    destruct pieces as [|piece' pieces]; cbn [join_comma app] in IH |- *;
      now rewrite IH.
Qed.

Lemma split_comma_pieces (s : list ascii) :
  Forall (fun piece => ","%char ∉ piece) (split_comma s).
Proof.
  induction s as [|c s IH]; cbn [split_comma].
  - apply Forall_cons_2; [apply not_elem_of_nil | apply Forall_nil_2].
  - destruct (Ascii.eqb c ",") eqn:E.
    + apply Forall_cons_2; [apply not_elem_of_nil | exact IH].
    + apply Ascii.eqb_neq in E.
      destruct (split_comma s) as [|piece pieces].
      * apply Forall_cons_2; [|apply Forall_nil_2].
        intros Hin. apply list_elem_of_singleton in Hin. congruence.
      * apply Forall_cons in IH as [Hp Hps].
        apply Forall_cons_2; [|exact Hps].
        intros Hin. apply elem_of_cons in Hin as [Hin|Hin];
          [congruence | contradiction].
Qed.

Lemma chars_of_pieces (pieces : list (list ascii)) :
  map PyStr.chars (map String.string_of_list_ascii pieces) = pieces.
Proof.
  induction pieces as [|piece pieces IH]; [reflexivity|].
  cbn [map]. rewrite IH. unfold PyStr.chars.
  now rewrite String.list_ascii_of_string_of_list_ascii.
Qed.

(** X18.  The Proxy that [main] builds always has a worker: the worker
    argument is split at its commas, which gives at least one host
    name (the empty name for an empty argument), none with a comma in
    it, and the argument back when joined with commas.  So
    [self.worker_hosts[0]] and [random.choice] find a host: under
    [direct], the strategy the Proxy starts with, a read selects the
    first name, and under [random] one of the names, in both cases
    without opening a connection. *)
Theorem started_proxy_has_a_worker
        (manager worker_arg : string) (w : world) (tr : list conn) :
  let pm := __init__ manager worker_arg in
  worker_hosts pm <> []
  /\ join_comma (map PyStr.chars (worker_hosts pm)) = PyStr.chars worker_arg
  /\ (forall h, h ∈ worker_hosts pm -> ","%char ∉ PyStr.chars h)
  /\ (worker_arg = ""%string -> worker_hosts pm = [""%string])
  /\ current_strategy pm = "direct"%string
  /\ (exists first,
         head (worker_hosts pm) = Some first
         /\ _select_read_host w pm tr = (Ret first, tr))
  /\ (exists h,
         h ∈ worker_hosts pm
         /\ _select_read_host w (snd (set_strategy "random" pm)) tr
            = (Ret h, tr)).
Proof.
  cbv zeta.
  pose proof (split_comma_nonempty (PyStr.chars worker_arg)) as Hne.
  assert (Hws : worker_hosts (__init__ manager worker_arg) <> []).
  { cbn [__init__ worker_hosts].
    destruct (split_comma (PyStr.chars worker_arg)); [congruence | discriminate]. }
  split_and!.
  - exact Hws.
  - cbn [__init__ worker_hosts]. rewrite chars_of_pieces.
    apply join_split_comma.
  - cbn [__init__ worker_hosts]. intros h Hh.
    apply list_elem_of_fmap in Hh as (piece & -> & Hpiece).
    unfold PyStr.chars.
    rewrite String.list_ascii_of_string_of_list_ascii.
    pose proof (split_comma_pieces (PyStr.chars worker_arg)) as Hall.
    rewrite Forall_forall in Hall. now apply Hall.
  - intros ->. reflexivity.
  - reflexivity.
  - unfold _select_read_host, first_worker.
    cbn [__init__ current_strategy String.eqb Ascii.eqb Bool.eqb].
    destruct (worker_hosts (__init__ manager worker_arg)) as [|first rest];
      [congruence|].
    exists first. split; reflexivity.
  - assert (Hset : forall pm,
               snd (set_strategy "random" pm)
               = {| manager_host := manager_host pm;
                    worker_hosts := worker_hosts pm;
                    current_strategy := "random" |}).
    { intros pm. unfold set_strategy.
      rewrite bool_decide_eq_true_2;
        [reflexivity | apply list_elem_of_further, list_elem_of_here]. }
    rewrite Hset. unfold _select_read_host, random_choice.
    cbn [current_strategy worker_hosts String.eqb Ascii.eqb Bool.eqb].
    set (ws := worker_hosts (__init__ manager worker_arg)) in *.
    assert (Hlen : (0 < length ws)%nat)
      by (destruct ws; [congruence | cbn; lia]).
    destruct (lookup_lt_is_Some_2 ws (pick w mod length ws)) as [h Hh].
    { apply Nat.mod_upper_bound. lia. }
    exists h. split; [apply list_elem_of_lookup; eauto|].
    now rewrite Hh.
Qed.

(** X19.  Strategy [random] selects a configured worker, whatever the
    draw, and opens no probe connection; and every configured worker is
    selected by some draw. *)
Theorem random_selects_a_worker (w : world) (pm : t) (tr : list conn) :
  current_strategy pm = "random"%string ->
  worker_hosts pm <> [] ->
  (exists h, _select_read_host w pm tr = (Ret h, tr) /\ h ∈ worker_hosts pm)
  /\ (forall h, h ∈ worker_hosts pm ->
        exists draw,
          _select_read_host {| exec := exec w; probe := probe w; pick := draw |}
                            pm tr
          = (Ret h, tr)).
Proof.
  intros Hs Hne. unfold _select_read_host, random_choice. rewrite Hs. cbn.
  assert (Hlen : (0 < length (worker_hosts pm))%nat)
    by (destruct (worker_hosts pm); [congruence | cbn; lia]).
  split.
  - destruct (lookup_lt_is_Some_2 (worker_hosts pm)
                (pick w mod length (worker_hosts pm))) as [h Hh].
    { apply Nat.mod_upper_bound. lia. }
    rewrite Hh. exists h. split; [reflexivity|].
    apply list_elem_of_lookup. eauto.
  - intros h Hh. apply list_elem_of_lookup in Hh as [i Hi].
    exists i. cbn.
    rewrite Nat.mod_small by (apply lookup_lt_Some in Hi; exact Hi).
    now rewrite Hi.
Qed.

Lemma random_selects_a_worker_witness :
  exists h, _select_read_host healthy_world example_proxy [] = (Ret h, [])
            /\ h ∈ worker_hosts example_proxy.
Proof.
  destruct (random_selects_a_worker healthy_world example_proxy [])
    as [H _]; [reflexivity | discriminate | exact H].
Defined.

Lemma execute_answer (w : world) (host query : string)
      (strategy : option string) (tr : list conn) :
  _execute_query w host query strategy tr
  = (match exec w tr {| host := host; port := port_for strategy;
                        statement := Some query |} with
     | Refused => Ret (Error ("Failed to connect to MySQL on " +:+ host))
     | Ran (Rows results) true => Ret (Success results)
     | Ran (MySQLError msg) true => Ret (Error ("MySQL Error: " +:+ msg))
     | Ran (Failure msg) true => Ret (Error msg)
     | Ran _ false => Raise (OtherException "close")
     end,
     tr ++ [ {| host := host; port := port_for strategy;
                statement := Some query |} ]).
Proof.
  unfold _execute_query.
  destruct (exec w tr _) as [|[results|msg|msg] []]; reflexivity.
Qed.

(** X20.  What a read returns once a host is selected, case by case.
    A read that the selected host executes, and whose cursor and
    connection then close, is returned as it is and nothing else is
    contacted.  When that closing raises, whatever the statement did,
    the read returns
    [{"status": "error", "message": "Internal error in Proxy"}] and
    nothing else is contacted.  A read that fails on a host other than
    the manager (the connection is refused, or the statement raises) is
    sent once more, to the manager on the default port, and the client
    gets the manager's answer, or the internal-error envelope when
    closing the manager's connection raises; the worker's error is not
    reported.  A read that fails on the manager itself is answered with
    that error, without a second try. *)
Theorem read_falls_back_to_manager
        (w : world) (pm : t) (query : string) (tr tr1 : list conn)
        (target : string) :
  _select_read_host w pm tr = (Ret target, tr1) ->
  let c := {| host := target; port := port_for (Some (current_strategy pm));
              statement := Some query |} in
  let cm := {| host := manager_host pm; port := 3306;
               statement := Some query |} in
  (forall results,
      exec w tr1 c = Ran (Rows results) true ->
      route_request w pm query false tr = (Success results, tr1 ++ [c]))
  /\ (forall r,
        exec w tr1 c = Ran r false ->
        route_request w pm query false tr
        = (Error "Internal error in Proxy", tr1 ++ [c]))
  /\ (target <> manager_host pm ->
      (exec w tr1 c = Refused
       \/ (exists msg, exec w tr1 c = Ran (MySQLError msg) true)
       \/ (exists msg, exec w tr1 c = Ran (Failure msg) true)) ->
      route_request w pm query false tr
      = (match exec w (tr1 ++ [c]) cm with
         | Refused =>
             Error ("Failed to connect to MySQL on " +:+ manager_host pm)
         | Ran (Rows results) true => Success results
         | Ran (MySQLError msg) true => Error ("MySQL Error: " +:+ msg)
         | Ran (Failure msg) true => Error msg
         | Ran _ false => Error "Internal error in Proxy"
         end, tr1 ++ [c; cm]))
  /\ (target = manager_host pm ->
      (exec w tr1 c = Refused ->
       route_request w pm query false tr
       = (Error ("Failed to connect to MySQL on " +:+ target), tr1 ++ [c]))
      /\ (forall msg,
            exec w tr1 c = Ran (MySQLError msg) true ->
            route_request w pm query false tr
            = (Error ("MySQL Error: " +:+ msg), tr1 ++ [c]))
      /\ (forall msg,
            exec w tr1 c = Ran (Failure msg) true ->
            route_request w pm query false tr = (Error msg, tr1 ++ [c]))).
Proof.
  intros Hsel c cm. unfold route_request. rewrite Hsel.
  rewrite (execute_answer w target query (Some (current_strategy pm)) tr1).
  fold c. split_and!.
  - intros results Hex. rewrite Hex. reflexivity.
  - intros r Hex. rewrite Hex. destruct r; reflexivity.
  - intros Hne Hfail.
    assert (Hm : String.eqb target (manager_host pm) = false)
      by now apply String.eqb_neq.
    assert (Htr : (tr1 ++ [c]) ++ [cm] = tr1 ++ [c; cm])
      by now rewrite <- app_assoc.
    rewrite (execute_answer w (manager_host pm) query None (tr1 ++ [c])).
    change {| host := manager_host pm; port := port_for None;
              statement := Some query |} with cm.
    destruct Hfail as [->|[[msg ->]|[msg ->]]]; cbn [is_success negb andb];
      rewrite Hm; cbn [negb andb];
      destruct (exec w (tr1 ++ [c]) cm) as [|[results|msg'|msg'] []];
      rewrite ?Htr; reflexivity.
  - intros Hm. apply String.eqb_eq in Hm.
    split_and!; [intros Hex | intros msg Hex..]; rewrite Hex;
      cbn [is_success negb andb]; rewrite Hm; reflexivity.
Qed.

Lemma read_falls_back_to_manager_witness :
  route_request workers_down_world example_proxy "SELECT 1" false []
  = (Success None,
     [ {| host := "worker1"; port := 3307; statement := Some "SELECT 1"%string |};
       {| host := "manager"; port := 3306; statement := Some "SELECT 1"%string |} ]).
Proof.
  destruct (read_falls_back_to_manager workers_down_world example_proxy
              "SELECT 1" [] [] "worker1" eq_refl) as (_ & _ & H & _).
  apply H; [discriminate | left; reflexivity].
Defined.

(** X21.  [query_handler] reads the [query] field only: the [strategy]
    and [port] fields that the upper tiers attach, like any other field,
    have no effect on what the Proxy does, which routes by its own
    [current_strategy]. *)
Theorem handler_reads_query_only
        (w : world) (pm : t) (d1 d2 : gmap string Json.json) (tr : list conn) :
  d1 !! "query" = d2 !! "query" ->
  query_handler w pm (Json.JObj d1) tr = query_handler w pm (Json.JObj d2) tr.
Proof.
  intros Hq.
  assert (Hl : lacks_query (Json.JObj d1) = lacks_query (Json.JObj d2)).
  { assert (Hempty : forall d : gmap string Json.json,
               d = ∅ -> bool_decide (is_Some (d !! "query")) = false).
    { intros d ->. rewrite lookup_empty. apply bool_decide_eq_false.
      intros [? ?]; discriminate. }
    unfold lacks_query. cbn.
    destruct (bool_decide (d1 = ∅)) eqn:E1, (bool_decide (d2 = ∅)) eqn:E2; cbn.
    - reflexivity.
    - apply bool_decide_eq_true in E1.
      rewrite <- Hq, (Hempty d1 E1). reflexivity.
    - apply bool_decide_eq_true in E2.
      rewrite Hq, (Hempty d2 E2). reflexivity.
    - now rewrite Hq. }
  unfold query_handler. now rewrite Hl, Hq.
Qed.

Lemma handler_reads_query_only_witness :
  query_handler healthy_world example_proxy
    (Json.JObj (<["port" := Json.JNum 3308]>
                  (<["strategy" := Json.JStr "customized"]>
                     (<["query" := Json.JStr "SELECT 1"]> ∅)))) []
  = query_handler healthy_world example_proxy
      (Json.JObj (<["query" := Json.JStr "SELECT 1"]> ∅)) [].
Proof.
  apply handler_reads_query_only. reflexivity.
Defined.

Lemma set_strategy_keeps_valid (strategy : string) (pm : t) :
  current_strategy pm ∈ ["direct"; "random"; "customized"]%string ->
  current_strategy (snd (set_strategy strategy pm))
    ∈ ["direct"; "random"; "customized"]%string
  /\ manager_host (snd (set_strategy strategy pm)) = manager_host pm
  /\ worker_hosts (snd (set_strategy strategy pm)) = worker_hosts pm.
Proof.
  intros H. unfold set_strategy.
  destruct (bool_decide _) eqn:E; cbn; [|auto].
  apply bool_decide_eq_true in E. auto.
Qed.

(** X22.  Strategy changes at the Proxy: a name outside
    direct/random/customized changes nothing; after any sequence of
    [set_strategy] calls on a Proxy started with [direct], the strategy
    is one of the three names, the topology is what it was at start, and
    reads connect on 3306, 3307 or 3308. *)
Theorem proxy_strategy_stays_valid
        (manager : string) (workers : list string) (names : list string) :
  let pm := fold_left (fun s name => snd (set_strategy name s)) names
              {| manager_host := manager; worker_hosts := workers;
                 current_strategy := "direct" |} in
  current_strategy pm ∈ ["direct"; "random"; "customized"]%string
  /\ manager_host pm = manager
  /\ worker_hosts pm = workers
  /\ (port_for (Some (current_strategy pm)) = 3306
      \/ port_for (Some (current_strategy pm)) = 3307
      \/ port_for (Some (current_strategy pm)) = 3308)
  /\ (forall name pm', name ∉ ["direct"; "random"; "customized"]%string ->
                       snd (set_strategy name pm') = pm').
Proof.
  cbn zeta.
  assert (H : forall pm0,
             current_strategy pm0 ∈ ["direct"; "random"; "customized"]%string ->
             let pm := fold_left (fun s name => snd (set_strategy name s))
                                 names pm0 in
             current_strategy pm ∈ ["direct"; "random"; "customized"]%string
             /\ manager_host pm = manager_host pm0
             /\ worker_hosts pm = worker_hosts pm0).
  { induction names as [|name names IH]; intros pm0 H0; cbn; [auto|].
    destruct (set_strategy_keeps_valid name pm0 H0) as (H1 & H2 & H3).
    destruct (IH _ H1) as (I1 & I2 & I3). cbn zeta in *.
    split_and!; [exact I1 | congruence | congruence]. }
  destruct (H {| manager_host := manager; worker_hosts := workers;
                 current_strategy := "direct" |})
    as (H1 & H2 & H3); [apply list_elem_of_here|].
  cbn zeta in *. split_and!; [exact H1 | exact H2 | exact H3 | |].
  - repeat (apply elem_of_cons in H1 as [->|H1]; [auto|]).
    now apply elem_of_nil in H1.
  - intros name pm' Hname. unfold set_strategy.
    now rewrite (bool_decide_eq_false_2 _ Hname).
Qed.

End ProxyRouting.

Module WriteClassification.
Import PyStr QueryValidator PyStrFacts Proxy.

Lemma replace_nl_inv (p t : list ascii) :
  Forall (fun c => c <> " "%char) p -> replace_nl t = p -> t = p.
Proof.
  intros Hp. revert t. induction Hp as [|c p Hc _ IH]; intros t Ht.
  - now destruct t.
  - destruct t as [|x t]; [discriminate|]. unfold replace_nl in *. cbn in Ht.
    injection Ht as Hx Ht. f_equal; [|now apply IH].
    destruct (Ascii.eqb x "010"); congruence.
Qed.

Lemma replace_nl_infix (p s : list ascii) :
  Forall (fun c => c <> " "%char) p ->
  infix_of p (replace_nl s) -> infix_of p s.
Proof.
  intros Hp (a & b & Hab). unfold replace_nl in Hab.
  apply map_eq_app in Hab as (a1 & t1 & -> & _ & Hab).
  apply map_eq_app in Hab as (t & b1 & -> & Ht & _).
  apply (replace_nl_inv p t Hp) in Ht. subst t. now exists a1, b1.
Qed.

(** A verb at the start of the normalised query is in the upper-cased
    query. *)
Lemma verb_in_upper (cmd : string) (rest : list ascii) (query : string) :
  Forall (fun c => c <> " "%char) (chars cmd) ->
  query_upper query = chars cmd ++ rest ->
  contains (chars cmd) (upper (chars query)) = true.
Proof.
  intros Hcmd Hq. apply contains_spec. apply (replace_nl_infix _ _ Hcmd).
  destruct (strip_infix (replace_nl (upper (chars query)))) as (a & b & Hs).
  rewrite Hs. apply infix_of_app. fold (query_upper query). rewrite Hq.
  now exists [], rest.
Qed.

(** X23.  The two tiers agree on writes: a query the Gatekeeper's
    validator accepts and that starts with INSERT, UPDATE or CREATE is
    classified as a write by the Proxy; so an accepted query that the
    Proxy treats as a read starts with SELECT, SHOW, DESCRIBE, EXPLAIN or
    USE. *)
Theorem accepted_reads_start_with_a_read_verb
        (query : string) (message : option string) :
  validate_query query = (true, message) ->
  is_write query = false ->
  exists cmd rest,
    In cmd [ "SELECT"; "SHOW"; "DESCRIBE"; "EXPLAIN"; "USE" ]%string
    /\ query_upper query = chars cmd ++ rest.
Proof.
  intros Hok Hread.
  destruct (QueryValidatorSoundness.acceptance_tests query message Hok)
    as (_ & _ & _ & _ & _ & _ & _ & E6 & _).
  apply QueryValidatorFacts.starts_with_verb_by_test in E6
    as (cmd & rest & Hin & Hq).
  assert (Hw : forall word : string,
             cmd = word ->
             In word [ "INSERT"; "UPDATE"; "DELETE"; "CREATE"; "DROP";
                       "ALTER" ]%string ->
             Forall (fun c => c <> " "%char) (chars word) ->
             False).
  { intros word -> Hword Hns.
    assert (Htrue : is_write query = true).
    { unfold is_write. apply existsb_exists. exists word.
      split; [exact Hword|]. now apply (verb_in_upper word rest). }
    congruence. }
  cbn in Hin.
  destruct Hin as [<-|[<-|[<-|[<-|[<-|[<-|[<-|[<-|[]]]]]]]]].
  - exists "SELECT"%string, rest. split; [cbn; auto 10 | exact Hq].
  - exfalso. apply (Hw _ eq_refl); [cbn; auto 10|].
    repeat (apply Forall_cons_2; [discriminate|]); apply Forall_nil_2.
  - exfalso. apply (Hw _ eq_refl); [cbn; auto 10|].
    repeat (apply Forall_cons_2; [discriminate|]); apply Forall_nil_2.
  - exfalso. apply (Hw _ eq_refl); [cbn; auto 10|].
    repeat (apply Forall_cons_2; [discriminate|]); apply Forall_nil_2.
  - exists "SHOW"%string, rest. split; [cbn; auto 10 | exact Hq].
  - exists "DESCRIBE"%string, rest. split; [cbn; auto 10 | exact Hq].
  - exists "EXPLAIN"%string, rest. split; [cbn; auto 10 | exact Hq].
  - exists "USE"%string, rest. split; [cbn; auto 10 | exact Hq].
Qed.

Lemma accepted_reads_start_with_a_read_verb_witness :
  exists cmd rest,
    In cmd [ "SELECT"; "SHOW"; "DESCRIBE"; "EXPLAIN"; "USE" ]%string
    /\ query_upper "show tables" = chars cmd ++ rest.
Proof.
  apply (accepted_reads_start_with_a_read_verb "show tables" None);
    vm_compute; reflexivity.
Defined.

End WriteClassification.

Module TieBreak.
Import Py Proxy ProxyFacts.

(** [min_from] returns the first entry whose value is least: the entries
    before it are strictly greater, those after it are not smaller. *)
Lemma min_from_first (d : list (string * latency)) :
  forall (pre : list (string * latency)) (best : string * latency)
         (mid : list (string * latency)),
    (forall kv, kv ∈ pre -> lat_ltb best.2 kv.2 = true) ->
    (forall kv, kv ∈ mid -> lat_ltb kv.2 best.2 = false) ->
    exists l1 lr l2,
      pre ++ best :: mid ++ d = l1 ++ (min_from best d, lr) :: l2
      /\ (forall kv, kv ∈ l1 -> lat_ltb lr kv.2 = true)
      /\ (forall kv, kv ∈ l2 -> lat_ltb kv.2 lr = false).
Proof.
  induction d as [|[k v] d IH]; intros pre best mid Hpre Hmid; cbn [min_from].
  - exists pre, best.2, mid. rewrite app_nil_r. destruct best. auto.
  - destruct (lat_ltb v best.2) eqn:E.
    + destruct (IH (pre ++ best :: mid) (k, v) []) as (l1 & lr & l2 & Heq & H1 & H2).
      * intros kv Hkv. cbn.
        apply elem_of_app in Hkv as [Hkv|Hkv].
        -- specialize (Hpre kv Hkv).
           destruct v, best.2, kv.2; cbn in *; try congruence; lia.
        -- apply elem_of_cons in Hkv as [->|Hkv]; [exact E|].
           specialize (Hmid kv Hkv).
           destruct v, best.2, kv.2; cbn in *; try congruence; lia.
      * intros kv Hkv. now apply elem_of_nil in Hkv.
      * exists l1, lr, l2. split; [|auto].
        rewrite <- Heq. cbn. rewrite <- app_assoc. reflexivity.
    + destruct (IH pre best (mid ++ [(k, v)])) as (l1 & lr & l2 & Heq & H1 & H2).
      * exact Hpre.
      * intros kv Hkv. apply elem_of_app in Hkv as [Hkv|Hkv]; [auto|].
        apply list_elem_of_singleton in Hkv as ->. exact E.
      * exists l1, lr, l2. split; [|auto].
        rewrite <- Heq, <- app_assoc. reflexivity.
Qed.

(** In a table whose keys are distinct, a key occurs once. *)
Lemma dict_set_fresh k v d :
  k ∉ d.*1 -> (dict_set k v d).*1 = d.*1 ++ [k].
Proof.
  induction d as [|[k0 v0] d IH]; cbn; intros Hk; [reflexivity|].
  apply not_elem_of_cons in Hk as [Hne Hk].
  destruct (String.eqb k k0) eqn:E;
    [apply String.eqb_eq in E; congruence|].
  cbn. now rewrite IH.
Qed.

Lemma probe_workers_keys (w : world) (ws : list string) :
  forall rt tr rt' tr',
    probe_workers w ws rt tr = (Ret rt', tr') ->
    NoDup (rt.*1 ++ ws) ->
    rt'.*1 = rt.*1 ++ ws.
Proof.
  induction ws as [|a ws IH]; intros rt tr rt' tr' Hrun Hnd.
  - cbn in Hrun. injection Hrun as <- _. now rewrite app_nil_r.
  - assert (Ha : a ∉ rt.*1).
    { apply NoDup_app in Hnd as (_ & Hdis & _). intros Hin.
      apply (Hdis a Hin). apply list_elem_of_here. }
    assert (Hnext : forall v,
               probe_workers w ws (dict_set a v rt) (tr ++ [probe_conn a])
               = (Ret rt', tr') ->
               rt'.*1 = rt.*1 ++ a :: ws).
    { intros v Hv. rewrite (IH _ _ _ _ Hv); rewrite dict_set_fresh by exact Ha;
        now rewrite <- app_assoc. }
    cbn [probe_workers] in Hrun.
    destruct (probe w tr (probe_conn a)) as [|d []];
      [exact (Hnext _ Hrun) | exact (Hnext _ Hrun) | discriminate Hrun].
Qed.

(** Where the selected worker stands in the latency table: every entry
    before it is strictly slower and no entry after it is faster. *)
Lemma selection_position
      (rt : list (string * latency)) (first r : string) (lr : latency) :
  NoDup rt.*1 ->
  head rt.*1 = Some first ->
  dict_get r rt = Some lr ->
  match rt with
  | [] => False
  | kv :: d =>
      r = if forallb (fun kv0 => is_inf kv0.2) rt then first
          else min_from kv d
  end ->
  exists l1 l2,
    rt = l1 ++ (r, lr) :: l2
    /\ (forall kv, kv ∈ l1 -> lat_ltb lr kv.2 = true)
    /\ (forall kv, kv ∈ l2 -> lat_ltb kv.2 lr = false).
Proof.
  intros Hnd Hfirst Hlr Hshape.
  destruct rt as [|[k0 v0] d]; [contradiction|].
  cbn in Hfirst. injection Hfirst as ->.
  destruct (forallb (fun kv0 => is_inf kv0.2) ((first, v0) :: d)) eqn:Hall.
  - subst r. cbn in Hlr. rewrite String.eqb_refl in Hlr. injection Hlr as <-.
    exists [], d. split_and!; [reflexivity | |].
    + intros kv Hkv. now apply elem_of_nil in Hkv.
    + intros kv Hkv. rewrite forallb_forall in Hall.
      assert (Hi : is_inf kv.2 = true).
      { apply Hall. apply list_elem_of_In. now apply list_elem_of_further. }
      destruct kv.2; [discriminate | reflexivity].
  - destruct (min_from_first d [] (first, v0) [])
      as (l1 & lr' & l2 & Heq & H1 & H2).
    + intros kv Hkv. now apply elem_of_nil in Hkv.
    + intros kv Hkv. now apply elem_of_nil in Hkv.
    + cbn [app] in Heq. subst r.
      assert (Hsame : lr' = lr).
      { assert (Hin : (min_from (first, v0) d, lr') ∈ (first, v0) :: d).
        { rewrite Heq. apply elem_of_app. right. apply list_elem_of_here. }
        apply (get_of_elem _ _ _ Hnd) in Hin. congruence. }
      subst lr'. exists l1, l2. split_and!; assumption.
Qed.

(** X24.  The tie-break of strategy [customized], in terms of what the
    probes measured.  With distinct workers, and every probe connection
    that was opened closing without raising, the selected worker is the
    first of the fastest: every worker probed before it was unreachable
    or took strictly longer to connect, and every worker probed after
    it was unreachable or took at least as long.  A worker whose probe
    failed is selected only when every probe failed, and it is then the
    first one. *)
Theorem customized_selects_first_fastest
        (w : world) (pm : t) (tr : list conn) :
  current_strategy pm = "customized"%string ->
  NoDup (worker_hosts pm) ->
  worker_hosts pm <> [] ->
  let ws := worker_hosts pm in
  let measured (i : nat) (h : string) : probe_answer :=
    probe w (tr ++ map probe_conn (take i ws)) (probe_conn h) in
  (forall i h d, ws !! i = Some h -> measured i h <> Reached d false) ->
  exists r ir,
    _select_read_host w pm tr = (Ret r, tr ++ map probe_conn ws)
    /\ ws !! ir = Some r
    /\ match measured ir r with
       | Reached dr _ =>
           (forall j h, (j < ir)%nat -> ws !! j = Some h ->
              match measured j h with
              | Reached dh _ => dr < dh
              | Unreachable => True
              end)
           /\ (forall j h, (ir < j)%nat -> ws !! j = Some h ->
                 match measured j h with
                 | Reached dh _ => dr <= dh
                 | Unreachable => True
                 end)
       | Unreachable =>
           ir = 0%nat
           /\ forall j h, ws !! j = Some h -> measured j h = Unreachable
       end.
Proof.
  intros Hs Hnd Hne ws measured Hcl. subst ws measured. cbv beta in *.
  destruct (worker_hosts pm) as [|first others] eqn:Hws; [congruence|].
  rewrite <- Hws in *. clear Hne.
  destruct (selection_by_table w pm tr first others Hws Hs Hcl)
    as (rt & r & lr & Hrun & Hndk & _ & Hsel & Hr & Hlr & _ & _ & Hrec
        & Hshape).
  assert (Hkeys : rt.*1 = worker_hosts pm).
  { rewrite (probe_workers_keys _ _ _ _ _ _ Hrun); [reflexivity|]. exact Hnd. }
  destruct (selection_position rt first r lr Hndk) as (l1 & l2 & Hrt & H1 & H2);
    [rewrite Hkeys, Hws; reflexivity | exact Hlr | exact Hshape |].
  (* the entry of the table at each place *)
  assert (Hentry : forall j h,
             worker_hosts pm !! j = Some h ->
             rt !! j
             = Some (h, probed w (tr ++ map probe_conn
                                          (take j (worker_hosts pm))) h)).
  { intros j h Hj.
    assert (Hlast : forall j', (j < j')%nat -> worker_hosts pm !! j' <> Some h).
    { intros j' Hlt Hj'. pose proof (NoDup_lookup _ _ _ _ Hnd Hj Hj'). lia. }
    destruct (last_index_split h _ j Hj Hlast) as [Hsplit Hnot].
    pose proof (Hrec _ _ _ Hsplit Hnot) as Hget.
    rewrite <- Hkeys, list_lookup_fmap in Hj.
    destruct (rt !! j) as [[k v]|] eqn:Ej; [|discriminate Hj].
    cbn in Hj. injection Hj as ->. f_equal. f_equal.
    assert (Hin : (h, v) ∈ rt) by (eapply list_elem_of_lookup_2, Ej).
    apply (get_of_elem _ _ _ Hndk) in Hin. congruence. }
  set (ir := length l1).
  assert (Hat : rt !! ir = Some (r, lr)).
  { rewrite Hrt. subst ir. now rewrite list_lookup_middle. }
  assert (Hir : worker_hosts pm !! ir = Some r).
  { rewrite <- Hkeys, list_lookup_fmap, Hat. reflexivity. }
  assert (Hlrm : lr = probed w (tr ++ map probe_conn
                                        (take ir (worker_hosts pm))) r).
  { pose proof (Hentry ir r Hir) as He. rewrite Hat in He. congruence. }
  assert (Hbefore : forall j h,
             (j < ir)%nat -> worker_hosts pm !! j = Some h ->
             lat_ltb lr (probed w (tr ++ map probe_conn
                                         (take j (worker_hosts pm))) h)
             = true).
  { intros j h Hj Hjh. pose proof (Hentry j h Hjh) as He.
    rewrite Hrt, lookup_app_l in He by exact Hj.
    apply (H1 (h, _)). eapply list_elem_of_lookup_2, He. }
  assert (Hafter : forall j h,
             (ir < j)%nat -> worker_hosts pm !! j = Some h ->
             lat_ltb (probed w (tr ++ map probe_conn
                                      (take j (worker_hosts pm))) h) lr
             = false).
  { intros j h Hj Hjh. pose proof (Hentry j h Hjh) as He.
    rewrite Hrt in He.
    rewrite lookup_app_r in He by (subst ir; lia).
    destruct (j - length l1)%nat as [|j'] eqn:Ej; [subst ir; lia|].
    cbn in He. apply (H2 (h, _)). eapply list_elem_of_lookup_2, He. }
  exists r, ir. split_and!; [exact Hsel | exact Hir |].
  unfold probed in Hlrm, Hbefore, Hafter.
  destruct (probe w (tr ++ map probe_conn (take ir (worker_hosts pm)))
                  (probe_conn r)) as [|dr c] eqn:Hm.
  - (* the selected worker was unreachable *)
    subst lr.
    assert (Hzero : ir = 0%nat).
    { destruct ir as [|ir']; [reflexivity|].
      destruct (lookup_lt_is_Some_2 (worker_hosts pm) 0) as [h Hh].
      { apply lookup_lt_Some in Hir. lia. }
      specialize (Hbefore 0%nat h (Nat.lt_0_succ ir') Hh).
      discriminate Hbefore. }
    split; [exact Hzero|].
    intros j h Hjh. destruct (decide (j = ir)) as [->|Hj].
    + rewrite Hir in Hjh. injection Hjh as <-. exact Hm.
    + specialize (Hafter j h ltac:(lia) Hjh).
      destruct (probe w _ (probe_conn h)) as [|dh ch]; [reflexivity|].
      discriminate Hafter.
  - subst lr. split.
    + intros j h Hj Hjh. specialize (Hbefore j h Hj Hjh).
      destruct (probe w _ (probe_conn h)) as [|dh ch]; [exact I|].
      cbn in Hbefore. lia.
    + intros j h Hj Hjh. specialize (Hafter j h Hj Hjh).
      destruct (probe w _ (probe_conn h)) as [|dh ch]; [exact I|].
      cbn in Hafter. lia.
Qed.

(** In the example the first worker is unreachable, the second takes 20
    time units and the third 10. *)
Lemma customized_selects_first_fastest_witness :
  exists r ir,
    _select_read_host probe_world customized_proxy []
    = (Ret r, map probe_conn (worker_hosts customized_proxy))
    /\ worker_hosts customized_proxy !! ir = Some r.
Proof.
  destruct (customized_selects_first_fastest probe_world customized_proxy [])
    as (r & ir & H1 & H2 & _).
  - reflexivity.
  - repeat (apply NoDup_cons_2; [vm_compute; intros Hin;
      repeat (apply elem_of_cons in Hin as [Hin|Hin]; [discriminate Hin|]);
      now apply elem_of_nil in Hin|]).
    apply NoDup_nil_2.
  - discriminate.
  - intros i h d Hi.
    destruct i as [|[|[|i]]]; cbn in Hi; try discriminate Hi;
      injection Hi as <-; vm_compute; discriminate.
  - exists r, ir. split; [exact H1 | exact H2].
Defined.

End TieBreak.

Module GatekeeperResponses.
Import Json Py Http Gatekeeper.

(** X25.  What a forwarded request is answered with.  Every attempt
    before the last one sent raised a [RequestException], from the
    request or from decoding a 2xx answer.  If the last one sent was
    answered and decoded, the response is that body, verbatim, on a
    reset breaker.  If it raised, the response is the fixed envelope for
    the kind of exception: "Request timed out" for a timeout,
    "Connection to internal service failed" for a connection error,
    "Internal server error" for anything else.  A failure is counted
    only for a [RequestException] at the third attempt, once, and on a
    breaker that was reset if that attempt or an earlier one was
    answered 2xx: the count is then 1. *)
Theorem forwarded_response
        (request_data : json) (client_ip : string) (e : env) (gk : t) :
  snd (process_request request_data client_ip e gk) <> [] ->
  let out := process_request request_data client_ip e gk in
  let cb := snd (CircuitBreaker.can_execute (t_breaker e) (circuit_breaker gk)) in
  let envelope (ex : exn) : json :=
    JObj (<["status" := JStr "error"]>
            (<["message" :=
                 JStr match ex with
                      | Timeout _ => "Request timed out"
                      | ConnectionError _ =>
                          "Connection to internal service failed"
                      | _ => "Internal server error"
                      end]> ∅)) in
  exists n',
    length (snd out) = S n'
    /\ (n' <= 2)%nat
    /\ (forall i, (i < n')%nat ->
          exists ex, (attempts e i = Fails ex \/ attempts e i = Undecodable ex)
                     /\ is_request_exception ex = true)
    /\ match attempts e n' with
       | Response body =>
           fst (fst out) = body
           /\ circuit_breaker (snd (fst out)) = CircuitBreaker.record_success cb
       | Undecodable ex =>
           fst (fst out) = envelope ex
           /\ (if is_request_exception ex
               then n' = 2%nat
                    /\ circuit_breaker (snd (fst out))
                       = CircuitBreaker.record_failure
                           (t_failure e) (CircuitBreaker.record_success cb)
               else circuit_breaker (snd (fst out))
                    = CircuitBreaker.record_success cb)
       | Fails ex =>
           fst (fst out) = envelope ex
           /\ let base :=
                if existsb (fun j => match attempts e j with
                                     | Undecodable _ => true
                                     | _ => false
                                     end) (seq 0 n')
                then CircuitBreaker.record_success cb
                else cb in
              if is_request_exception ex
              then n' = 2%nat
                   /\ circuit_breaker (snd (fst out))
                      = CircuitBreaker.record_failure (t_failure e) base
              else circuit_breaker (snd (fst out)) = base
       end.
Proof.
  cbv zeta. unfold process_request.
  destruct (CircuitBreaker.can_execute _ _) as [[] cb]; cbn [negb fst snd];
    [|GatekeeperForwarding.no_posts].
  destruct (_check_rate_limit _ _ _) as [[] rc]; cbn [negb fst snd];
    [|GatekeeperForwarding.no_posts].
  destruct (lacks_query request_data) as [[]|ex];
    [GatekeeperForwarding.no_posts | | GatekeeperForwarding.no_posts].
  destruct (too_large _); [GatekeeperForwarding.no_posts|].
  destruct (subscript_query request_data) as [query|ex];
    [|GatekeeperForwarding.no_posts].
  destruct (negb (sliceable query)); [GatekeeperForwarding.no_posts|].
  destruct (validate query) as [[[] message]|ex];
    [|GatekeeperForwarding.no_posts..].
  destruct (STRATEGY_PORTS !! current_strategy gk) as [port|];
    [|GatekeeperForwarding.no_posts].
  destruct request_data as [| | | | |d]; try GatekeeperForwarding.no_posts.
  destruct (RetryFacts.retry_from (attempts e) (t_failure e) cb 2 0)
    as (r & cb' & n' & Hr & Hn & Hfail & Hres).
  cbn [Nat.add] in Hr, Hfail, Hres. rewrite Hr.
  cbn [fst snd circuit_breaker]. intros _.
  exists n'. rewrite length_replicate.
  split_and!; [reflexivity | exact Hn | exact Hfail|].
  destruct (attempts e n') as [body|ex|ex]; destruct Hres as [-> Hcase].
  - split; [reflexivity | exact Hcase].
  - split; [destruct ex; reflexivity | exact Hcase].
  - split; [destruct ex; reflexivity | exact Hcase].
Qed.

(** Every connection refused: three posts, and one failure counted. *)
Lemma forwarded_response_witness :
  exists n',
    length (snd (process_request select_1 "10.0.0.7" (outage 1) init)) = S n'
    /\ (n' <= 2)%nat.
Proof.
  destruct (forwarded_response select_1 "10.0.0.7" (outage 1) init)
    as (n' & H1 & H2 & _).
  - vm_compute. discriminate.
  - exists n'. split; [exact H1 | exact H2].
Defined.

End GatekeeperResponses.

Module NoSingleFlight.
Import CircuitBreaker.

Lemma allowed_not_open (now : Z) (cb : t) :
  fst (can_execute now cb) = true -> state (snd (can_execute now cb)) <> open.
Proof.
  unfold can_execute. destruct (state cb) eqn:E; cbn; try congruence.
  destruct (_ <? _); cbn; [discriminate | discriminate].
Qed.

Lemma not_open_stays (ops : list op) :
  forall cb, state cb <> open ->
             Forall (fun o => is_failure o = false) ops ->
             state (run ops cb) <> open.
Proof.
  induction ops as [|o ops IH]; intros cb Hs Hno; cbn; [exact Hs|].
  apply Forall_cons in Hno as [Ho Hno]. apply IH; [|exact Hno].
  destruct o as [now| |now]; cbn in *; [discriminate | discriminate|].
  unfold can_execute. destruct (state cb) eqn:E; cbn; congruence.
Qed.

(** X26.  There is no single-flight gate on the trial: once
    [can_execute] has answered true it goes on answering true, at any
    later time and for any number of callers, until a failure is
    recorded. *)
Theorem allowed_until_next_failure
        (cb : t) (now now' : Z) (ops : list op) :
  fst (can_execute now cb) = true ->
  Forall (fun o => is_failure o = false) ops ->
  fst (can_execute now' (run ops (snd (can_execute now cb)))) = true.
Proof.
  intros Hcan Hno.
  pose proof (not_open_stays ops _ (allowed_not_open now cb Hcan) Hno) as Hs.
  unfold can_execute at 1.
  destruct (state (run ops (snd (can_execute now cb)))); [reflexivity | | reflexivity].
  congruence.
Qed.

Lemma allowed_until_next_failure_witness :
  fst (can_execute 300
         (run [CanExecute 200; CanExecute 201]
              (snd (can_execute 100
                      {| failures := 5; last_failure_time := 5;
                         state := open |})))) = true.
Proof.
  apply allowed_until_next_failure.
  - reflexivity.
  - repeat (apply Forall_cons_2; [reflexivity|]). apply Forall_nil_2.
Defined.

End NoSingleFlight.

Module HealthCache.
Import Json Py Http TrustedHost.

(** X15.  The health probe is cached by its time, not by its result.  A
    request whose probe is answered with a status other than 200 is
    refused with nothing sent; the same request in the 60 seconds after
    it is posted to the Proxy, between one and three times, without a
    new probe: whatever the Proxy's health would be by then (even an
    unreachable Proxy) has no part in it. *)
Theorem unhealthy_probe_is_cached
        (d : gmap string json) (q : string) (code : Z) (e1 e2 : env) (th : t) :
  d !! "query" = Some (JStr q) ->
  match d !! "strategy" with
  | Some (JArr _) | Some (JObj _) => False
  | _ => True
  end ->
  fst (CircuitBreaker.can_execute (t_breaker e1) (circuit_breaker th)) = true ->
  ~ (t_health e1 - last_proxy_health_check th < 60) ->
  health_status e1 = Some code ->
  code <> 200 ->
  t_health e2 - t_health e1 < 60 ->
  let first := forward_request (JObj d) e1 th in
  fst (fst first) = error "Proxy service unavailable"
  /\ snd first = []
  /\ exists port n',
       snd (forward_request (JObj d) e2 (snd (fst first)))
       = replicate (S n') (JObj (<["port" := JNum port]> d))
       /\ (n' <= 2)%nat.
Proof.
  intros Hq Hs Hcan Hold Hcode Hne Hnew. cbv zeta.
  pose proof (NoSingleFlight.allowed_not_open _ _ Hcan) as Hopen.
  assert (Hport : exists port,
             bind (get_strategy (JObj d) (current_strategy th)) port_of
             = Ret port).
  { cbn [get_strategy bind].
    destruct (d !! "strategy") as [[| | |s| |]|]; try contradiction;
      cbn [default port_of]; eexists; reflexivity. }
  destruct Hport as [port Hport].
  assert (Hfirst :
            forward_request (JObj d) e1 th
            = (error "Proxy service unavailable",
               {| circuit_breaker :=
                    snd (CircuitBreaker.can_execute (t_breaker e1)
                                                    (circuit_breaker th));
                  last_proxy_health_check := t_health e1;
                  current_strategy := current_strategy th;
                  request_counts := request_counts th |},
               [])).
  { unfold forward_request.
    rewrite (TrustedHostBehaviour.truthy_with_query d _ Hq), Hport, Hq.
    destruct (CircuitBreaker.can_execute _ _) as [can cb].
    cbn [fst] in Hcan. subst can. cbn [negb sliceable default snd].
    unfold _check_proxy_health, health_check_interval.
    rewrite (bool_decide_eq_false_2 _ Hold), Hcode.
    apply Z.eqb_neq in Hne. rewrite Hne. reflexivity. }
  rewrite Hfirst. cbn [fst snd].
  split_and!; [reflexivity | reflexivity|].
  unfold forward_request.
  cbn [circuit_breaker last_proxy_health_check current_strategy request_counts].
  rewrite (TrustedHostBehaviour.truthy_with_query d _ Hq), Hport, Hq.
  assert (Hagain :
            fst (CircuitBreaker.can_execute (t_breaker e2)
                   (snd (CircuitBreaker.can_execute (t_breaker e1)
                                                    (circuit_breaker th))))
            = true).
  { unfold CircuitBreaker.can_execute at 1.
    destruct (CircuitBreaker.state _); [reflexivity | congruence | reflexivity]. }
  destruct (CircuitBreaker.can_execute (t_breaker e2) _) as [can cb].
  cbn [fst] in Hagain. subst can. cbn [negb sliceable default].
  unfold _check_proxy_health, health_check_interval.
  rewrite (bool_decide_eq_true_2 _ Hnew). cbn [negb].
  destruct (RetryFacts.retry_from (attempts e2) (t_failure e2) cb 2 0)
    as (r & cb' & n' & Hr & Hn & _).
  cbn [Nat.add] in Hr.
  change (retry_attempts - 1)%nat with 2%nat.
  change retry_attempts with 3%nat. rewrite Hr. cbn [snd].
  exists port, n'. split; [reflexivity | exact Hn].
Qed.

Lemma unhealthy_probe_is_cached_witness :
  fst (fst (forward_request select_1
              {| t_rate := 1000; t_breaker := 1000; t_health := 1000;
                 t_failure := 1000; health_status := Some 503;
                 attempts := fun _ => Response (JObj ∅) |} init))
  = error "Proxy service unavailable".
Proof.
  apply (unhealthy_probe_is_cached
           (<["query" := JStr "SELECT 1"]> ∅) "SELECT 1" 503
           {| t_rate := 1000; t_breaker := 1000; t_health := 1000;
              t_failure := 1000; health_status := Some 503;
              attempts := fun _ => Response (JObj ∅) |}
           (proxy_up 1030) init).
  - reflexivity.
  - exact I.
  - reflexivity.
  - vm_compute. discriminate.
  - reflexivity.
  - discriminate.
  - vm_compute. reflexivity.
Defined.

End HealthCache.
